(** * Voice-agent relay: a shallow embedding of the bridge route and of the
    client-side message classifier and conversation aggregator.

    Sources embedded:
    - [src/app/api/agent/route.ts]  (upgrade endpoint, outbound rewriter,
      client-to-upstream forwarding);
    - [src/unnamed/part_002]        (payload classifier functions and the
      conversation aggregator of the WebSocket provider).

    JavaScript values are modelled by an inductive type; the few ECMAScript
    operations the code relies on are written out next to it.  Builtins whose
    algorithm is outside the repository (number printing and parsing, the JSON
    codec, the id and clock sources) are fields of the [Host] class. *)

From Stdlib Require Import ZArith NArith QArith List String Ascii Bool Lia.
From Stdlib.Strings Require Import Byte.
From Stdlib Require Import DecimalString.
Import ListNotations.
Close Scope Q_scope.
Set Warnings "-register-all".
Local Open Scope string_scope.
Local Open Scope list_scope.

(* ================================================================== *)
(** ** JavaScript values and the operations the code uses             *)
(* ================================================================== *)

Module JS.

(** A JavaScript Number: a finite value, an infinity or NaN.  Finite doubles
    are rationals; [-0] and [+0] are not told apart (no code path does). *)
Inductive number : Type :=
| NaN
| Infinity (negative : bool)
| Finite (q : Q).

(** Values reachable from [JSON.parse], plus [undefined], the two binary
    containers [audioFromResponse] tests for, and what a plain object
    inherits: [Object.prototype] itself and its built-in functions, by
    name.  An object is the list of its own properties; none of them is
    callable.  Of a [Uint8Array] only its [buffer] is ever read. *)
Inductive value : Type :=
| VUndefined
| VNull
| VBool (b : bool)
| VNum (n : number)
| VStr (s : string)
| VArr (items : list value)
| VObj (fields : list (string * value))
| VArrayBuffer (bytes : list byte)
| VUint8Array (buffer : list byte)
| VObjectPrototype
| VFunction (name : string).

(** What an expression gives: its value, or the TypeError it throws. *)
Inductive result (A : Type) : Type :=
| Ok (a : A)
| TypeError.
Arguments Ok {A} a.
Arguments TypeError {A}.

Definition and_then {A B} (r : result A) (k : A -> result B) : result B :=
  match r with
  | Ok a => k a
  | TypeError => TypeError
  end.

Declare Scope result_scope.
Delimit Scope result_scope with result.
Notation "x <- r ;; k" := (and_then r (fun x => k))
  (at level 61, r at next level, right associativity) : result_scope.

(** The values of a list of expressions evaluated from left to right. *)
Fixpoint all_ok {A} (l : list (result A)) : result (list A) :=
  match l with
  | [] => Ok []
  | r :: rest =>
      match r, all_ok rest with
      | Ok a, Ok more => Ok (a :: more)
      | _, _ => TypeError
      end
  end.

(** Builtins of the runtime that the repository calls but does not define. *)
Class Host : Type := {
  (** [Number::toString] in radix 10. *)
  Number_toString : number -> string;
  (** [ToNumber] applied to a String. *)
  StringToNumber : string -> number;
  (** [JSON.parse]; [None] stands for the SyntaxError it throws. *)
  JSON_parse : string -> option value;
  (** [JSON.stringify]. *)
  JSON_stringify : value -> string;
  (** The n-th identifier built from [Date.now()] and [Math.random()]. *)
  gen_id : nat -> string;
  (** [audioContext.currentTime] at the n-th reading. *)
  currentTime : nat -> Q;
  (** The double an arithmetic operation gives for the exact result. *)
  round_to_double : Q -> Q;
  (** [String(f)] for the built-in function of that name. *)
  Function_toString : string -> string
}.

(** *** Strings: code units below 256, one [ascii] each *)

Definition code (c : ascii) : N := N_of_ascii c.

(** White space as matched by [\s] and removed by [trim], below 256. *)
Definition is_space (c : ascii) : bool :=
  let n := code c in
  ((9 <=? n) && (n <=? 13) || (n =? 32) || (n =? 160))%N.

Definition lower_char (c : ascii) : ascii :=
  let n := code c in
  if ((65 <=? n) && (n <=? 90))%N then ascii_of_N (n + 32)
  else if ((192 <=? n) && (n <=? 222) && negb (n =? 215))%N then ascii_of_N (n + 32)
  else c.

Fixpoint toLowerCase (s : string) : string :=
  match s with
  | EmptyString => EmptyString
  | String c r => String (lower_char c) (toLowerCase r)
  end.

(** [s.includes(sub)] *)
Fixpoint includes (sub s : string) : bool :=
  prefix sub s ||
  match s with
  | EmptyString => false
  | String _ r => includes sub r
  end.

Fixpoint trimStart (s : string) : string :=
  match s with
  | EmptyString => EmptyString
  | String c r => if is_space c then trimStart r else s
  end.

Fixpoint trimEnd (s : string) : string :=
  match s with
  | EmptyString => EmptyString
  | String c r =>
      match trimEnd r with
      | EmptyString => if is_space c then EmptyString else String c EmptyString
      | r' => String c r'
      end
  end.

Definition trim (s : string) : string := trimStart (trimEnd s).

(** [s.replace(/\s+/g, " ")]: [skipping] is true inside a run already replaced. *)
Fixpoint collapse_from (skipping : bool) (s : string) : string :=
  match s with
  | EmptyString => EmptyString
  | String c r =>
      if is_space c
      then (if skipping then collapse_from true r
            else String " "%char (collapse_from true r))
      else String c (collapse_from false r)
  end.

Definition collapse_spaces (s : string) : string := collapse_from false s.

(** [s.replace(/\s/g, "")] *)
Fixpoint strip_spaces (s : string) : string :=
  match s with
  | EmptyString => EmptyString
  | String c r => if is_space c then strip_spaces r else String c (strip_spaces r)
  end.

(** [[...].includes(s)] on an array of string literals. *)
Definition one_of (s : string) (l : list string) : bool :=
  existsb (String.eqb s) l.

(** *** Numbers *)

Definition num_truthy (n : number) : bool :=
  match n with
  | NaN => false
  | Infinity _ => true
  | Finite q => negb (Qeq_bool q 0)
  end.

(** [n > 0] *)
Definition num_positive (n : number) : bool :=
  match n with
  | NaN => false
  | Infinity negative => negb negative
  | Finite q => (0 <? Qnum q)%Z
  end.

(** [ToUint8]: truncate towards zero, then modulo 256. *)
Definition ToUint8 (n : number) : byte :=
  match n with
  | Finite q =>
      match Byte.of_N (Z.to_N (Z.quot (Qnum q) (Zpos (Qden q)) mod 256)) with
      | Some b => b
      | None => x00
      end
  | _ => x00
  end.

Definition num_of_byte (b : byte) : number :=
  Finite (inject_Z (Z.of_N (Byte.to_N b))).

(** *** Conversions and tests on values *)

Definition truthy (v : value) : bool :=
  match v with
  | VUndefined | VNull => false
  | VBool b => b
  | VNum n => num_truthy n
  | VStr s => negb (s =? "")
  | VArr _ | VObj _ | VArrayBuffer _ | VUint8Array _ => true
  | VObjectPrototype | VFunction _ => true
  end.

Definition nullish (v : value) : bool :=
  match v with
  | VUndefined | VNull => true
  | _ => false
  end.

(** [a || b] *)
Definition or_else (a b : value) : value := if truthy a then a else b.

(** [a ?? b] *)
Definition coalesce (a b : value) : value := if nullish a then b else a.

Definition is_string (v : value) : bool :=
  match v with VStr _ => true | _ => false end.

Definition isArray (v : value) : bool :=
  match v with VArr _ => true | _ => false end.

(** [v === "lit"] *)
Definition is_str (v : value) (lit : string) : bool :=
  match v with VStr s => s =? lit | _ => false end.

(** [v === true] *)
Definition is_true (v : value) : bool :=
  match v with VBool true => true | _ => false end.

Fixpoint lookup (k : string) (fields : list (string * value)) : value :=
  match fields with
  | [] => VUndefined
  | (k', v) :: rest => if k' =? k then v else lookup k rest
  end.

(** The object has an own property [k]. *)
Fixpoint has_own (k : string) (fields : list (string * value)) : bool :=
  match fields with
  | [] => false
  | (k', _) :: rest => (k' =? k) || has_own k rest
  end.

(** [v.k] and [v?.k] for the property names the code reads.  None of them
    names an inherited property, so only objects answer; [undefined] and
    [null] only occur under optional chaining, where the result is
    [undefined]. *)
Definition getProp (v : value) (k : string) : value :=
  match v with
  | VObj fields => lookup k fields
  | _ => VUndefined
  end.

(** [v?.[0]] *)
Definition getFirst (v : value) : value :=
  match v with
  | VArr items => nth 0 items VUndefined
  | VObj fields => lookup "0" fields
  | VStr (String c _) => VStr (String c EmptyString)
  | VUint8Array (b :: _) => VNum (num_of_byte b)
  | _ => VUndefined
  end.

Section WithHost.
Context `{Host}.

Local Open Scope result_scope.

(** [String(v)], also the conversion inside template literals and [join].
    For an object the conversion calls its [toString]: the inherited one,
    unless the object has an own property of that name, which is not
    callable; then [valueOf] gives the object back and the conversion throws
    a TypeError. *)
Fixpoint ToString (v : value) : result string :=
  match v with
  | VUndefined => Ok "undefined"
  | VNull => Ok "null"
  | VBool true => Ok "true"
  | VBool false => Ok "false"
  | VNum n => Ok (Number_toString n)
  | VStr s => Ok s
  | VArr items =>
      strings <- all_ok (map (fun x => match x with
                                       | VUndefined | VNull => Ok ""
                                       | _ => ToString x
                                       end) items) ;;
      Ok (String.concat "," strings)
  | VObj fields =>
      if has_own "toString" fields then TypeError else Ok "[object Object]"
  | VArrayBuffer _ => Ok "[object ArrayBuffer]"
  | VUint8Array buffer =>
      Ok (String.concat "," (map (fun b => Number_toString (num_of_byte b)) buffer))
  | VObjectPrototype => Ok "[object Object]"
  | VFunction name => Ok (Function_toString name)
  end.

(** [items.join(sep)] *)
Definition join (sep : string) (items : list value) : result string :=
  strings <- all_ok (map (fun x => match x with
                                   | VUndefined | VNull => Ok ""
                                   | _ => ToString x
                                   end) items) ;;
  Ok (String.concat sep strings).

(** [ToNumber]: an object is converted to a primitive first, which for the
    values here is its string. *)
Definition ToNumber (v : value) : result number :=
  match v with
  | VUndefined => Ok NaN
  | VNull => Ok (Finite 0)
  | VBool true => Ok (Finite 1)
  | VBool false => Ok (Finite 0)
  | VNum n => Ok n
  | VStr s => Ok (StringToNumber s)
  | VArr _ | VObj _ | VArrayBuffer _ | VUint8Array _
  | VObjectPrototype | VFunction _ =>
      s <- ToString v ;; Ok (StringToNumber s)
  end.

(** [v > 0] *)
Definition gt_zero (v : value) : result bool :=
  n <- ToNumber v ;; Ok (num_positive n).

(** [new Uint8Array(items).buffer] *)
Definition Uint8Array_from (items : list value) : result (list byte) :=
  all_ok (map (fun x => n <- ToNumber x ;; Ok (ToUint8 n)) items).

End WithHost.

End JS.

(* ================================================================== *)
(** ** [atob] and the base64 alphabet                                 *)
(* ================================================================== *)

Module Base64.

Import JS.

(** Value of a character of the base64 alphabet. *)
Definition sextet (c : ascii) : option N :=
  let n := code c in
  if ((65 <=? n) && (n <=? 90))%N then Some (n - 65)%N
  else if ((97 <=? n) && (n <=? 122))%N then Some (n - 71)%N
  else if ((48 <=? n) && (n <=? 57))%N then Some (n + 4)%N
  else if (n =? 43)%N then Some 62%N
  else if (n =? 47)%N then Some 63%N
  else None.

(** The character of a sextet (RFC 4648, table 1). *)
Definition digit (n : N) : ascii :=
  if (n <? 26)%N then ascii_of_N (n + 65)
  else if (n <? 52)%N then ascii_of_N (n + 71)
  else if (n <? 62)%N then ascii_of_N (n - 4)
  else if (n =? 62)%N then "+"%char
  else "/"%char.

(** ASCII whitespace, which [atob] removes first. *)
Definition is_ascii_space (c : ascii) : bool :=
  let n := code c in
  ((n =? 9) || (n =? 10) || (n =? 12) || (n =? 13) || (n =? 32))%N.

Definition remove_ascii_space (l : list ascii) : list ascii :=
  filter (fun c => negb (is_ascii_space c)) l.

(** Remove one or two trailing [=]. *)
Fixpoint strip_padding (l : list ascii) : list ascii :=
  match l with
  | [] => []
  | c :: r =>
      match r with
      | [] => if (c =? "=")%char then [] else [c]
      | [c'] => if ((c =? "=") && (c' =? "="))%char then [] else c :: strip_padding r
      | _ => c :: strip_padding r
      end
  end.

Fixpoint sextets (l : list ascii) : option (list N) :=
  match l with
  | [] => Some []
  | c :: r =>
      match sextet c, sextets r with
      | Some n, Some ns => Some (n :: ns)
      | _, _ => None
      end
  end.

(** Four sextets give three bytes; a final group of two or three sextets
    gives one or two bytes, the spare low bits dropped. *)
Fixpoint decode_sextets (l : list N) : list ascii :=
  match l with
  | a :: b :: c :: d :: rest =>
      let n := (a * 262144 + b * 4096 + c * 64 + d)%N in
      ascii_of_N (n / 65536) :: ascii_of_N ((n / 256) mod 256)
        :: ascii_of_N (n mod 256) :: decode_sextets rest
  | [a; b; c] =>
      let n := (a * 4096 + b * 64 + c)%N in
      [ascii_of_N (n / 1024); ascii_of_N ((n / 4) mod 256)]
  | [a; b] => [ascii_of_N ((a * 64 + b) / 16)]
  | _ => []
  end.

(** [atob(data)]: the forgiving base64 decoding of the HTML standard.
    [None] stands for the InvalidCharacterError it throws. *)
Definition atob (data : string) : option string :=
  let l := remove_ascii_space (list_ascii_of_string data) in
  let l := if (List.length l mod 4 =? 0)%nat then strip_padding l else l in
  if (List.length l mod 4 =? 1)%nat then None
  else match sextets l with
       | Some ns => Some (string_of_list_ascii (decode_sextets ns))
       | None => None
       end.

(** The base64 text of a byte sequence (RFC 4648, with padding): what it
    means for a string field to carry the bytes. *)
Fixpoint encode_chars (l : list byte) : list ascii :=
  match l with
  | [] => []
  | [x] =>
      let n := (Byte.to_N x * 16)%N in
      [digit (n / 64); digit (n mod 64); "="%char; "="%char]
  | [x; y] =>
      let n := ((Byte.to_N x * 256 + Byte.to_N y) * 4)%N in
      [digit (n / 4096); digit ((n / 64) mod 64); digit (n mod 64); "="%char]
  | x :: y :: z :: rest =>
      let n := (Byte.to_N x * 65536 + Byte.to_N y * 256 + Byte.to_N z)%N in
      digit (n / 262144) :: digit ((n / 4096) mod 64)
        :: digit ((n / 64) mod 64) :: digit (n mod 64) :: encode_chars rest
  end.

Definition encode (l : list byte) : string :=
  string_of_list_ascii (encode_chars l).

End Base64.

(* ================================================================== *)
(** ** The payload classifier ([src/unnamed/part_002], lines 46-169)   *)
(* ================================================================== *)

Module Classifier.

Import JS.

Inductive Role : Type := user | model.

Definition concatArrayBuffers (buffer1 buffer2 : list byte) : list byte :=
  buffer1 ++ buffer2.

(** [decodeBase64]: [None] is the [null] returned from the catch block. *)
Definition decodeBase64 (value : string) : option (list byte) :=
  match Base64.atob (strip_spaces value) with
  | Some binary => Some (map byte_of_ascii (list_ascii_of_string binary))
  | None => None
  end.

Section WithHost.
Context `{Host}.
Local Open Scope result_scope.

(** [parseSpeaker]: [None] is [null]. *)
Definition parseSpeaker (payload : value) : result (option Role) :=
  let speaker :=
    or_else (getProp payload "speaker")
      (or_else (getProp payload "role")
         (or_else (getProp payload "participant")
            (or_else (getProp (getProp payload "metadata") "speaker")
               (getProp payload "source")))) in
  if negb (truthy speaker) then Ok None
  else
    text <- ToString speaker ;;
    let normalised := toLowerCase text in
    if one_of normalised ["user"; "customer"; "caller"] then Ok (Some user)
    else if one_of normalised ["assistant"; "agent"; "ai"; "model"; "bot"; "system"]
    then Ok (Some model)
    else Ok None.

(** [extractTranscriptText]: the result is a value, since the transcript of
    an alternative is returned whatever its type; [VNull] is [null]. *)
Definition extractTranscriptText (payload : value) : result value :=
  if negb (truthy payload) then Ok VNull
  else if is_string (getProp payload "transcript") then Ok (getProp payload "transcript")
  else if is_string (getProp payload "text") then Ok (getProp payload "text")
  else if is_string (getProp payload "content") then Ok (getProp payload "content")
  else
    let alternative :=
      or_else (getFirst (getProp (getProp payload "channel") "alternatives"))
        (or_else (getFirst (getProp payload "alternatives"))
           (getFirst (getProp (getProp payload "results") "alternatives"))) in
    if truthy (getProp alternative "transcript")
    then Ok (getProp alternative "transcript")
    else
      match getProp payload "words" with
      | VArr words =>
          text <- join " " (filter truthy (map (fun w => getProp w "word") words)) ;;
          Ok (VStr text)
      | _ => Ok VNull
      end.

(** [isFinalTranscript] *)
Definition isFinalTranscript (payload : value) : result bool :=
  if negb (truthy payload) then Ok false
  else if truthy (or_else (getProp payload "is_final") (getProp payload "final"))
  then Ok true
  else if is_str (getProp payload "type") "final_transcript" then Ok true
  else
    let confidence :=
      getProp (getFirst (getProp (getProp payload "channel") "alternatives"))
        "confidence" in
    if truthy confidence then gt_zero confidence
    else Ok false.

(** [extractResponses] *)
Definition extractResponses (payload : value) : list value :=
  if negb (truthy payload) then []
  else
    match getProp payload "responses" with
    | VArr responses => responses
    | _ =>
        match getProp (getProp payload "response") "outputs" with
        | VArr outputs => outputs
        | _ =>
            match getProp payload "output" with
            | VArr output => output
            | _ =>
                match getProp payload "outputs" with
                | VArr outputs => outputs
                | _ =>
                    if truthy (getProp payload "response")
                    then [getProp payload "response"]
                    else []
                end
            end
        end
    end.

(** [textFromResponse]: [None] is [null]. *)
Definition textFromResponse (response : value) : result (option string) :=
  if negb (truthy response) then Ok None
  else
    match getProp response "text" with
    | VStr s => Ok (Some s)
    | _ =>
        match getProp response "content" with
        | VStr s => Ok (Some s)
        | _ =>
            match getProp response "value" with
            | VStr s => Ok (Some s)
            | _ =>
                match getProp response "messages" with
                | VArr messages =>
                    text <- join " "
                              (filter truthy
                                 (map (fun item =>
                                         or_else (getProp item "content")
                                           (getProp item "text")) messages)) ;;
                    Ok (Some text)
                | _ =>
                    match getProp response "texts" with
                    | VArr texts =>
                        text <- join " " (filter truthy texts) ;; Ok (Some text)
                    | _ => Ok None
                    end
                end
            end
        end
    end.

(** The field audio is looked for in:
    [response.audio ?? response.data ?? response.payload?.audio ??
     response.payload?.data ?? response.value]. *)
Definition audioField (response : value) : value :=
  coalesce (getProp response "audio")
    (coalesce (getProp response "data")
       (coalesce (getProp (getProp response "payload") "audio")
          (coalesce (getProp (getProp response "payload") "data")
             (getProp response "value")))).

(** [audioFromResponse]: [None] is [null]. *)
Definition audioFromResponse (response : value) : result (option (list byte)) :=
  if negb (truthy response) then Ok None
  else
    let audio := audioField response in
    if negb (truthy audio) then Ok None
    else
      match audio with
      | VArrayBuffer bytes => Ok (Some bytes)
      | VUint8Array buffer => Ok (Some buffer)
      | VStr s => Ok (decodeBase64 s)
      | VArr items => bytes <- Uint8Array_from items ;; Ok (Some bytes)
      | _ =>
          if is_str (getProp audio "type") "Buffer" then
            match getProp audio "data" with
            | VArr items => bytes <- Uint8Array_from items ;; Ok (Some bytes)
            | _ => Ok None
            end
          else Ok None
      end.

(** [responseIsComplete] *)
Definition responseIsComplete (response : value) : result bool :=
  if negb (truthy response) then Ok false
  else if is_str (getProp response "type") "completed"
          || is_str (getProp response "type") "done" then Ok true
  else if truthy (getProp response "status") then
    status <- ToString (getProp response "status") ;;
    Ok (one_of (toLowerCase status) ["completed"; "complete"; "finished"; "done"])
  else if truthy (getProp response "completion_reason") then Ok true
  else if is_true (getProp response "done") then Ok true
  else Ok false.

End WithHost.

End Classifier.

(* ================================================================== *)
(** ** The conversation aggregator ([src/unnamed/part_002], 196-536)   *)
(* ================================================================== *)

Module Aggregator.

Import JS Classifier.

Definition OUTPUT_SAMPLE_RATE : Z := 24000.

(** [type Speaker = "user" | "user-waiting" | "model" | null]; [null] is [None]. *)
Inductive Speaker : Type := speaker_user | speaker_user_waiting | speaker_model.

(** [type Message].  [content] is declared a string, but the transcript path
    stores whatever [extractTranscriptText] returned. *)
Record Message : Type := mkMessage {
  id : string;
  role : Role;
  content : value;
  audio : option (list byte);
  voice : option string
}.

(** [Partial<Message>] as passed to [updateIncomingMessage]. *)
Inductive Updates : Type :=
| update_content (c : value)
| update_audio (a : list byte).

(** [{ ...message, ...updates }] *)
Definition spread (message : Message) (updates : Updates) : Message :=
  match updates with
  | update_content c =>
      mkMessage (id message) (role message) c (audio message) (voice message)
  | update_audio a =>
      mkMessage (id message) (role message) (content message) (Some a) (voice message)
  end.

(** An [AudioBufferSourceNode] that was started: when, and how many samples. *)
Record AudioSource : Type := mkAudioSource {
  startTime : Q;
  samples : nat
}.

(** The length of a buffer of [n] samples in seconds, [n / sampleRate],
    exactly; [audioBuffer.duration] is the double nearest to it. *)
Definition duration (n : nat) : Q := Z.of_nat n # 24000.

(** The provider's React state and refs.  State updaters are applied in the
    order they are queued, at the call.  [selectedVoice] is the [voice]
    state; [idsDrawn] and [clockReads] count the readings of the id and clock
    sources; [stopped] collects the sources [stop()] was called on. *)
Record State : Type := mkState {
  connection : bool;
  selectedVoice : string;
  currentSpeaker : option Speaker;
  microphoneOpen : bool;
  chatMessages : list Message;
  audioContextRef : bool;
  scheduledAudioSourcesRef : list AudioSource;
  scheduledStartRef : Q;
  incomingMessageRef : option Message;
  idsDrawn : nat;
  clockReads : nat;
  stopped : list AudioSource
}.

Definition initialState (defaultVoice : string) : State :=
  mkState false defaultVoice None false [] false [] 0 None 0 0 [].

Definition setConnection (b : bool) (s : State) : State :=
  mkState b (selectedVoice s) (currentSpeaker s) (microphoneOpen s)
    (chatMessages s) (audioContextRef s) (scheduledAudioSourcesRef s)
    (scheduledStartRef s) (incomingMessageRef s) (idsDrawn s) (clockReads s)
    (stopped s).

Definition setVoice (v : string) (s : State) : State :=
  mkState (connection s) v (currentSpeaker s) (microphoneOpen s)
    (chatMessages s) (audioContextRef s) (scheduledAudioSourcesRef s)
    (scheduledStartRef s) (incomingMessageRef s) (idsDrawn s) (clockReads s)
    (stopped s).

Definition setCurrentSpeaker (sp : option Speaker) (s : State) : State :=
  mkState (connection s) (selectedVoice s) sp (microphoneOpen s)
    (chatMessages s) (audioContextRef s) (scheduledAudioSourcesRef s)
    (scheduledStartRef s) (incomingMessageRef s) (idsDrawn s) (clockReads s)
    (stopped s).

Definition setMicrophoneOpen (b : bool) (s : State) : State :=
  mkState (connection s) (selectedVoice s) (currentSpeaker s) b
    (chatMessages s) (audioContextRef s) (scheduledAudioSourcesRef s)
    (scheduledStartRef s) (incomingMessageRef s) (idsDrawn s) (clockReads s)
    (stopped s).

(** [setChatMessages((prev) => f prev)] *)
Definition setChatMessages (f : list Message -> list Message) (s : State) : State :=
  mkState (connection s) (selectedVoice s) (currentSpeaker s) (microphoneOpen s)
    (f (chatMessages s)) (audioContextRef s) (scheduledAudioSourcesRef s)
    (scheduledStartRef s) (incomingMessageRef s) (idsDrawn s) (clockReads s)
    (stopped s).

Definition setScheduled (l : list AudioSource) (start : Q) (s : State) : State :=
  mkState (connection s) (selectedVoice s) (currentSpeaker s) (microphoneOpen s)
    (chatMessages s) (audioContextRef s) l start (incomingMessageRef s)
    (idsDrawn s) (clockReads s) (stopped s).

Definition setIncoming (m : option Message) (s : State) : State :=
  mkState (connection s) (selectedVoice s) (currentSpeaker s) (microphoneOpen s)
    (chatMessages s) (audioContextRef s) (scheduledAudioSourcesRef s)
    (scheduledStartRef s) m (idsDrawn s) (clockReads s) (stopped s).

Definition drawId (s : State) : State :=
  mkState (connection s) (selectedVoice s) (currentSpeaker s) (microphoneOpen s)
    (chatMessages s) (audioContextRef s) (scheduledAudioSourcesRef s)
    (scheduledStartRef s) (incomingMessageRef s) (S (idsDrawn s)) (clockReads s)
    (stopped s).

Definition readClock (s : State) : State :=
  mkState (connection s) (selectedVoice s) (currentSpeaker s) (microphoneOpen s)
    (chatMessages s) (audioContextRef s) (scheduledAudioSourcesRef s)
    (scheduledStartRef s) (incomingMessageRef s) (idsDrawn s) (S (clockReads s))
    (stopped s).

Definition addStopped (l : list AudioSource) (s : State) : State :=
  mkState (connection s) (selectedVoice s) (currentSpeaker s) (microphoneOpen s)
    (chatMessages s) (audioContextRef s) (scheduledAudioSourcesRef s)
    (scheduledStartRef s) (incomingMessageRef s) (idsDrawn s) (clockReads s)
    (stopped s ++ l).

(** *** Handlers as state transformers that may throw *)

Inductive outcome (A : Type) : Type :=
| Returned (a : A)
| Thrown.
Arguments Returned {A} a.
Arguments Thrown {A}.

(** A handler: the state it leaves is kept also when it throws. *)
Definition M (A : Type) : Type := State -> outcome A * State.

Definition ret {A} (a : A) : M A := fun s => (Returned a, s).

Definition bind {A B} (m : M A) (k : A -> M B) : M B :=
  fun s =>
    match m s with
    | (Returned a, s') => k a s'
    | (Thrown, s') => (Thrown, s')
    end.

Definition throw {A} : M A := fun s => (Thrown, s).

(** A state change that returns nothing. *)
Definition modify (f : State -> State) : M unit := fun s => (Returned tt, f s).

Definition gets {A} (f : State -> A) : M A := fun s => (Returned (f s), s).

(** [try { m } catch { }] *)
Definition try_catch (m : M unit) : M unit :=
  fun s => (Returned tt, snd (m s)).

Declare Scope handler_scope.
Delimit Scope handler_scope with handler.
Notation "x <- m ;; k" := (bind m (fun x => k))
  (at level 61, m at next level, right associativity) : handler_scope.
Notation "m ;; k" := (bind m (fun _ => k))
  (at level 61, right associativity) : handler_scope.
Local Open Scope handler_scope.

(** [list.forEach(f)] *)
Fixpoint forEach {A} (f : A -> M unit) (l : list A) : M unit :=
  match l with
  | [] => ret tt
  | x :: rest => f x ;; forEach f rest
  end.

Definition exec {A} (m : M A) (s : State) : State := snd (m s).

(** An expression that may throw, evaluated inside a handler. *)
Definition lift {A} (r : result A) : M A :=
  fun s =>
    match r with
    | Ok a => (Returned a, s)
    | TypeError => (Thrown, s)
    end.

Section WithHost.
Context `{Host}.

(** [ensureIncomingMessage] (lines 221-235) *)
Definition ensureIncomingMessage : M Message :=
  current <- gets incomingMessageRef ;;
  match current with
  | Some message => ret message
  | None =>
      n <- gets idsDrawn ;;
      v <- gets selectedVoice ;;
      let message := mkMessage (gen_id n) model (VStr "") None (Some v) in
      modify drawId ;;
      modify (setIncoming (Some message)) ;;
      modify (setChatMessages (fun prev => prev ++ [message])) ;;
      ret message
  end.

(** [updateIncomingMessage] (lines 237-252) *)
Definition updateIncomingMessage (updates : Updates) : M unit :=
  current <- gets incomingMessageRef ;;
  match current with
  | None => _ <- ensureIncomingMessage ;; ret tt
  | Some _ => ret tt
  end ;;
  current <- gets incomingMessageRef ;;
  match current with
  | None => ret tt
  | Some incoming =>
      let updated := spread incoming updates in
      modify (setIncoming (Some updated)) ;;
      modify (setChatMessages
                (map (fun item => if id item =? id updated then updated else item)))
  end.

(** [finalizeIncomingMessage] (lines 254-265).  The updater reads
    [incomingMessageRef.current] when React runs it; here it runs at the
    call, before the reference is cleared. *)
Definition finalizeIncomingMessage : M unit :=
  current <- gets incomingMessageRef ;;
  match current with
  | None => ret tt
  | Some incoming =>
      modify (setChatMessages
                (map (fun item => if id item =? id incoming then incoming else item))) ;;
      modify (setIncoming None) ;;
      modify (setCurrentSpeaker (Some speaker_user_waiting))
  end.

(** [clearScheduledAudio] (lines 267-278) *)
Definition clearScheduledAudio : M unit :=
  sources <- gets scheduledAudioSourcesRef ;;
  modify (addStopped sources) ;;
  modify (setScheduled [] 0).

(** [playAudio] (lines 280-315).  [new Int16Array(audioData)] throws a
    RangeError when the byte length is odd. *)
Definition playAudio (audioData : list byte) : M unit :=
  ctx <- gets audioContextRef ;;
  if negb ctx then ret tt
  else if Nat.odd (List.length audioData) then throw
  else
    let n := Nat.div2 (List.length audioData) in
    if (n =? 0)%nat then ret tt
    else
      k <- gets clockReads ;;
      modify readClock ;;
      start <- gets scheduledStartRef ;;
      let startTime := if Qle_bool (currentTime k) start then start else currentTime k in
      sources <- gets scheduledAudioSourcesRef ;;
      modify (setScheduled (sources ++ [mkAudioSource startTime n])
                (round_to_double
                   (Qplus startTime (round_to_double (duration n))))).

(** The model branch of [handleTranscriptMessage] (lines 378-385). *)
Definition appendTranscriptText (text : value) : M unit :=
  _ <- ensureIncomingMessage ;;
  current <- gets incomingMessageRef ;;
  let existing :=
    match current with
    | Some incoming => coalesce (content incoming) (VStr "")
    | None => VStr ""
    end in
  combined <- lift (if truthy existing
                    then and_then (ToString existing) (fun before =>
                         and_then (ToString text) (fun after =>
                         Ok (VStr (trim (collapse_spaces (before ++ " " ++ after))))))
                    else Ok text) ;;
  updateIncomingMessage (update_content combined).

(** [handleTranscriptMessage] (lines 357-389) *)
Definition handleTranscriptMessage (payload : value) : M unit :=
  text <- lift (extractTranscriptText payload) ;;
  if negb (truthy text) then ret tt
  else
    parsed <- lift (parseSpeaker payload) ;;
    let speaker := match parsed with Some r => r | None => user end in
    isFinal <- lift (isFinalTranscript payload) ;;
    match speaker with
    | user =>
        if isFinal then
          modify (setCurrentSpeaker (Some speaker_user)) ;;
          clearScheduledAudio ;;
          modify (setIncoming None) ;;
          n <- gets idsDrawn ;;
          modify drawId ;;
          modify (setChatMessages
                    (fun prev => prev ++ [mkMessage (gen_id n) user text None None]))
        else ret tt
    | model => appendTranscriptText text
    end.

(** The text block of [handleAgentResponse] (lines 406-411). *)
Definition appendResponseText (text : string) : M unit :=
  modify (setCurrentSpeaker (Some speaker_model)) ;;
  _ <- ensureIncomingMessage ;;
  current <- gets incomingMessageRef ;;
  let existing :=
    match current with
    | Some incoming => content incoming
    | None => VUndefined
    end in
  combined <- lift (if truthy existing
                    then and_then (ToString existing) (fun before =>
                         Ok (VStr (trim (before ++ " " ++ text))))
                    else Ok (VStr text)) ;;
  updateIncomingMessage (update_content combined).

(** The audio block of [handleAgentResponse] (lines 417-426), which is also
    [processAudio] of [handleUpstreamMessage] (lines 488-499). *)
Definition processAudio (audioBuffer : list byte) : M unit :=
  modify (setCurrentSpeaker (Some speaker_model)) ;;
  _ <- ensureIncomingMessage ;;
  current <- gets incomingMessageRef ;;
  let combinedAudio :=
    match current with
    | Some incoming =>
        match audio incoming with
        | Some a => concatArrayBuffers a audioBuffer
        | None => audioBuffer
        end
    | None => audioBuffer
    end in
  updateIncomingMessage (update_audio combinedAudio) ;;
  playAudio audioBuffer.

(** The callback given to [responses.forEach] (lines 396-432). *)
Definition handleResponse (response : value) : M unit :=
  if negb (truthy response) then ret tt
  else
    typeText <- lift (ToString (coalesce (getProp response "type")
                                  (coalesce (getProp response "kind") (VStr "")))) ;;
    let responseType := toLowerCase typeText in
    (if includes "text" responseType || (responseType =? "message") then
       found <- lift (textFromResponse response) ;;
       match found with
       | Some text => if negb (text =? "") then appendResponseText text else ret tt
       | None => ret tt
       end
     else ret tt) ;;
    audioBuffer <- lift (audioFromResponse response) ;;
    match audioBuffer with
    | Some bytes => processAudio bytes
    | None => ret tt
    end ;;
    complete <- lift (responseIsComplete response) ;;
    if complete then finalizeIncomingMessage else ret tt.

(** [handleAgentResponse] (lines 391-444) *)
Definition handleAgentResponse (payload : value) : M unit :=
  let responses := extractResponses payload in
  match responses with
  | [] => ret tt
  | _ =>
      forEach handleResponse responses ;;
      complete <- lift (responseIsComplete payload) ;;
      if complete then finalizeIncomingMessage else ret tt
  end.

(** [event.data] of a message event. *)
Inductive EventData : Type :=
| DataString (s : string)
| DataArrayBuffer (b : list byte)
| DataBlob (b : list byte).

(** The body of the [try] block of [handleUpstreamMessage] (lines 450-481).
    [JSON.parse] throws on malformed text, [toLowerCase] is not a function of
    a [type] that is no string, and [payload.data] throws on [null]. *)
Definition dispatchPayload (data : string) : M unit :=
  match JSON_parse data with
  | None => throw
  | Some payload =>
      match coalesce (getProp payload "type") (VStr "") with
      | VStr type =>
          let t := toLowerCase type in
          if (t =? "welcome") || (t =? "session.created") || (t =? "session-updated")
          then modify (setConnection true)
          else if t =? "transcript" then handleTranscriptMessage payload
          else if t =? "agent-response" then handleAgentResponse payload
          else if (t =? "error") || (t =? "warning") then ret tt
          else if (t =? "close") || (t =? "close_stream") then finalizeIncomingMessage
          else if nullish payload then throw
          else if is_str (getProp (getProp payload "data") "type") "transcript"
          then handleTranscriptMessage (getProp payload "data")
          else if is_str (getProp (getProp payload "data") "type") "agent-response"
          then handleAgentResponse (getProp payload "data")
          else ret tt
      | _ => throw
      end
  end.

(** [handleUpstreamMessage] (lines 446-520).  A Blob is decoded
    asynchronously; its [processAudio] runs as a later event. *)
Definition handleUpstreamMessage (data : EventData) : M unit :=
  match data with
  | DataString s => try_catch (dispatchPayload s)
  | DataArrayBuffer b => processAudio b
  | DataBlob _ => ret tt
  end.

(** [handleSocketClose] (lines 522-528) *)
Definition handleSocketClose : M unit :=
  modify (setConnection false) ;;
  modify (setMicrophoneOpen false) ;;
  modify (setCurrentSpeaker None) ;;
  modify (setIncoming None) ;;
  clearScheduledAudio.

(** [handleSocketError] (lines 530-536) *)
Definition handleSocketError : M unit := handleSocketClose.

(** [updateVoice] (lines 642-646) *)
Definition updateVoice (newVoice : string) : M unit :=
  v <- gets selectedVoice ;;
  if newVoice =? v then ret tt
  else modify (setVoice newVoice) ;; modify (setIncoming None).

(** *** The events of one [agent-response] payload

    What the callback of [forEach] does for one sub-object, and what
    [handleAgentResponse] does for a payload, as the sequence of updates
    they make.  [Abort] is the place where a conversion throws: nothing
    listed after it is done. *)
Inductive Action : Type :=
| TextDelta (text : string)
| AudioDelta (bytes : list byte)
| TurnComplete
| Abort.

Definition perform (a : Action) : M unit :=
  match a with
  | TextDelta text => appendResponseText text
  | AudioDelta bytes => processAudio bytes
  | TurnComplete => finalizeIncomingMessage
  | Abort => throw
  end.

Definition textActions (response : value) : list Action :=
  match ToString (coalesce (getProp response "type")
                    (coalesce (getProp response "kind") (VStr ""))) with
  | TypeError => [Abort]
  | Ok typeText =>
      let responseType := toLowerCase typeText in
      if includes "text" responseType || (responseType =? "message") then
        match textFromResponse response with
        | TypeError => [Abort]
        | Ok (Some text) => if negb (text =? "") then [TextDelta text] else []
        | Ok None => []
        end
      else []
  end.

Definition audioActions (response : value) : list Action :=
  match audioFromResponse response with
  | TypeError => [Abort]
  | Ok (Some audioBuffer) => [AudioDelta audioBuffer]
  | Ok None => []
  end.

Definition completionActions (response : value) : list Action :=
  match responseIsComplete response with
  | TypeError => [Abort]
  | Ok true => [TurnComplete]
  | Ok false => []
  end.

Definition responseActions (response : value) : list Action :=
  if negb (truthy response) then []
  else textActions response ++ audioActions response ++ completionActions response.

Definition agentResponseActions (payload : value) : list Action :=
  match extractResponses payload with
  | [] => []
  | responses => flat_map responseActions responses ++ completionActions payload
  end.

End WithHost.

End Aggregator.

(* ================================================================== *)
(** ** The bridge route ([src/app/api/agent/route.ts])                 *)
(* ================================================================== *)

Module Route.

Import JS.

Definition DEEPGRAM_AGENT_URL : string := "wss://agent.deepgram.com/v1/listen".

(** [BYO_DEFAULT_MODELS] (lines 7-10), by its own keys. *)
Definition BYO_DEFAULT_MODELS : list (string * string) :=
  [("openai", "gpt-4o-mini"); ("claude", "claude-3-haiku-20240307")].

Fixpoint table_get (k : string) (t : list (string * string)) : option string :=
  match t with
  | [] => None
  | (k', v) :: rest => if k' =? k then Some v else table_get k rest
  end.

(** The functions a plain object inherits from [Object.prototype], by the
    name of the property. *)
Definition inherited_functions : list string :=
  ["hasOwnProperty"; "isPrototypeOf"; "propertyIsEnumerable"; "toLocaleString";
   "toString"; "valueOf"; "__defineGetter__"; "__defineSetter__";
   "__lookupGetter__"; "__lookupSetter__"].

(** [o[k]] for a plain object without an own property [k]: what it
    inherits. *)
Definition inherited (k : string) : value :=
  if k =? "__proto__" then VObjectPrototype
  else if k =? "constructor" then VFunction "Object"
  else if one_of k inherited_functions then VFunction k
  else VUndefined.

(** [BYO_DEFAULT_MODELS[k]]: the table is a plain object, indexed by a
    string. *)
Definition default_model (k : string) : value :=
  match table_get k BYO_DEFAULT_MODELS with
  | Some m => VStr m
  | None => inherited k
  end.

Inductive ReadyState : Type := CONNECTING | OPEN | CLOSING | CLOSED.

(** [config] of [src/unnamed/part_000]: four environment variables, each a
    string or [undefined]. *)
Module config.
Record t : Type := make {
  deepGramApiKey : option string;
  llmProvider : option string;
  llmApiKey : option string;
  llmModel : option string
}.
End config.

(** Truthiness of [string | undefined]. *)
Definition present (o : option string) : bool :=
  match o with
  | Some s => negb (s =? "")
  | None => false
  end.

Record Request : Type := mkRequest {
  url : string;
  headers : list (string * string)
}.

(** [headers.get(name)]: names compare without case; the values of a
    repeated header are joined by a comma and a space. *)
Definition headers_get (name : string) (h : list (string * string)) : option string :=
  match filter (fun kv => toLowerCase (fst kv) =? toLowerCase name) h with
  | [] => None
  | found => Some (String.concat ", " (map snd found))
  end.

Record Response : Type := mkResponse {
  status : Z;
  body : value;
  webSocket : bool
}.

(** [NextResponse.json({ error }, { status })] *)
Definition json_error (message : string) (code : Z) : Response :=
  mkResponse code (VObj [("error", VStr message)]) false.

(** Sockets the handler creates. *)
Inductive Effect : Type :=
| NewWebSocketPair
| NewWebSocket (url : string) (protocols : list string)
| AcceptClient.

(** Where [WebSocketPair] comes from (lines 102-114). *)
Inductive Platform : Type :=
| pair_is_global
| pair_from_node_stream
| import_fails
| import_lacks_pair.

Inductive Outcome : Type :=
| Responded (r : Response)
| Rejected.

(** The external-model settings the handler derives (lines 44-49). *)
Section Settings.
Variable cfg : config.t.

Definition llmProvider : option string :=
  option_map toLowerCase (config.llmProvider cfg).

Definition llmApiKey : option string := config.llmApiKey cfg.

Definition str_or_undefined (o : option string) : value :=
  match o with
  | Some s => VStr s
  | None => VUndefined
  end.

(** [config.llmModel || (llmProvider ? BYO_DEFAULT_MODELS[llmProvider] : undefined)] *)
Definition llmModel : value :=
  or_else (str_or_undefined (config.llmModel cfg))
    (match llmProvider with
     | Some p => if negb (p =? "") then default_model p else VUndefined
     | None => VUndefined
     end).

Definition shouldInjectExternalLlm : bool :=
  present llmProvider && present llmApiKey.

(** [thinkConfig] (lines 75-84) *)
Definition thinkConfig : value :=
  VObj [("provider",
          VObj (("type", str_or_undefined llmProvider)
                :: (if truthy llmModel then [("model", llmModel)] else [])));
        ("auth",
          VObj [("type", VStr "api_key"); ("value", str_or_undefined llmApiKey)])].

End Settings.

(** [o.k = v] on the own properties of an object. *)
Fixpoint assign (k : string) (v : value) (fields : list (string * value))
  : list (string * value) :=
  match fields with
  | [] => [(k, v)]
  | (k', v') :: rest =>
      if k' =? k then (k, v) :: rest else (k', v') :: assign k v rest
  end.

Definition setProp (o : value) (k : string) (v : value) : value :=
  match o with
  | VObj fields => VObj (assign k v fields)
  | _ => o
  end.

Definition index_key (i : nat) : string :=
  NilEmpty.string_of_uint (Nat.to_uint i).

Fixpoint indexed {A} (f : A -> value) (i : nat) (l : list A) : list (string * value) :=
  match l with
  | [] => []
  | x :: rest => (index_key i, f x) :: indexed f (S i) rest
  end.

(** The own enumerable properties copied by [{ ...v }]. *)
Definition own_properties (v : value) : list (string * value) :=
  match v with
  | VObj fields => fields
  | VArr items => indexed (fun x => x) 0 items
  | VStr s => indexed (fun c => VStr (String c EmptyString)) 0 (list_ascii_of_string s)
  | VUint8Array buffer => indexed (fun b => VNum (num_of_byte b)) 0 buffer
  | _ => []
  end.

(** [request.headers.get("upgrade")?.toLowerCase() === "websocket"] *)
Definition isWebSocketUpgrade (request : Request) : bool :=
  match headers_get "upgrade" (headers request) with
  | Some u => toLowerCase u =? "websocket"
  | None => false
  end.

Section WithHost.
Context `{Host}.
Variable cfg : config.t.

(** The message after [parsed.agent = { ...agent, instructions, think }]
    (lines 73-90). *)
Definition withThink (parsed : value) : value :=
  let agent := coalesce (getProp parsed "agent") (VObj []) in
  let existingInstructions := getProp agent "instructions" in
  setProp parsed "agent"
    (VObj (assign "think" (thinkConfig cfg)
             (assign "instructions" existingInstructions (own_properties agent)))).

(** [injectExternalThinkSettings] (lines 62-97); [None] is [null].  The
    [catch] block covers the SyntaxError of [JSON.parse] and the TypeError of
    calling [toLowerCase] on a [type] that is no string. *)
Definition injectExternalThinkSettings (message : string) : option string :=
  if negb (shouldInjectExternalLlm cfg) then None
  else
    match JSON_parse message with
    | None => None
    | Some parsed =>
        match coalesce (getProp parsed "type") (VStr "") with
        | VStr type =>
            if negb (toLowerCase type =? "agent-request") then None
            else Some (JSON_stringify (withThink parsed))
        | _ => None
        end
    end.

(** [event.data] of a client message. *)
Inductive Frame : Type :=
| Text (s : string)
| Binary (b : list byte).

(** What a listener does to the sockets. *)
Inductive BridgeEffect : Type :=
| SendUpstream (f : Frame)
| CloseClient (code : Z) (reason : string).

(** The client message listener (lines 192-223), given the ready state of
    the upstream socket. *)
Definition onClientMessage (upstreamState : ReadyState) (data : Frame)
  : list BridgeEffect :=
  match upstreamState with
  | OPEN =>
      match data with
      | Text s =>
          if shouldInjectExternalLlm cfg then
            match injectExternalThinkSettings s with
            | Some mutated =>
                if negb (mutated =? "") then [SendUpstream (Text mutated)]
                else [SendUpstream data]
            | None => [SendUpstream data]
            end
          else [SendUpstream data]
      | Binary _ => [SendUpstream data]
      end
  | _ => []
  end.

(** [GET] (lines 19-246): the response and the sockets created on the way.
    Log lines are left out. *)
Definition GET (platform : Platform) (request : Request) : Outcome * list Effect :=
  if negb (present (config.deepGramApiKey cfg)) then
    (Responded (json_error "Deepgram API key is not configured." 500), [])
  else if negb (isWebSocketUpgrade request) then
    (Responded (json_error "Expected a WebSocket upgrade request." 400), [])
  else
    match platform with
    | import_fails =>
        (Responded (json_error "WebSocketPair is not supported in this environment." 500), [])
    | import_lacks_pair => (Rejected, [])
    | pair_is_global | pair_from_node_stream =>
        (Responded (mkResponse 101 VNull true),
         [NewWebSocketPair;
          NewWebSocket DEEPGRAM_AGENT_URL
            ["bearer"; match config.deepGramApiKey cfg with Some k => k | None => "" end];
          AcceptClient])
    end.

End WithHost.

End Route.

(* ================================================================== *)
(** ** Vocabulary of the properties                                    *)
(* ================================================================== *)

Module Spec.

Import JS Classifier Aggregator.

(** [payload.channel?.alternatives?.[0]?.confidence] *)
Definition confidenceOf (payload : value) : value :=
  getProp (getFirst (getProp (getProp payload "channel") "alternatives")) "confidence".

Definition completed_statuses : list string :=
  ["completed"; "complete"; "finished"; "done"].

Definition user_aliases : list string := ["user"; "customer"; "caller"].

Definition model_aliases : list string :=
  ["assistant"; "agent"; "ai"; "model"; "bot"; "system"].

(** The ways a field of a response carries a byte sequence. *)
Inductive Encoding : Type :=
| raw_buffer
| raw_view
| base64_text
| number_array
| wrapped_buffer.

Definition number_items (bytes : list byte) : list value :=
  map (fun b => VNum (num_of_byte b)) bytes.

Definition carried (e : Encoding) (bytes : list byte) : value :=
  match e with
  | raw_buffer => VArrayBuffer bytes
  | raw_view => VUint8Array bytes
  | base64_text => VStr (Base64.encode bytes)
  | number_array => VArr (number_items bytes)
  | wrapped_buffer => VObj [("type", VStr "Buffer"); ("data", VArr (number_items bytes))]
  end.

(** Whitespace normalisation as the transcript path applies it:
    [s.replace(/\s+/g, " ").trim()]. *)
Definition normalize (s : string) : string := trim (collapse_spaces s).

(** The texts joined with a single space. *)
Definition joined (texts : list string) : string := String.concat " " texts.

(** The maximal runs of characters that are no white space. *)
Fixpoint tokens (s : string) : list string :=
  match s with
  | EmptyString => []
  | String c r =>
      if is_space c then tokens r
      else
        match r with
        | EmptyString => [String c EmptyString]
        | String c' _ =>
            if is_space c' then String c EmptyString :: tokens r
            else
              match tokens r with
              | w :: ws => String c w :: ws
              | [] => [String c EmptyString]
              end
        end
  end.

(** A text with nothing but white space. *)
Fixpoint blank (s : string) : bool :=
  match s with
  | EmptyString => true
  | String c r => is_space c && blank r
  end.

(** A token has no white space, so it is its own only token. *)
Definition word (w : string) : Prop := tokens w = [w].

(** A character of a base64 text: a digit of the alphabet or the padding. *)
Definition encoded_char (c : ascii) : Prop :=
  (exists n, (n < 64)%N /\ c = Base64.digit n) \/ c = "="%char.

(** The content of the open message. *)
Definition openContent (st : State) : option value :=
  option_map content (incomingMessageRef st).

(** The content [c] the next text is appended to: that of the open message,
    or the empty content of the message about to be opened. *)
Definition appending_to (st : State) (c : string) : Prop :=
  match incomingMessageRef st with
  | Some m => content m = VStr c
  | None => c = ""
  end.

(** A message is open and its content is the string [c]. *)
Definition open_with (st : State) (c : string) : Prop :=
  exists m, incomingMessageRef st = Some m /\ content m = VStr c.

(** What one more text makes of the content [c] of the open message, on the
    transcript path (lines 379-382) and on the response path (line 410);
    the empty content is that of a message just opened. *)
Definition transcriptStep (c t : string) : string :=
  if c =? "" then t else normalize (c ++ " " ++ t).

Definition responseStep (c t : string) : string :=
  if c =? "" then t else trim (c ++ " " ++ t).

(** The messages of the conversation that are not the open one. *)
Definition settled (st : State) : list Message :=
  match incomingMessageRef st with
  | Some _ => removelast (chatMessages st)
  | None => chatMessages st
  end.

(** Between two states, the settled messages stay as they are and in place;
    more may follow them. *)
Definition keeps_settled (st st' : State) : Prop :=
  exists more, settled st' = settled st ++ more.

Section WithHost.
Context `{Host}.

(** The aggregator invariant: the open message, when there is one, is a
    model message and the last of the conversation; the identifiers of the
    conversation are distinct and were drawn from the id source. *)
Definition well_formed (st : State) : Prop :=
  NoDup (map id (chatMessages st))
  /\ (forall m, In m (chatMessages st) ->
        exists i, (i < idsDrawn st)%nat /\ id m = gen_id i)
  /\ match incomingMessageRef st with
     | Some m => role m = model /\ exists earlier, chatMessages st = earlier ++ [m]
     | None => True
     end.

(** A handler keeps the invariant and the settled messages, whether it
    returns or throws. *)
Definition preserves {A} (m : M A) : Prop :=
  forall st, well_formed st ->
    well_formed (snd (m st)) /\ keeps_settled st (snd (m st)).

(** A transcript payload of the model with the text [t]: the classifier
    reads the text, the speaker and a finality flag without throwing. *)
Definition modelTranscript (payload : value) (t : string) : Prop :=
  extractTranscriptText payload = Ok (VStr t)
  /\ t <> ""
  /\ parseSpeaker payload = Ok (Some model)
  /\ exists final, isFinalTranscript payload = Ok final.

(** A response sub-object that carries the text [t] and nothing else. *)
Definition textResponse (response : value) (t : string) : Prop :=
  truthy response = true
  /\ textActions response = [TextDelta t]
  /\ audioFromResponse response = Ok None
  /\ responseIsComplete response = Ok false.

(** The data events of a sub-object: its text, then its audio. *)
Definition deltaActions (response : value) : list Action :=
  if negb (truthy response) then []
  else textActions response ++ audioActions response.

Definition is_delta (a : Action) : Prop :=
  match a with
  | TextDelta _ | AudioDelta _ => True
  | TurnComplete | Abort => False
  end.

(** The operations of the aggregator that handle an event. *)
Inductive Operation : Type :=
| ensure_incoming
| update_incoming (updates : Updates)
| finalize_incoming
| transcript_message (payload : value)
| agent_response (payload : value)
| upstream_message (data : EventData)
| socket_close
| socket_error
| update_voice (newVoice : string).

Definition run (op : Operation) : M unit :=
  match op with
  | ensure_incoming => bind ensureIncomingMessage (fun _ => ret tt)
  | update_incoming updates => updateIncomingMessage updates
  | finalize_incoming => finalizeIncomingMessage
  | transcript_message payload => handleTranscriptMessage payload
  | agent_response payload => handleAgentResponse payload
  | upstream_message data => handleUpstreamMessage data
  | socket_close => handleSocketClose
  | socket_error => handleSocketError
  | update_voice newVoice => updateVoice newVoice
  end.

(** The states the provider goes through, from its mount on. *)
Inductive reachable : State -> Prop :=
| reachable_start (defaultVoice : string) : reachable (initialState defaultVoice)
| reachable_step (op : Operation) (st : State) :
    reachable st -> reachable (exec (run op) st).

End WithHost.

End Spec.

(** Hosts to run the definitions on concrete inputs. *)
Module Examples.

Import JS Classifier Aggregator.

Fixpoint tally (n : nat) : string :=
  match n with
  | O => "m"
  | S k => String "i"%char (tally k)
  end.

(** Prints integers in decimal, and knows no numeric string; its doubles
    are exact. *)
Definition host_with (parse : string -> option value) (clock : nat -> Q) : Host :=
  {| Number_toString :=
       fun n => match n with
                | NaN => "NaN"
                | Infinity false => "Infinity"
                | Infinity true => "-Infinity"
                | Finite q => NilZero.string_of_int (Z.to_int (Qnum q / Zpos (Qden q)))
                end;
     StringToNumber := fun _ => NaN;
     JSON_parse := parse;
     JSON_stringify := fun _ => "{}";
     gen_id := tally;
     currentTime := clock;
     round_to_double := fun q => q;
     Function_toString :=
       fun name => ("function " ++ name ++ "() { [native code] }")%string |}.

Definition plain_host : Host := host_with (fun _ => None) (fun _ => 0%Q).

(** Two client messages, as the text on the wire and as [JSON.parse] reads
    them: the agent request of [buildAgentRequestPayload], and the
    [CloseStream] message of [stopStreaming]. *)
Definition agent_request_text : string :=
  "{type:Agent-Request,agent:{model:aura-asteria-en,instructions:Be brief.},audio:{format:linear16}}".

Definition agent_request : value :=
  VObj [("type", VStr "Agent-Request");
        ("agent", VObj [("model", VStr "aura-asteria-en");
                        ("instructions", VStr "Be brief.")]);
        ("audio", VObj [("format", VStr "linear16")])].

Definition close_stream_text : string := "{type:CloseStream}".

Definition close_stream : value := VObj [("type", VStr "CloseStream")].

Definition parse_client (s : string) : option value :=
  if s =? agent_request_text then Some agent_request
  else if s =? close_stream_text then Some close_stream
  else None.

Definition server_host : Host := host_with parse_client (fun _ => 0%Q).

Definition byo_config : Route.config.t :=
  Route.config.make (Some "dg-secret") (Some "OpenAI") (Some "sk-k") None.

Definition plain_config : Route.config.t :=
  Route.config.make (Some "dg-secret") None None None.

(** Upstream payloads, as [JSON.parse] reads them. *)
Definition user_hello : value :=
  VObj [("type", VStr "transcript"); ("transcript", VStr "hello");
        ("speaker", VStr "user"); ("is_final", VBool true)].

Definition said (t : string) : value :=
  VObj [("type", VStr "transcript"); ("speaker", VStr "agent"); ("transcript", VStr t)].

Definition text_response (t : string) : value :=
  VObj [("type", VStr "text"); ("text", VStr t)].

Definition text_then_audio : value :=
  VObj [("type", VStr "agent-response");
        ("responses", VArr [text_response "Hi";
                            VObj [("type", VStr "audio"); ("audio", VStr "SGk=")]]);
        ("status", VStr "completed")].

Definition done_then_text : value :=
  VObj [("type", VStr "agent-response");
        ("responses",
         VArr [VObj [("type", VStr "text"); ("text", VStr "a"); ("done", VBool true)];
               text_response "b"])].

Definition says_hi : value :=
  VObj [("type", VStr "agent-response"); ("response", text_response "Hi")].

Definition says_there_and_ends : value :=
  VObj [("type", VStr "agent-response"); ("response", text_response "there");
        ("status", VStr "completed")].

Definition completed_without_responses : value :=
  VObj [("type", VStr "agent-response"); ("status", VStr "completed")].

(** The provider as mounted, and while the model is speaking. *)
Definition start : State := initialState "aura-asteria-en".

Definition greeting : Message :=
  mkMessage (tally 0) model (VStr "Hi") None (Some "aura-asteria-en").

Definition talking : State :=
  mkState true "aura-asteria-en" (Some speaker_model) true [greeting] true
    [mkAudioSource 0 2400] (1 # 10) (Some greeting) 1 1 [].

End Examples.

(* ================================================================== *)
(** ** Audio samples ([src/unnamed/part_002], 285-298, 320-335, 586-592) *)
(* ================================================================== *)

Module Samples.

Import JS.

(** [Math.min(a, b)] *)
Definition Math_min (a b : number) : number :=
  match a, b with
  | NaN, _ | _, NaN => NaN
  | Infinity true, _ | _, Infinity true => Infinity true
  | Infinity false, x | x, Infinity false => x
  | Finite p, Finite q => if Qle_bool p q then Finite p else Finite q
  end.

(** [Math.max(a, b)] *)
Definition Math_max (a b : number) : number :=
  match a, b with
  | NaN, _ | _, NaN => NaN
  | Infinity false, _ | _, Infinity false => Infinity false
  | Infinity true, x | x, Infinity true => x
  | Finite p, Finite q => if Qle_bool p q then Finite q else Finite p
  end.

(** [n < 0] *)
Definition num_negative (n : number) : bool :=
  match n with
  | NaN => false
  | Infinity negative => negative
  | Finite q => (Qnum q <? 0)%Z
  end.

(** [n * k] for a positive integer literal [k]. *)
Definition times (n : number) (k : positive) : number :=
  match n with
  | Finite q => Finite (Qmult q (inject_Z (Zpos k)))
  | other => other
  end.

(** The integral part of a rational, towards zero. *)
Definition truncate (q : Q) : Z := Z.quot (Qnum q) (Zpos (Qden q)).

(** [ToInt16], the conversion of a store into an [Int16Array]. *)
Definition ToInt16 (n : number) : Z :=
  match n with
  | Finite q => ((truncate q + 32768) mod 65536 - 32768)%Z
  | _ => 0%Z
  end.

(** One sample of the microphone as stored in [pcmData] (lines 590-591). *)
Definition pcmSample (input : number) : Z :=
  let s := Math_max (Finite (-1)) (Math_min (Finite 1) input) in
  ToInt16 (if num_negative s then times s 32768 else times s 32767).

(** A signed 16-bit sample from its two bytes, the low byte first (the
    byte order of the platforms the client runs on). *)
Definition int16 (low high : byte) : Z :=
  let u := Z.of_N (Byte.to_N low + 256 * Byte.to_N high) in
  if (u <? 32768)%Z then u else (u - 65536)%Z.

Fixpoint int16_pairs (buffer : list byte) : list Z :=
  match buffer with
  | low :: high :: rest => int16 low high :: int16_pairs rest
  | _ => []
  end.

(** [new Int16Array(audioData)]; [None] is the RangeError thrown for a
    byte length that is odd. *)
Definition Int16Array_of (audioData : list byte) : option (list Z) :=
  if Nat.odd (List.length audioData) then None else Some (int16_pairs audioData).

(** The channel data filled from the samples: [audioDataView[i] / 32768]
    (lines 296-298 and 333-335). *)
Definition channelData (audioDataView : list Z) : list Q :=
  map (fun v => Qmake v 32768) audioDataView.

(** What [replayAudio] (lines 317-355) does with the audio of a message. *)
Inductive Replay : Type :=
| replay_throws                     (** [new Int16Array] throws; the new context stays open *)
| replay_nothing                    (** no sample: the new context is closed at once *)
| replay_plays (channel : list Q).  (** a source with these samples is started *)

Definition replayAudio (audioData : list byte) : Replay :=
  match Int16Array_of audioData with
  | None => replay_throws
  | Some [] => replay_nothing
  | Some view => replay_plays (channelData view)
  end.

End Samples.

(* ================================================================== *)
(** ** Capture and session of the provider ([src/unnamed/part_002])    *)
(* ================================================================== *)

Module Session.

Import JS Classifier Aggregator.

(** [ReadyState] of react-use-websocket. *)
Inductive SocketState : Type :=
| socket_uninstantiated
| socket_connecting
| socket_open
| socket_closing
| socket_closed.

(** A capture node held in a ref: whether it is still connected, and for
    the processor whether [onaudioprocess] is set. *)
Record Node : Type := mkNode {
  connected : bool;
  listening : bool
}.

(** The refs of the capture chain; [streamRef] says whether a stream is
    held. *)
Record Capture : Type := mkCapture {
  processorRef : option Node;
  microphoneRef : option Node;
  streamRef : bool
}.

Definition noCapture : Capture := mkCapture None None false.

(** What leaves the provider. *)
Inductive Output : Type :=
| SendText (text : string)
| SendSamples (pcmData : list Z)
| CloseAudioContext
| StopTracks.

Definition setAudioContext (b : bool) (s : State) : State :=
  mkState (connection s) (selectedVoice s) (currentSpeaker s) (microphoneOpen s)
    (chatMessages s) b (scheduledAudioSourcesRef s) (scheduledStartRef s)
    (incomingMessageRef s) (idsDrawn s) (clockReads s) (stopped s).

(** [processor.onaudioprocess] (lines 586-596), with the [readyState] the
    callback has captured. *)
Definition onaudioprocess (readyState : SocketState) (inputData : list number)
  : list Output :=
  let pcmData := map Samples.pcmSample inputData in
  match readyState with
  | socket_open => [SendSamples pcmData]
  | _ => []
  end.

(** The [catch] block of [startStreaming] (lines 602-609). *)
Definition startFailed (cs : Capture * State) : (Capture * State) * list Output :=
  let s := setMicrophoneOpen false (snd cs) in
  if audioContextRef s
  then ((fst cs, setAudioContext false s), [CloseAudioContext])
  else ((fst cs, s), []).

(** How far the wiring of the capture chain gets once the stream is there
    (lines 579-600): each of these calls may throw, and the [catch] block
    runs with the refs assigned so far. *)
Inductive Wiring : Type :=
| source_fails              (** [createMediaStreamSource] throws *)
| processor_fails           (** [createScriptProcessor] throws *)
| microphone_connect_fails  (** [microphone.connect] throws *)
| processor_connect_fails   (** [processor.connect] throws *)
| wired.                    (** none throws *)

(** The stretches of [startStreaming] (lines 555-610) between its awaits,
    by what the browser answers. *)
Inductive StartStep : Type :=
| no_media_devices     (** [getUserMedia] is missing: return at once *)
| context_refused      (** [new AudioContext] throws *)
| context_created      (** the context is made and put in its ref *)
| permission_denied    (** [resume] or [getUserMedia] rejects *)
| stream_granted (w : Wiring).  (** the stream arrives; the chain is wired *)

Definition startStreaming (step : StartStep) (cs : Capture * State)
  : (Capture * State) * list Output :=
  match step with
  | no_media_devices => (cs, [])
  | context_refused => startFailed cs
  | context_created => ((fst cs, setAudioContext true (snd cs)), [])
  | permission_denied => startFailed cs
  | stream_granted w =>
      let c := fst cs in
      match w with
      | source_fails =>
          startFailed (mkCapture (processorRef c) (microphoneRef c) true, snd cs)
      | processor_fails =>
          startFailed
            (mkCapture (processorRef c) (Some (mkNode false false)) true, snd cs)
      | microphone_connect_fails =>
          startFailed
            (mkCapture (Some (mkNode false true)) (Some (mkNode false false)) true,
             snd cs)
      | processor_connect_fails =>
          startFailed
            (mkCapture (Some (mkNode false true)) (Some (mkNode true false)) true,
             snd cs)
      | wired =>
          ((mkCapture (Some (mkNode true true)) (Some (mkNode true false)) true,
            setCurrentSpeaker (Some speaker_user) (setMicrophoneOpen true (snd cs))),
           [])
      end
  end.

Section WithHost.
Context `{Host}.
(** [systemContent] of [../lib/constants]. *)
Variable systemContent : string.

(** [buildAgentRequestPayload] (lines 171-190) *)
Definition buildAgentRequestPayload (voice : string) : value :=
  VObj [("type", VStr "agent-request");
        ("agent", VObj [("model", VStr voice);
                        ("instructions", VStr (trim systemContent))]);
        ("conversation",
         VObj [("metadata", VObj [("application", VStr "deepgram-ai-agent-demo")])]);
        ("audio",
         VObj [("format", VStr "linear16");
               ("sample_rate", VNum (Finite (inject_Z OUTPUT_SAMPLE_RATE)))])].

(** [onOpen] of the socket (lines 542-549) *)
Definition onOpen (s : State) : State * list Output :=
  (setConnection true s,
   [SendText (JSON_stringify (buildAgentRequestPayload (selectedVoice s)))]).

(** [stopStreaming] (lines 612-640) *)
Definition stopStreaming (readyState : SocketState) (cs : Capture * State)
  : (Capture * State) * list Output :=
  let c := fst cs in
  let s := snd cs in
  let processor :=
    match processorRef c with
    | Some _ => Some (mkNode false false)
    | None => None
    end in
  let microphone :=
    match microphoneRef c with
    | Some node => Some (mkNode false (listening node))
    | None => None
    end in
  let closing := if audioContextRef s then [CloseAudioContext] else [] in
  let stopping := if streamRef c then [StopTracks] else [] in
  let sending :=
    match readyState with
    | socket_open => [SendText (JSON_stringify (VObj [("type", VStr "CloseStream")]))]
    | _ => []
    end in
  ((mkCapture processor microphone false,
    setCurrentSpeaker None (setMicrophoneOpen false (setAudioContext false s))),
   closing ++ stopping ++ sending).

(** What happens to the provider, one event at a time. *)
Inductive Step : Type :=
| handle (op : Spec.Operation)
| socket_opened
| start (step : StartStep)
| stop (readyState : SocketState).

Definition advance (e : Step) (cs : Capture * State) : Capture * State :=
  match e with
  | handle op => (fst cs, exec (Spec.run op) (snd cs))
  | socket_opened => (fst cs, fst (onOpen (snd cs)))
  | start step => fst (startStreaming step cs)
  | stop readyState => fst (stopStreaming readyState cs)
  end.

(** The states of a session, from the mount of the provider on. *)
Inductive reachable : Capture * State -> Prop :=
| reachable_start (defaultVoice : string) :
    reachable (noCapture, initialState defaultVoice)
| reachable_step (e : Step) (cs : Capture * State) :
    reachable cs -> reachable (advance e cs).

End WithHost.

End Session.

(* ================================================================== *)
(** ** The other listeners of the bridge ([src/app/api/agent/route.ts]) *)
(* ================================================================== *)

Module Bridge.

Import JS Route.

(** [maskedKey] (lines 50-53) *)
Definition maskedKey (key : string) : string :=
  if (10 <? String.length key)%nat
  then (substring 0 5 key ++ "..." ++ substring (String.length key - 4) 4 key)%string
  else "<redacted>".

(** What a listener asks of the two sockets. *)
Inductive Wire : Type :=
| ToClient (data : Frame)
| ToDeepgram (data : Frame)
| CloseDeepgram (code : Z) (reason : option string)
| CloseClientSocket (code : Z) (reason : option string).

(** The ready states of the upstream socket and of the client socket. *)
Record Sockets : Type := mkSockets {
  deepgramState : ReadyState;
  clientState : ReadyState
}.

Definition open_or_connecting (s : ReadyState) : bool :=
  match s with
  | OPEN | CONNECTING => true
  | CLOSING | CLOSED => false
  end.

Definition is_open (s : ReadyState) : bool :=
  match s with
  | OPEN => true
  | _ => false
  end.

Definition code_or_default (code : option Z) : Z :=
  match code with
  | Some c => c
  | None => 1011%Z
  end.

(** [closeUpstream] (lines 130-141); what [close] throws is caught. *)
Definition closeUpstream (s : Sockets) (code : option Z) (reason : option string)
  : list Wire :=
  if open_or_connecting (deepgramState s)
  then [CloseDeepgram (code_or_default code) reason]
  else [].

(** [closeClient] (lines 143-154) *)
Definition closeClient (s : Sockets) (code : option Z) (reason : option string)
  : list Wire :=
  if open_or_connecting (clientState s)
  then [CloseClientSocket (code_or_default code) reason]
  else [].

(** The events the handler listens to; [sendThrows] says whether [send]
    throws when it is called. *)
Inductive Event : Type :=
| deepgram_open
| deepgram_message (data : Frame) (sendThrows : bool)
| deepgram_close (code : Z) (reason : string)
| deepgram_error
| client_message (data : Frame) (sendThrows : bool)
| client_close (code : Z) (reason : string)
| client_error.

Definition wires_of (s : Sockets) (e : BridgeEffect) : list Wire :=
  match e with
  | SendUpstream f => [ToDeepgram f]
  | CloseClient code reason => closeClient s (Some code) (Some reason)
  end.

Section WithHost.
Context `{Host}.
Variable cfg : config.t.

(** The listeners registered by [GET] (lines 156-237). *)
Definition listener (s : Sockets) (e : Event) : list Wire :=
  match e with
  | deepgram_open => []
  | deepgram_message data sendThrows =>
      if is_open (clientState s) then
        if sendThrows then closeUpstream s (Some 1011%Z) (Some "Forwarding error")
        else [ToClient data]
      else []
  | deepgram_close code reason => closeClient s (Some code) (Some reason)
  | deepgram_error => closeClient s (Some 1011%Z) (Some "Deepgram upstream error")
  | client_message data sendThrows =>
      match onClientMessage cfg (deepgramState s) data with
      | [] => []
      | effects =>
          if sendThrows then closeClient s (Some 1011%Z) (Some "Forwarding error")
          else flat_map (wires_of s) effects
      end
  | client_close code reason => closeUpstream s (Some code) (Some reason)
  | client_error => closeUpstream s (Some 1011%Z) (Some "Client error")
  end.

End WithHost.

End Bridge.

(* ================================================================== *)
(** ** The credential endpoint ([src/app/api/authenticate/route.ts])   *)
(* ================================================================== *)

Module Authenticate.

Import JS Route.

(** A response with its headers. *)
Record Reply : Type := mkReply {
  status : Z;
  body : value;
  headers : list (string * string)
}.

(** [NextResponse.json(body)] *)
Definition json (body : value) : Reply :=
  mkReply 200 body [("content-type", "application/json")].

(** [headers.set(name, value)] *)
Fixpoint set_header (name value : string) (h : list (string * string))
  : list (string * string) :=
  match h with
  | [] => [(name, value)]
  | (n, v) :: rest =>
      if toLowerCase n =? toLowerCase name then (n, value) :: rest
      else (n, v) :: set_header name value rest
  end.

(** What [deepgram.auth.grantToken()] resolves to. *)
Record GrantResult : Type := mkGrantResult {
  result : option (value * value);   (** [access_token], [expires_in] *)
  error : value
}.

(** Calls to the token service. *)
Inductive Call : Type :=
| GrantToken (key : string).

(** What the handler gives: a response, or the exception of the SDK, which
    it does not catch. *)
Inductive Answer : Type :=
| Replied (r : Reply)
| Threw.

Section Handler.
(** [verifyJWT] of [@/app/lib/authMiddleware], and the JSON form of a
    [DeepgramError] of the SDK. *)
Variable verifyJWT : Request -> Reply.
Variable DeepgramError : string -> value.

(** [GET] (lines 8-54), given [process.env.DEEPGRAM_ENV] and what the SDK
    does when it is asked for a token: [None] when [createClient] or
    [grantToken] throws. *)
Definition GET (DEEPGRAM_ENV : option string) (cfg : config.t) (request : Request)
    (granted : option GrantResult) : Answer * list Call :=
  let authResponse := verifyJWT request in
  if negb (status authResponse =? 200)%Z then (Replied authResponse, [])
  else
    let key := match config.deepGramApiKey cfg with Some k => k | None => "" end in
    let development :=
      match DEEPGRAM_ENV with
      | Some env => env =? "development"
      | None => false
      end in
    if development then (Replied (json (VObj [("key", VStr key)])), [])
    else
      let calls := [GrantToken key] in
      match granted with
      | None => (Threw, calls)
      | Some answer =>
          if truthy (error answer) then (Replied (json (error answer)), calls)
          else
            match result answer with
            | None =>
                (Replied
                   (json (DeepgramError
                            "Failed to generate temporary token. Make sure your API key is of scope Member or higher.")),
                 calls)
            | Some (access_token, expires_in) =>
                let response :=
                  json (VObj [("key", access_token); ("expires_in", expires_in);
                              ("url", VStr (url request))]) in
                (Replied
                   (mkReply (status response) (body response)
                      (set_header "Expires" "0"
                         (set_header "Cache-Control"
                            "s-maxage=0, no-store, no-cache, must-revalidate, proxy-revalidate"
                            (set_header "Surrogate-Control" "no-store"
                               (headers response))))),
                 calls)
            end
      end.

End Handler.

End Authenticate.

(* ================================================================== *)
(** ** Vocabulary of the further properties                            *)
(* ================================================================== *)

Module Notions.

Import JS Classifier Aggregator.

Section Rounding.
Context `{Host}.

(** When a scheduled source is over, as [playAudio] computes it (line
    311): the double nearest to the start plus the duration of the buffer,
    itself the double nearest to its length over the sample rate. *)
Definition finish (s : AudioSource) : Q :=
  round_to_double (Qplus (startTime s) (round_to_double (duration (samples s)))).

(** Every source of the queue is over when a later one starts. *)
Definition in_sequence (sources : list AudioSource) : Prop :=
  ForallOrdPairs (fun a b => Qle (finish a) (startTime b)) sources.

(** The playback queue is in sequence, the cursor is past all of it, and
    the cursor is a double. *)
Definition schedule_ok (st : State) : Prop :=
  in_sequence (scheduledAudioSourcesRef st)
  /\ Forall (fun s => Qle (finish s) (scheduledStartRef st))
       (scheduledAudioSourcesRef st)
  /\ Qeq (round_to_double (scheduledStartRef st)) (scheduledStartRef st).

(** What rounding to the nearest double does: it keeps the order, leaves
    a double as it is, and zero and the readings of the clock are doubles. *)
Definition rounds_like_doubles : Prop :=
  (forall x y : Q, Qle x y -> Qle (round_to_double x) (round_to_double y))
  /\ (forall x : Q, Qeq (round_to_double (round_to_double x)) (round_to_double x))
  /\ Qeq (round_to_double 0) 0
  /\ (forall k : nat, Qeq (round_to_double (currentTime k)) (currentTime k)).

End Rounding.

(** Each of [sources] is still queued or was stopped. *)
Definition accounted (sources : list AudioSource) (st : State) : Prop :=
  incl sources (scheduledAudioSourcesRef st ++ stopped st).

(** A handler keeps a property of the state, whether it returns or throws. *)
Definition keeps (I : State -> Prop) {A} (m : M A) : Prop :=
  forall st, I st -> I (snd (m st)).

(** A handler that never throws. *)
Definition returns {A} (m : M A) : Prop :=
  forall st, exists a, fst (m st) = Returned a.

(** The capture chain is live. *)
Definition capturing (c : Session.Capture) : Prop :=
  Session.streamRef c = true
  /\ Session.processorRef c = Some (Session.mkNode true true)
  /\ exists node, Session.microphoneRef c = Some node /\ Session.connected node = true.

(** What a listener may ask of a socket in the state it is in. *)
Definition allowed (s : Bridge.Sockets) (w : Bridge.Wire) : Prop :=
  match w with
  | Bridge.ToClient _ => Bridge.clientState s = Route.OPEN
  | Bridge.ToDeepgram _ => Bridge.deepgramState s = Route.OPEN
  | Bridge.CloseDeepgram _ _ =>
      Bridge.deepgramState s = Route.OPEN \/ Bridge.deepgramState s = Route.CONNECTING
  | Bridge.CloseClientSocket _ _ =>
      Bridge.clientState s = Route.OPEN \/ Bridge.clientState s = Route.CONNECTING
  end.

(** The audio of the open message, none when no message is open. *)
Definition pendingAudio (st : State) : list byte :=
  match incomingMessageRef st with
  | Some m => match audio m with Some a => a | None => [] end
  | None => []
  end.

(** The state updates the handlers make outside the playback queue. *)
Inductive plain_update : (State -> State) -> Prop :=
| sets_connection b : plain_update (setConnection b)
| sets_voice v : plain_update (setVoice v)
| sets_speaker sp : plain_update (setCurrentSpeaker sp)
| closes_microphone : plain_update (setMicrophoneOpen false)
| sets_messages f : plain_update (setChatMessages f)
| sets_incoming m : plain_update (setIncoming m)
| draws_id : plain_update drawId.

(** From a state with [P] the handler returns, in a state with [P]. *)
Definition safe (P : State -> Prop) {A} (m : M A) : Prop :=
  forall st, P st -> (exists a, fst (m st) = Returned a) /\ P (snd (m st)).

(** An update at which the handler throws whatever the state of the
    message is: an audio chunk that [new Int16Array] refuses when a context
    exists, or a throw of the classifier. *)
Definition refused (a : Action) : bool :=
  match a with
  | AudioDelta b => Nat.odd (List.length b)
  | Abort => true
  | _ => false
  end.

Definition context_is (c : bool) (st : State) : Prop := audioContextRef st = c.

Section Readable.
Context `{Host}.

(** The content of the open message, if one is open, converts to a string. *)
Definition readable (st : State) : Prop :=
  match incomingMessageRef st with
  | Some m => exists s, ToString (content m) = Ok s
  | None => True
  end.

(** An audio context exists and the open message is readable. *)
Definition ready (st : State) : Prop := context_is true st /\ readable st.

End Readable.

(** No audio context exists and the queue holds nothing but [sources]. *)
Definition silent (sources : list AudioSource) (st : State) : Prop :=
  audioContextRef st = false /\ incl (scheduledAudioSourcesRef st) sources.

(** The object has an own property [k]. *)
Fixpoint has_key (k : string) (fields : list (string * value)) : bool :=
  match fields with
  | [] => false
  | (k', _) :: rest => (k' =? k) || has_key k rest
  end.

End Notions.

(* ================================================================== *)
(** ** Further concrete inputs                                         *)
(* ================================================================== *)

Module Scenarios.

Import JS Classifier Aggregator.

(** A payload whose second sub-object carries one byte of audio. *)
Definition odd_audio_response : value :=
  VObj [("type", VStr "agent-response");
        ("responses", VArr [Examples.text_response "Hi";
                            VObj [("type", VStr "audio"); ("audio", VStr "QQ==")];
                            Examples.text_response "lost"]);
        ("status", VStr "completed")].

(** The opening request of the provider for the voice of [Examples.start]. *)
Definition opening_request : value :=
  Session.buildAgentRequestPayload "  Be brief. " "aura-asteria-en".

(** A host whose JSON text of any value is the same, and reads as the
    opening request. *)
Definition echo_host : Host :=
  Examples.host_with
    (fun s => if s =? "{}" then Some opening_request else None) (fun _ => 0%Q).

(** Capture is started, then two binary frames of four bytes arrive. *)
Definition two_frames : Session.Capture * State :=
  @Session.advance Examples.plain_host "Be brief."
    (Session.handle (Spec.upstream_message (DataArrayBuffer [x00; x01; x02; x03])))
    (@Session.advance Examples.plain_host "Be brief."
       (Session.handle (Spec.upstream_message (DataArrayBuffer [xff; x7f; x00; x80])))
       (@Session.advance Examples.plain_host "Be brief."
          (Session.start Session.context_created)
          (Session.noCapture, Examples.start))).

(** Capture is started and wired. *)
Definition streaming : Session.Capture * State :=
  @Session.advance Examples.plain_host "Be brief."
    (Session.start (Session.stream_granted Session.wired))
    (@Session.advance Examples.plain_host "Be brief."
       (Session.start Session.context_created)
       (Session.noCapture, Examples.start)).

End Scenarios.

(* ================================================================== *)
(** ** Properties of the classifier                                    *)
(* ================================================================== *)

Import JS Classifier.

Lemma truthy_or_else a b : truthy (or_else a b) = truthy a || truthy b.
Proof.
  unfold or_else. destruct (truthy a) eqn:E; simpl; [exact E | reflexivity].
Qed.

Lemma is_str_true v lit : is_str v lit = true <-> v = VStr lit.
Proof.
  destruct v; simpl; try (split; [discriminate | congruence]).
  rewrite String.eqb_eq. split; congruence.
Qed.

Lemma is_true_true v : is_true v = true <-> v = VBool true.
Proof.
  destruct v as [| |[|]| | | | | | | |]; simpl; split; congruence.
Qed.

Section ClassifierProperties.
Context `{Host}.

(** C5, amended: a transcript payload is final exactly when [is_final] or
    [final] is truthy, or [type] is the string "final_transcript", or the
    confidence of the first channel alternative is truthy and greater than
    zero. *)
Theorem isFinalTranscript_iff (payload : value) :
  isFinalTranscript payload = Ok true <->
  truthy (getProp payload "is_final") = true
  \/ truthy (getProp payload "final") = true
  \/ getProp payload "type" = VStr "final_transcript"
  \/ (truthy (Spec.confidenceOf payload) = true
      /\ gt_zero (Spec.confidenceOf payload) = Ok true).
Proof.
  rewrite <- is_str_true.
  unfold isFinalTranscript, Spec.confidenceOf.
  destruct (truthy payload) eqn:Hp; simpl.
  - rewrite truthy_or_else.
    destruct (truthy (getProp payload "is_final")); simpl; [tauto|].
    destruct (truthy (getProp payload "final")); simpl; [tauto|].
    destruct (is_str (getProp payload "type") "final_transcript"); simpl; [tauto|].
    set (c := getProp (getFirst _) "confidence").
    destruct (truthy c); simpl; intuition congruence.
  - destruct payload; simpl in *; try discriminate; intuition congruence.
Qed.

(** C6, amended: a response sub-object is complete exactly when its [type]
    is "completed" or "done"; or else its [status] is truthy and, as a
    lower-cased string, one of completed, complete, finished, done; or else
    its [status] is falsy and [completion_reason] is truthy or [done] is
    [true].  A truthy [status] outside the list makes the sub-object
    incomplete whatever [completion_reason] and [done] hold. *)
Theorem responseIsComplete_iff (response : value) :
  responseIsComplete response = Ok true <->
  getProp response "type" = VStr "completed"
  \/ getProp response "type" = VStr "done"
  \/ (truthy (getProp response "status") = true
      /\ exists status,
           ToString (getProp response "status") = Ok status
           /\ one_of (toLowerCase status) Spec.completed_statuses = true)
  \/ (truthy (getProp response "status") = false
      /\ (truthy (getProp response "completion_reason") = true
          \/ getProp response "done" = VBool true)).
Proof.
  rewrite <- !is_str_true, <- is_true_true.
  unfold responseIsComplete, Spec.completed_statuses.
  destruct (truthy response) eqn:Hr; simpl.
  - destruct (is_str (getProp response "type") "completed"); simpl; [tauto|].
    destruct (is_str (getProp response "type") "done"); simpl; [tauto|].
    destruct (truthy (getProp response "status")); simpl.
    + destruct (ToString (getProp response "status")) as [status|]; simpl.
      * split.
        -- intros E. right. right. left. split; [reflexivity|].
           exists status. split; [reflexivity | congruence].
        -- intros [E|[E|[(_ & status' & E1 & E2)|(E & _)]]]; try discriminate.
           injection E1 as <-. now rewrite E2.
      * split; [discriminate|].
        intros [E|[E|[(_ & status' & E1 & E2)|(E & _)]]]; discriminate.
    + destruct (truthy (getProp response "completion_reason")); simpl; [tauto|].
      destruct (is_true (getProp response "done")); simpl; intuition congruence.
  - destruct response; simpl in *; try discriminate; intuition congruence.
Qed.

End ClassifierProperties.

(** C5, as stated, fails: a negative confidence is truthy, and the payload is
    not final. *)
Lemma isFinalTranscript_negative_confidence :
  truthy (Spec.confidenceOf
            (VObj [("channel",
                    VObj [("alternatives",
                           VArr [VObj [("confidence", VNum (Finite (-1 # 2)))]])])]))
    = true
  /\ (forall host : Host,
        @isFinalTranscript host
          (VObj [("channel",
                  VObj [("alternatives",
                         VArr [VObj [("confidence", VNum (Finite (-1 # 2)))]])])])
        = Ok false).
Proof.
  split; [reflexivity | intros host; reflexivity].
Qed.

(** C6, as stated, fails: [done: true] next to a status outside the list. *)
Lemma responseIsComplete_status_overrides_done :
  getProp (VObj [("status", VStr "in_progress"); ("done", VBool true)]) "done"
    = VBool true
  /\ (forall host : Host,
        @responseIsComplete host
          (VObj [("status", VStr "in_progress"); ("done", VBool true)]) = Ok false).
Proof.
  split; [reflexivity | intros host; reflexivity].
Qed.

(* ================================================================== *)
(** ** Properties of the bridge route                                  *)
(* ================================================================== *)

Import Route.

Lemma lookup_assign_same k v fields : lookup k (assign k v fields) = v.
Proof.
  induction fields as [|[k' v'] rest IH]; simpl.
  - now rewrite String.eqb_refl.
  - destruct (k' =? k) eqn:E; simpl.
    + now rewrite String.eqb_refl.
    + now rewrite E.
Qed.

Lemma lookup_assign_other k k' v fields :
  k <> k' -> lookup k' (assign k v fields) = lookup k' fields.
Proof.
  intros Hne. induction fields as [|[k0 v0] rest IH]; simpl.
  - destruct (k =? k') eqn:E; [apply String.eqb_eq in E; contradiction | reflexivity].
  - destruct (k0 =? k) eqn:E; simpl.
    + apply String.eqb_eq in E. subst k0.
      destruct (k =? k') eqn:E'; [apply String.eqb_eq in E'; contradiction | reflexivity].
    + destruct (k0 =? k'); [reflexivity | exact IH].
Qed.

Lemma present_Some o : present o = true -> exists s, o = Some s /\ s <> "".
Proof.
  destruct o as [s|]; simpl; [|discriminate].
  intros E. exists s. split; [reflexivity|].
  intros ->. discriminate.
Qed.

(** Lower-casing leaves no capital letter of the alphabet. *)
Fixpoint has_capital (s : string) : bool :=
  match s with
  | EmptyString => false
  | String c r => ((65 <=? code c) && (code c <=? 90))%N || has_capital r
  end.

Lemma lower_char_no_capital c :
  ((65 <=? code (lower_char c)) && (code (lower_char c) <=? 90))%N = false.
Proof.
  destruct c as [[] [] [] [] [] [] [] []]; reflexivity.
Qed.

Lemma toLowerCase_no_capital s : has_capital (toLowerCase s) = false.
Proof.
  induction s as [|c r IH]; [reflexivity|].
  cbn [toLowerCase has_capital]. now rewrite lower_char_no_capital, IH.
Qed.

(** A lower-cased name that is neither [__proto__] nor [constructor] names
    nothing a plain object inherits. *)
Lemma inherited_lower_case s :
  toLowerCase s <> "__proto__" -> toLowerCase s <> "constructor" ->
  inherited (toLowerCase s) = VUndefined.
Proof.
  intros H1 H2. unfold inherited.
  apply String.eqb_neq in H1. apply String.eqb_neq in H2. rewrite H1, H2.
  assert (G : forall name, has_capital name = true ->
                (toLowerCase s =? name) = false).
  { intros name Hc. apply String.eqb_neq. intros E.
    rewrite <- E, toLowerCase_no_capital in Hc. discriminate. }
  unfold one_of, inherited_functions. cbn [existsb].
  now rewrite !G by reflexivity.
Qed.

Section RouteProperties.
Context `{Host}.


(** C2: a client string passes unchanged when no external model is
    configured, or it is no JSON, or its [type] does not lower-case to
    "agent-request": the rewriter answers [null] without throwing, and the
    listener, upstream being open, sends the very string it received. *)
Theorem rewriter_passes_through (cfg : config.t) (message : string) :
  shouldInjectExternalLlm cfg = false
  \/ JSON_parse message = None
  \/ (exists parsed,
        JSON_parse message = Some parsed
        /\ forall t, getProp parsed "type" = VStr t -> toLowerCase t <> "agent-request") ->
  injectExternalThinkSettings cfg message = None
  /\ onClientMessage cfg OPEN (Text message) = [SendUpstream (Text message)].
Proof.
  intros Hcase.
  assert (Hnone : injectExternalThinkSettings cfg message = None).
  { unfold injectExternalThinkSettings.
    destruct Hcase as [Hoff | [Hbad | (parsed & Hparse & Hother)]].
    - now rewrite Hoff.
    - rewrite Hbad. now destruct (shouldInjectExternalLlm cfg).
    - rewrite Hparse. destruct (shouldInjectExternalLlm cfg); simpl; [|reflexivity].
      unfold coalesce.
      destruct (getProp parsed "type") eqn:Et; simpl; try reflexivity.
      destruct (toLowerCase s =? "agent-request") eqn:E; [|reflexivity].
      apply String.eqb_eq in E. now destruct (Hother s eq_refl). }
  split; [exact Hnone|].
  unfold onClientMessage. rewrite Hnone.
  now destruct (shouldInjectExternalLlm cfg).
Qed.

End RouteProperties.

(** C9: without an upstream key the answer is 500, else without a
    [websocket] upgrade header it is 400; both carry a JSON error body and
    the handler has created no socket. *)
Theorem GET_rejects_before_any_socket
    (cfg : config.t) (platform : Platform) (request : Request) :
  present (config.deepGramApiKey cfg) = false \/ isWebSocketUpgrade request = false ->
  exists message,
    GET cfg platform request =
      (Responded
         (mkResponse (if present (config.deepGramApiKey cfg) then 400 else 500)
            (VObj [("error", VStr message)]) false),
       []).
Proof.
  intros Hcase. unfold GET.
  destruct (present (config.deepGramApiKey cfg)) eqn:Hkey; simpl.
  - destruct Hcase as [Hno | Hup]; [discriminate|].
    rewrite Hup. simpl. eexists. reflexivity.
  - eexists. reflexivity.
Qed.


(** C2 at the [CloseStream] message, with an external model configured. *)
Lemma rewriter_passes_through_witness :
  @injectExternalThinkSettings Examples.server_host Examples.byo_config
    Examples.close_stream_text = None
  /\ @onClientMessage Examples.server_host Examples.byo_config OPEN
       (Text Examples.close_stream_text)
     = [SendUpstream (Text Examples.close_stream_text)].
Proof.
  apply (@rewriter_passes_through Examples.server_host Examples.byo_config
           Examples.close_stream_text).
  right. right. exists Examples.close_stream.
  split; [reflexivity|].
  intros t Ht. injection Ht as <-. discriminate.
Defined.

(** C9 at a request that asks for another protocol. *)
Lemma GET_rejects_before_any_socket_witness :
  exists message,
    GET Examples.plain_config pair_is_global
      (mkRequest "/api/agent" [("Upgrade", "h2c")])
    = (Responded (mkResponse 400 (VObj [("error", VStr message)]) false), []).
Proof.
  exact (GET_rejects_before_any_socket Examples.plain_config pair_is_global
           (mkRequest "/api/agent" [("Upgrade", "h2c")]) (or_intror eq_refl)).
Defined.

(* ================================================================== *)
(** ** Properties of the conversation aggregator                       *)
(* ================================================================== *)

Import Aggregator.
Local Open Scope handler_scope.

Section BargeIn.
Context `{Host}.

(** C8: with a model message open and audio scheduled, a final user
    transcript with a text closes the open message, stops and empties the
    scheduled audio, resets the start cursor to zero, and appends a user
    message with that text at the end of the conversation.  The transcript
    is one the classifier reads: a truthy text, a speaker that is the user
    or none, and the flag final. *)
Theorem final_user_transcript_barges_in
    (payload : value) (st : State) (pending : Message)
    (text : value) (speaker : option Role) :
  incomingMessageRef st = Some pending ->
  scheduledAudioSourcesRef st <> [] ->
  extractTranscriptText payload = Ok text ->
  truthy text = true ->
  parseSpeaker payload = Ok speaker ->
  speaker <> Some model ->
  isFinalTranscript payload = Ok true ->
  fst (handleTranscriptMessage payload st) = Returned tt
  /\ incomingMessageRef (exec (handleTranscriptMessage payload) st) = None
  /\ scheduledAudioSourcesRef (exec (handleTranscriptMessage payload) st) = []
  /\ scheduledStartRef (exec (handleTranscriptMessage payload) st) = 0%Q
  /\ stopped (exec (handleTranscriptMessage payload) st)
       = stopped st ++ scheduledAudioSourcesRef st
  /\ chatMessages (exec (handleTranscriptMessage payload) st)
       = chatMessages st ++ [mkMessage (gen_id (idsDrawn st)) user text None None]
  /\ currentSpeaker (exec (handleTranscriptMessage payload) st) = Some speaker_user.
Proof.
  intros _ _ Htext Htruthy Hparsed Hspeaker Hfinal.
  unfold exec, handleTranscriptMessage, bind, lift.
  rewrite Htext, Htruthy, Hparsed, Hfinal. simpl negb. cbv iota.
  destruct speaker as [[|]|]; try congruence;
    repeat split; reflexivity.
Qed.

End BargeIn.

(* ================================================================== *)
(** ** [atob] inverts the base64 encoding                              *)
(* ================================================================== *)

Module Base64Facts.

Import Base64 Spec.

Ltac div_lia := zify; Z.to_euclidean_division_equations; lia.

(** Lists three elements at a time. *)
Lemma list_ind3 {A} (P : list A -> Prop) :
  P [] ->
  (forall x, P [x]) ->
  (forall x y, P [x; y]) ->
  (forall x y z rest, P rest -> P (x :: y :: z :: rest)) ->
  forall l, P l.
Proof.
  intros H0 H1 H2 H3.
  fix IH 1. intros [|x [|y [|z rest]]].
  - exact H0.
  - apply H1.
  - apply H2.
  - apply H3, IH.
Qed.

Lemma digit_facts n :
  (n < 64)%N ->
  sextet (digit n) = Some n
  /\ is_ascii_space (digit n) = false
  /\ JS.is_space (digit n) = false
  /\ (digit n =? "=")%char = false.
Proof.
  intros Hn. destruct n as [|p]; [repeat split|].
  do 6 (try destruct p as [p|p|]); try (exfalso; lia); repeat split.
Qed.

Lemma sextet_digit n : (n < 64)%N -> sextet (digit n) = Some n.
Proof. intros Hn. apply (digit_facts n Hn). Qed.

Lemma strip_padding_cons c r :
  (c =? "=")%char = false -> strip_padding (c :: r) = c :: strip_padding r.
Proof.
  intros Hc. destruct r as [|c' [|c'' r]]; cbn [strip_padding]; rewrite ?Hc; reflexivity.
Qed.

Lemma sextets_digits ns :
  Forall (fun n => (n < 64)%N) ns -> sextets (map digit ns) = Some ns.
Proof.
  induction 1 as [|n ns Hn _ IH]; simpl; [reflexivity|].
  now rewrite (sextet_digit n Hn), IH.
Qed.

Lemma mod4_plus4 n : (S (S (S (S n))) mod 4 = n mod 4)%nat.
Proof.
  change (S (S (S (S n)))) with (4 + n)%nat.
  replace (4 + n)%nat with (n + 1 * 4)%nat by lia.
  apply Nat.Div0.mod_add.
Qed.

Lemma encoded_is_digit n : (n < 64)%N -> encoded_char (digit n).
Proof. intros Hn. left. now exists n. Qed.

Lemma encode_chars_alphabet (l : list byte) : Forall encoded_char (encode_chars l).
Proof.
  induction l as [|x|x y|x y z rest IH] using list_ind3; cbn [encode_chars].
  - constructor.
  - pose proof (Byte.to_N_bounded x).
    repeat (apply Forall_cons; [first [apply encoded_is_digit; div_lia | now right]|]).
    apply Forall_nil.
  - pose proof (Byte.to_N_bounded x). pose proof (Byte.to_N_bounded y).
    repeat (apply Forall_cons; [first [apply encoded_is_digit; div_lia | now right]|]).
    apply Forall_nil.
  - pose proof (Byte.to_N_bounded x). pose proof (Byte.to_N_bounded y).
    pose proof (Byte.to_N_bounded z).
    repeat (apply Forall_cons; [apply encoded_is_digit; div_lia|]). exact IH.
Qed.

Lemma encode_chars_length (l : list byte) :
  (List.length (encode_chars l) mod 4 = 0)%nat.
Proof.
  induction l as [|x|x y|x y z rest IH] using list_ind3; cbn [encode_chars];
    try reflexivity.
  cbn [List.length]. now rewrite mod4_plus4.
Qed.

Lemma remove_ascii_space_encoded l :
  Forall encoded_char l -> remove_ascii_space l = l.
Proof.
  induction 1 as [|c l Hc _ IH]; [reflexivity|].
  unfold remove_ascii_space in *. cbn [filter].
  assert (E : is_ascii_space c = false).
  { destruct Hc as [(n & Hn & ->)| ->]; [apply (digit_facts n Hn) | reflexivity]. }
  rewrite E. simpl. now rewrite IH.
Qed.

Lemma strip_spaces_encoded l :
  Forall encoded_char l ->
  JS.strip_spaces (string_of_list_ascii l) = string_of_list_ascii l.
Proof.
  induction 1 as [|c l Hc _ IH]; [reflexivity|].
  cbn [string_of_list_ascii JS.strip_spaces].
  assert (E : JS.is_space c = false).
  { destruct Hc as [(n & Hn & ->)| ->]; [apply (digit_facts n Hn) | reflexivity]. }
  now rewrite E, IH.
Qed.

(** Without its padding, an encoding is the digits of sextets that decode
    to the bytes. *)
Lemma strip_padding_encode (l : list byte) :
  exists ns,
    strip_padding (encode_chars l) = map digit ns
    /\ Forall (fun n => (n < 64)%N) ns
    /\ (List.length ns mod 4 =? 1)%nat = false
    /\ decode_sextets ns = map ascii_of_byte l.
Proof.
  induction l as [|x|x y|x y z rest IH] using list_ind3; cbn [encode_chars].
  - exists []. repeat split. constructor.
  - pose proof (Byte.to_N_bounded x) as Hx.
    set (n := (Byte.to_N x * 16)%N).
    exists [(n / 64)%N; (n mod 64)%N].
    assert (H1 : (n / 64 < 64)%N) by (subst n; div_lia).
    assert (H2 : (n mod 64 < 64)%N) by (subst n; div_lia).
    split.
    { rewrite !strip_padding_cons by (apply digit_facts; assumption). reflexivity. }
    split; [repeat constructor; assumption|].
    split; [reflexivity|].
    cbn [decode_sextets map]. rewrite ascii_of_byte_via_N.
    do 2 f_equal. subst n. div_lia.
  - pose proof (Byte.to_N_bounded x) as Hx. pose proof (Byte.to_N_bounded y) as Hy.
    set (n := ((Byte.to_N x * 256 + Byte.to_N y) * 4)%N).
    exists [(n / 4096)%N; ((n / 64) mod 64)%N; (n mod 64)%N].
    assert (H1 : (n / 4096 < 64)%N) by (subst n; div_lia).
    assert (H2 : ((n / 64) mod 64 < 64)%N) by (subst n; div_lia).
    assert (H3 : (n mod 64 < 64)%N) by (subst n; div_lia).
    split.
    { rewrite !strip_padding_cons by (apply digit_facts; assumption). reflexivity. }
    split; [repeat constructor; assumption|].
    split; [reflexivity|].
    cbn [decode_sextets map]. rewrite !ascii_of_byte_via_N.
    assert (E : (n / 4096 * 4096 + (n / 64) mod 64 * 64 + n mod 64 = n)%N)
      by (subst n; div_lia).
    rewrite E. f_equal; [|f_equal]; f_equal; subst n; div_lia.
  - destruct IH as (ns & Hstrip & Hall & Hlen & Hdec).
    pose proof (Byte.to_N_bounded x) as Hx. pose proof (Byte.to_N_bounded y) as Hy.
    pose proof (Byte.to_N_bounded z) as Hz.
    set (n := (Byte.to_N x * 65536 + Byte.to_N y * 256 + Byte.to_N z)%N).
    exists ((n / 262144)%N :: ((n / 4096) mod 64)%N :: ((n / 64) mod 64)%N
              :: (n mod 64)%N :: ns).
    assert (H1 : (n / 262144 < 64)%N) by (subst n; div_lia).
    assert (H2 : ((n / 4096) mod 64 < 64)%N) by (subst n; div_lia).
    assert (H3 : ((n / 64) mod 64 < 64)%N) by (subst n; div_lia).
    assert (H4 : (n mod 64 < 64)%N) by (subst n; div_lia).
    split.
    { rewrite !strip_padding_cons by (apply digit_facts; assumption).
      now rewrite Hstrip. }
    split; [repeat (constructor; [assumption|]); exact Hall|].
    split; [cbn [List.length]; now rewrite mod4_plus4|].
    cbn [decode_sextets map]. rewrite !ascii_of_byte_via_N, Hdec.
    assert (E : (n / 262144 * 262144 + (n / 4096) mod 64 * 4096
                 + (n / 64) mod 64 * 64 + n mod 64 = n)%N)
      by (subst n; div_lia).
    rewrite E. f_equal; [|f_equal; [|f_equal]]; f_equal; subst n; div_lia.
Qed.

(** [atob] of the base64 text of a byte sequence is the binary string of
    those bytes. *)
Lemma atob_encode (l : list byte) :
  atob (encode l) = Some (string_of_list_ascii (map ascii_of_byte l)).
Proof.
  unfold atob, encode.
  rewrite list_ascii_of_string_of_list_ascii.
  rewrite (remove_ascii_space_encoded _ (encode_chars_alphabet l)).
  rewrite encode_chars_length. cbn [Nat.eqb].
  destruct (strip_padding_encode l) as (ns & Hstrip & Hall & Hlen & Hdec).
  rewrite Hstrip, length_map, Hlen, (sextets_digits ns Hall), Hdec.
  reflexivity.
Qed.

Lemma decodeBase64_encode (l : list byte) :
  Classifier.decodeBase64 (encode l) = Some l.
Proof.
  unfold Classifier.decodeBase64, encode.
  rewrite (strip_spaces_encoded _ (encode_chars_alphabet l)).
  change (string_of_list_ascii (encode_chars l)) with (encode l).
  rewrite atob_encode, list_ascii_of_string_of_list_ascii, map_map.
  f_equal. rewrite <- (map_id l) at 2. apply map_ext.
  intros b. apply byte_of_ascii_of_byte.
Qed.

End Base64Facts.

(* ================================================================== *)
(** ** Audio extraction                                                *)
(* ================================================================== *)

Lemma ToUint8_num_of_byte (b : byte) : ToUint8 (num_of_byte b) = b.
Proof.
  unfold ToUint8, num_of_byte. cbn [inject_Z Qnum Qden].
  pose proof (Byte.to_N_bounded b) as Hb.
  rewrite Z.quot_1_r, Z.mod_small by lia.
  now rewrite N2Z.id, Byte.of_to_N.
Qed.

Lemma encode_nonempty (bytes : list byte) :
  bytes <> [] -> (Base64.encode bytes =? "") = false.
Proof.
  destruct bytes as [|x [|y [|z rest]]]; [congruence | reflexivity ..].
Qed.

Section AudioProperties.
Context `{Host}.

Lemma Uint8Array_from_number_items (bytes : list byte) :
  Uint8Array_from (Spec.number_items bytes) = Ok bytes.
Proof.
  unfold Uint8Array_from, Spec.number_items.
  induction bytes as [|b rest IH]; [reflexivity|].
  cbn [map all_ok ToNumber and_then]. rewrite IH.
  now rewrite ToUint8_num_of_byte.
Qed.

(** C3, amended: whichever of the encodings (ArrayBuffer, Uint8Array,
    base64 string, array of numbers, wrapped Buffer object) the audio field
    of a response carries a byte sequence in, [audioFromResponse] yields
    those bytes, provided the sequence is not empty or the encoding is not
    the base64 string. *)
Theorem audioFromResponse_any_encoding
    (e : Spec.Encoding) (bytes : list byte) (response : value) :
  truthy response = true ->
  audioField response = Spec.carried e bytes ->
  bytes <> [] \/ e <> Spec.base64_text ->
  audioFromResponse response = Ok (Some bytes).
Proof.
  intros Hr Hfield Hcase.
  unfold audioFromResponse. rewrite Hr, Hfield. cbn [negb].
  destruct e; cbn [Spec.carried truthy negb].
  - reflexivity.
  - reflexivity.
  - destruct Hcase as [Hne | Hne]; [|congruence].
    rewrite (encode_nonempty bytes Hne). cbn [negb].
    now rewrite Base64Facts.decodeBase64_encode.
  - now rewrite Uint8Array_from_number_items.
  - change (getProp (VObj [("type", VStr "Buffer");
                           ("data", VArr (Spec.number_items bytes))]) "type")
      with (VStr "Buffer").
    change (getProp (VObj [("type", VStr "Buffer");
                           ("data", VArr (Spec.number_items bytes))]) "data")
      with (VArr (Spec.number_items bytes)).
    change (is_str (VStr "Buffer") "Buffer") with true. cbv iota.
    now rewrite Uint8Array_from_number_items.
Qed.

End AudioProperties.

(** C3 at the bytes of "Hi" as a base64 string. *)
Lemma audioFromResponse_any_encoding_witness :
  @audioFromResponse Examples.plain_host
    (VObj [("type", VStr "audio"); ("audio", VStr "SGk=")]) = Ok (Some [x48; x69]).
Proof.
  apply (@audioFromResponse_any_encoding Examples.plain_host Spec.base64_text
           [x48; x69] (VObj [("type", VStr "audio"); ("audio", VStr "SGk=")])).
  - reflexivity.
  - reflexivity.
  - left. discriminate.
Defined.

(** C3, as stated, fails on the empty sequence: as a base64 string it gives
    no audio, as an array of numbers it gives an empty buffer. *)
Lemma audioFromResponse_empty_differs :
  (forall host : Host,
     @audioFromResponse host (VObj [("audio", Spec.carried Spec.base64_text [])])
     = Ok None)
  /\ (forall host : Host,
        @audioFromResponse host (VObj [("audio", Spec.carried Spec.number_array [])])
        = Ok (Some [])).
Proof.
  split; intros host; reflexivity.
Qed.

(* ================================================================== *)
(** ** The aggregator invariant                                        *)
(* ================================================================== *)

Section Invariant.
Context `{Host}.
Hypothesis gen_id_injective : forall i j : nat, gen_id i = gen_id j -> i = j.

Import Spec.

Lemma keeps_settled_refl st : keeps_settled st st.
Proof. exists []. now rewrite app_nil_r. Qed.

Lemma keeps_settled_trans st1 st2 st3 :
  keeps_settled st1 st2 -> keeps_settled st2 st3 -> keeps_settled st1 st3.
Proof.
  intros [m1 E1] [m2 E2]. exists (m1 ++ m2). now rewrite E2, E1, app_assoc.
Qed.

Lemma preserves_ret {A} (a : A) : preserves (ret a).
Proof. intros st Hwf. split; [exact Hwf | apply keeps_settled_refl]. Qed.

Lemma preserves_throw {A} : preserves (@throw A).
Proof. intros st Hwf. split; [exact Hwf | apply keeps_settled_refl]. Qed.

Lemma preserves_gets {A} (f : State -> A) : preserves (gets f).
Proof. intros st Hwf. split; [exact Hwf | apply keeps_settled_refl]. Qed.

Lemma preserves_bind {A B} (m : M A) (k : A -> M B) :
  preserves m -> (forall a, preserves (k a)) -> preserves (bind m k).
Proof.
  intros Hm Hk st Hwf. unfold bind.
  destruct (Hm st Hwf) as [Hwf1 Hkeep1].
  destruct (m st) as [[a|] st1]; cbn [snd] in *.
  - destruct (Hk a st1 Hwf1) as [Hwf2 Hkeep2].
    split; [exact Hwf2 | exact (keeps_settled_trans _ _ _ Hkeep1 Hkeep2)].
  - split; assumption.
Qed.

Lemma preserves_try_catch (m : M unit) : preserves m -> preserves (try_catch m).
Proof. intros Hm st Hwf. exact (Hm st Hwf). Qed.

Lemma preserves_forEach {A} (f : A -> M unit) (l : list A) :
  (forall x, preserves (f x)) -> preserves (forEach f l).
Proof.
  intros Hf. induction l as [|x rest IH]; cbn [forEach].
  - apply preserves_ret.
  - apply preserves_bind; [apply Hf | intros _; exact IH].
Qed.

(** A state change that leaves the conversation, the open message and the
    id counter alone. *)
Lemma preserves_modify_frame (f : State -> State) :
  (forall s, chatMessages (f s) = chatMessages s
             /\ incomingMessageRef (f s) = incomingMessageRef s
             /\ idsDrawn (f s) = idsDrawn s) ->
  preserves (modify f).
Proof.
  intros Hf st Hwf. cbn [modify snd].
  destruct (Hf st) as (Ec & Ei & En).
  split.
  - unfold well_formed in *. now rewrite Ec, Ei, En.
  - exists []. unfold settled. now rewrite Ec, Ei, app_nil_r.
Qed.

Lemma NoDup_map_app_fresh (l : list Message) (m : Message) :
  NoDup (map id l) -> ~ In (id m) (map id l) -> NoDup (map id (l ++ [m])).
Proof.
  intros Hnd Hfresh. rewrite map_app. cbn [map].
  apply NoDup_app; [exact Hnd | repeat constructor; intros [] | ].
  intros x Hx [<- | []]. exact (Hfresh Hx).
Qed.

Lemma fresh_id (st : State) :
  well_formed st -> ~ In (gen_id (idsDrawn st)) (map id (chatMessages st)).
Proof.
  intros (_ & Hids & _) Hin.
  apply in_map_iff in Hin. destruct Hin as (m & Hid & Hm).
  destruct (Hids m Hm) as (i & Hlt & Hi).
  rewrite Hi in Hid. apply gen_id_injective in Hid. lia.
Qed.

(** Appending a message under a fresh identifier ([open] says whether it
    becomes the open message). *)
Lemma append_fresh (st : State) (r : Role) (c : value) (v : option string)
    (incoming : option Message) (rest : State -> State) :
  well_formed st ->
  let message := mkMessage (gen_id (idsDrawn st)) r c None v in
  forall st',
  chatMessages st' = chatMessages st ++ [message] ->
  idsDrawn st' = S (idsDrawn st) ->
  (incomingMessageRef st' = None
   \/ (incomingMessageRef st' = Some message /\ r = model
       /\ incomingMessageRef st = None)) ->
  well_formed st' /\ keeps_settled st st'.
Proof.
  intros Hwf message st' Ec En Hopen.
  pose proof (fresh_id st Hwf) as Hfresh.
  destruct Hwf as (Hnd & Hids & Hlast).
  split.
  - split; [|split].
    + rewrite Ec. apply NoDup_map_app_fresh; assumption.
    + intros m Hm. rewrite Ec in Hm. rewrite En.
      apply in_app_or in Hm. destruct Hm as [Hm | [<- | []]].
      * destruct (Hids m Hm) as (i & Hlt & Hi). exists i. split; [lia | exact Hi].
      * exists (idsDrawn st). split; [lia | reflexivity].
    + destruct Hopen as [-> | (-> & Hr & _)]; [exact I|].
      split; [exact Hr | exists (chatMessages st); exact Ec].
  - unfold keeps_settled, settled.
    destruct Hopen as [-> | (-> & _ & ->)].
    + rewrite Ec. destruct (incomingMessageRef st) as [m|].
      * destruct Hlast as (_ & earlier & E). rewrite E, removelast_last.
        exists [m; message]. now rewrite <- app_assoc.
      * now exists [message].
    + rewrite Ec, removelast_last. exists []. now rewrite app_nil_r.
Qed.

Lemma preserves_ensureIncomingMessage : preserves ensureIncomingMessage.
Proof.
  intros st Hwf. unfold ensureIncomingMessage, bind, gets.
  destruct (incomingMessageRef st) as [m|] eqn:Ei; cbn.
  - split; [exact Hwf | apply keeps_settled_refl].
  - apply (append_fresh st model (VStr "") (Some (selectedVoice st)) None (fun s => s) Hwf);
      cbn; auto.
Qed.

(** Replacing by identifier touches the last message only. *)
Lemma replace_last (earlier : list Message) (m updated : Message) :
  NoDup (map id (earlier ++ [m])) ->
  id updated = id m ->
  map (fun item => if id item =? id updated then updated else item) (earlier ++ [m])
  = earlier ++ [updated].
Proof.
  intros Hnd Hid. rewrite map_app. cbn [map].
  rewrite Hid, String.eqb_refl. f_equal.
  rewrite <- (map_id earlier) at 2. apply map_ext_in.
  intros item Hitem.
  destruct (id item =? id m) eqn:E; [|reflexivity].
  apply String.eqb_eq in E. exfalso.
  rewrite map_app in Hnd. cbn [map] in Hnd.
  apply NoDup_remove_2 in Hnd. apply Hnd.
  rewrite app_nil_r. rewrite <- E. now apply in_map.
Qed.

Lemma well_formed_replace (st st' : State) (m updated : Message) :
  well_formed st ->
  incomingMessageRef st = Some m ->
  id updated = id m -> role updated = role m ->
  chatMessages st' =
    map (fun item => if id item =? id updated then updated else item) (chatMessages st) ->
  idsDrawn st' = idsDrawn st ->
  incomingMessageRef st' = Some updated ->
  well_formed st' /\ keeps_settled st st'.
Proof.
  intros (Hnd & Hids & Hlast) Ei Hid Hrole Ec En Ei'.
  rewrite Ei in Hlast. destruct Hlast as (Hr & earlier & E).
  rewrite E in Ec, Hnd. rewrite (replace_last earlier m updated Hnd Hid) in Ec.
  split.
  - split; [|split].
    + rewrite Ec, map_app. cbn [map]. rewrite Hid.
      rewrite map_app in Hnd. exact Hnd.
    + intros x Hx. rewrite Ec in Hx. rewrite En.
      apply in_app_or in Hx. destruct Hx as [Hx | [<- | []]].
      * apply Hids. rewrite E. apply in_or_app. now left.
      * rewrite Hid. apply Hids. rewrite E. apply in_or_app. right. now left.
    + rewrite Ei'. split; [congruence | exists earlier; exact Ec].
  - unfold keeps_settled, settled. rewrite Ei, Ei', Ec, E, !removelast_last.
    exists []. now rewrite app_nil_r.
Qed.

Lemma spread_id m u : id (spread m u) = id m.
Proof. now destruct u. Qed.

Lemma spread_role m u : role (spread m u) = role m.
Proof. now destruct u. Qed.

Lemma preserves_update_open (updates : Updates) :
  preserves
    (bind (gets incomingMessageRef)
       (fun current =>
          match current with
          | None => ret tt
          | Some incoming =>
              let updated := spread incoming updates in
              bind (modify (setIncoming (Some updated)))
                (fun _ =>
                   modify (setChatMessages
                             (map (fun item =>
                                     if id item =? id updated then updated else item))))
          end)).
Proof.
  intros st Hwf. unfold bind, gets, modify.
  destruct (incomingMessageRef st) as [m|] eqn:Ei; cbn.
  - apply (well_formed_replace st _ m (spread m updates) Hwf Ei);
      cbn; auto using spread_id, spread_role.
  - split; [exact Hwf | apply keeps_settled_refl].
Qed.

Lemma preserves_updateIncomingMessage updates :
  preserves (updateIncomingMessage updates).
Proof.
  unfold updateIncomingMessage.
  apply preserves_bind; [apply preserves_gets|]. intros current.
  apply preserves_bind.
  - destruct current; [apply preserves_ret|].
    apply preserves_bind; [apply preserves_ensureIncomingMessage|].
    intros _. apply preserves_ret.
  - intros _. apply preserves_update_open.
Qed.

Lemma preserves_finalizeIncomingMessage : preserves finalizeIncomingMessage.
Proof.
  intros st Hwf. unfold finalizeIncomingMessage, bind, gets, modify.
  destruct (incomingMessageRef st) as [m|] eqn:Ei; cbn.
  - pose proof Hwf as (Hnd & Hids & Hlast).
    rewrite Ei in Hlast. destruct Hlast as (Hr & earlier & E).
    assert (Emap : map (fun item => if id item =? id m then m else item) (chatMessages st)
                   = chatMessages st).
    { rewrite E. rewrite E in Hnd. now apply replace_last. }
    split.
    + unfold well_formed. cbn. rewrite Emap. auto.
    + unfold keeps_settled, settled. cbn. rewrite Emap, Ei, E, removelast_last.
      now exists [m].
  - split; [exact Hwf | apply keeps_settled_refl].
Qed.

(** Dropping the reference to the open message settles it as it is. *)
Lemma preserves_forget_incoming : preserves (modify (setIncoming None)).
Proof.
  intros st Hwf. cbn [modify snd].
  destruct Hwf as (Hnd & Hids & Hlast).
  split.
  - unfold well_formed. cbn. auto.
  - unfold keeps_settled, settled. cbn.
    destruct (incomingMessageRef st) as [m|].
    + destruct Hlast as (_ & earlier & E). rewrite E, removelast_last. now exists [m].
    + exists []. now rewrite app_nil_r.
Qed.

Lemma preserves_clearScheduledAudio : preserves clearScheduledAudio.
Proof.
  unfold clearScheduledAudio.
  apply preserves_bind; [apply preserves_gets|]. intros sources.
  apply preserves_bind; [|intros _];
    apply preserves_modify_frame; intros ?; cbn; auto.
Qed.

Lemma preserves_playAudio audioData : preserves (playAudio audioData).
Proof.
  unfold playAudio.
  apply preserves_bind; [apply preserves_gets|]. intros ctx.
  destruct (negb ctx); [apply preserves_ret|].
  destruct (Nat.odd _); [apply preserves_throw|].
  destruct (_ =? 0)%nat; [apply preserves_ret|].
  apply preserves_bind; [apply preserves_gets|]. intros k.
  apply preserves_bind; [apply preserves_modify_frame; intros ?; cbn; auto|]. intros _.
  apply preserves_bind; [apply preserves_gets|]. intros start.
  apply preserves_bind; [apply preserves_gets|]. intros sources.
  apply preserves_modify_frame; intros ?; cbn; auto.
Qed.

Lemma preserves_setCurrentSpeaker sp : preserves (modify (setCurrentSpeaker sp)).
Proof. apply preserves_modify_frame; intros ?; cbn; auto. Qed.

(** Forgetting the open message and appending the user message
    (lines 368-376). *)
Lemma preserves_append_user (text : value) :
  preserves
    (bind (modify (setIncoming None))
       (fun _ =>
          bind (gets idsDrawn)
            (fun n =>
               bind (modify drawId)
                 (fun _ =>
                    modify (setChatMessages
                              (fun prev =>
                                 prev ++ [mkMessage (gen_id n) user text None None])))))).
Proof.
  intros st Hwf. unfold bind, gets, modify. cbn.
  apply (append_fresh st user text None None (fun s => s) Hwf); cbn; auto.
Qed.

Lemma preserves_lift {A} (r : result A) : preserves (lift r).
Proof.
  intros st Hwf. unfold lift.
  destruct r; cbn; (split; [exact Hwf | apply keeps_settled_refl]).
Qed.

Lemma preserves_appendTranscriptText text : preserves (appendTranscriptText text).
Proof.
  unfold appendTranscriptText.
  apply preserves_bind; [apply preserves_ensureIncomingMessage|]. intros _.
  apply preserves_bind; [apply preserves_gets|]. intros current.
  apply preserves_bind; [apply preserves_lift|]. intros combined.
  apply preserves_updateIncomingMessage.
Qed.

Lemma preserves_handleTranscriptMessage payload :
  preserves (handleTranscriptMessage payload).
Proof.
  unfold handleTranscriptMessage.
  apply preserves_bind; [apply preserves_lift|]. intros text.
  destruct (negb _); [apply preserves_ret|].
  apply preserves_bind; [apply preserves_lift|]. intros parsed.
  apply preserves_bind; [apply preserves_lift|]. intros isFinal.
  destruct (match parsed with Some r => r | None => user end).
  - destruct isFinal; [|apply preserves_ret].
    apply preserves_bind; [apply preserves_setCurrentSpeaker|]. intros _.
    apply preserves_bind; [apply preserves_clearScheduledAudio|]. intros _.
    apply preserves_append_user.
  - apply preserves_appendTranscriptText.
Qed.

Lemma preserves_appendResponseText text : preserves (appendResponseText text).
Proof.
  unfold appendResponseText.
  apply preserves_bind; [apply preserves_setCurrentSpeaker|]. intros _.
  apply preserves_bind; [apply preserves_ensureIncomingMessage|]. intros _.
  apply preserves_bind; [apply preserves_gets|]. intros current.
  apply preserves_bind; [apply preserves_lift|]. intros combined.
  apply preserves_updateIncomingMessage.
Qed.

Lemma preserves_processAudio audioBuffer : preserves (processAudio audioBuffer).
Proof.
  unfold processAudio.
  apply preserves_bind; [apply preserves_setCurrentSpeaker|]. intros _.
  apply preserves_bind; [apply preserves_ensureIncomingMessage|]. intros _.
  apply preserves_bind; [apply preserves_gets|]. intros current.
  apply preserves_bind; [apply preserves_updateIncomingMessage|]. intros _.
  apply preserves_playAudio.
Qed.

Lemma preserves_handleResponse response : preserves (handleResponse response).
Proof.
  unfold handleResponse.
  destruct (negb _); [apply preserves_ret|].
  apply preserves_bind; [apply preserves_lift|]. intros typeText.
  apply preserves_bind.
  { destruct (_ || _); [|apply preserves_ret].
    apply preserves_bind; [apply preserves_lift|]. intros [text|];
      [|apply preserves_ret].
    destruct (negb _); [apply preserves_appendResponseText | apply preserves_ret]. }
  intros _. apply preserves_bind; [apply preserves_lift|]. intros [bytes|].
  - apply preserves_bind; [apply preserves_processAudio|]. intros _.
    apply preserves_bind; [apply preserves_lift|]. intros complete.
    destruct complete;
      [apply preserves_finalizeIncomingMessage | apply preserves_ret].
  - apply preserves_bind; [apply preserves_ret|]. intros _.
    apply preserves_bind; [apply preserves_lift|]. intros complete.
    destruct complete;
      [apply preserves_finalizeIncomingMessage | apply preserves_ret].
Qed.

Lemma preserves_handleAgentResponse payload :
  preserves (handleAgentResponse payload).
Proof.
  unfold handleAgentResponse.
  destruct (extractResponses payload) as [|r rest]; [apply preserves_ret|].
  apply preserves_bind; [apply preserves_forEach, preserves_handleResponse|].
  intros _.
  apply preserves_bind; [apply preserves_lift|]. intros complete.
  destruct complete;
    [apply preserves_finalizeIncomingMessage | apply preserves_ret].
Qed.

Lemma preserves_dispatchPayload data : preserves (dispatchPayload data).
Proof.
  unfold dispatchPayload.
  destruct (JSON_parse data) as [payload|]; [|apply preserves_throw].
  destruct (coalesce _ _); try apply preserves_throw.
  repeat match goal with
         | |- preserves (if ?c then _ else _) => destruct c
         end;
    first [ apply preserves_ret
          | apply preserves_throw
          | apply preserves_handleTranscriptMessage
          | apply preserves_handleAgentResponse
          | apply preserves_finalizeIncomingMessage
          | apply preserves_modify_frame; intros ?; cbn; auto ].
Qed.

Lemma preserves_handleUpstreamMessage data : preserves (handleUpstreamMessage data).
Proof.
  destruct data; cbn [handleUpstreamMessage].
  - apply preserves_try_catch, preserves_dispatchPayload.
  - apply preserves_processAudio.
  - apply preserves_ret.
Qed.

Lemma preserves_handleSocketClose : preserves handleSocketClose.
Proof.
  unfold handleSocketClose.
  do 3 (apply preserves_bind;
        [apply preserves_modify_frame; intros ?; cbn; auto | intros _]).
  apply preserves_bind; [apply preserves_forget_incoming|]. intros _.
  apply preserves_clearScheduledAudio.
Qed.

Lemma preserves_updateVoice newVoice : preserves (updateVoice newVoice).
Proof.
  unfold updateVoice.
  apply preserves_bind; [apply preserves_gets|]. intros v.
  destruct (newVoice =? v); [apply preserves_ret|].
  apply preserves_bind; [apply preserves_modify_frame; intros ?; cbn; auto|].
  intros _. apply preserves_forget_incoming.
Qed.

Lemma preserves_run (op : Operation) : preserves (run op).
Proof.
  destruct op; cbn [run].
  - apply preserves_bind; [apply preserves_ensureIncomingMessage|].
    intros _. apply preserves_ret.
  - apply preserves_updateIncomingMessage.
  - apply preserves_finalizeIncomingMessage.
  - apply preserves_handleTranscriptMessage.
  - apply preserves_handleAgentResponse.
  - apply preserves_handleUpstreamMessage.
  - apply preserves_handleSocketClose.
  - apply preserves_handleSocketClose.
  - apply preserves_updateVoice.
Qed.


(** Every state the provider goes through satisfies the invariant. *)
Theorem reachable_well_formed (st : State) : reachable st -> well_formed st.
Proof.
  induction 1 as [defaultVoice | op st _ IH].
  - split; [|split]; cbn; [constructor | intros m [] | exact I].
  - exact (proj1 (preserves_run op st IH)).
Qed.

End Invariant.

(* ================================================================== *)
(** ** White space in texts                                            *)
(* ================================================================== *)

Module TextFacts.

Import Spec.

Lemma tokens_space c r : is_space c = true -> tokens (String c r) = tokens r.
Proof. intros E. cbn [tokens]. now rewrite E. Qed.

(** A text that starts with a visible character has a first token that
    starts with it. *)
Lemma tokens_visible c r :
  is_space c = false ->
  exists w ws, tokens (String c r) = String c w :: ws
               /\ (tokens r = ws /\ w = EmptyString /\ (r = EmptyString \/ exists c' r', r = String c' r' /\ is_space c' = true)
                   \/ tokens r = w :: ws /\ exists c' r', r = String c' r' /\ is_space c' = false).
Proof.
  intros E. cbn [tokens]. rewrite E.
  destruct r as [|c' r'].
  - exists EmptyString, []. split; [reflexivity|]. left. repeat split. now left.
  - destruct (is_space c') eqn:E'.
    + exists EmptyString, (tokens (String c' r')). split; [reflexivity|].
      left. repeat split. right. now exists c', r'.
    + destruct (tokens (String c' r')) as [|w ws] eqn:Et.
      * exfalso. cbn [tokens] in Et. rewrite E' in Et.
        destruct r' as [|c'' r'']; [discriminate|].
        destruct (is_space c''); [discriminate|].
        destruct (tokens (String c'' r'')); discriminate.
      * exists w, ws. split; [reflexivity|]. right. split; [reflexivity|].
        now exists c', r'.
Qed.

Lemma tokens_nil_blank s : tokens s = [] <-> blank s = true.
Proof.
  induction s as [|c r IH]; [now split|].
  cbn [blank]. destruct (is_space c) eqn:E.
  - rewrite (tokens_space c r E). exact IH.
  - destruct (tokens_visible c r E) as (w & ws & -> & _). now split.
Qed.

Lemma tokens_app_space a b :
  tokens (a ++ String " "%char b) = tokens a ++ tokens b.
Proof.
  induction a as [|c r IH].
  - reflexivity.
  - change (String c r ++ String " "%char b)%string
      with (String c (r ++ String " "%char b)).
    destruct (is_space c) eqn:E.
    + now rewrite !tokens_space by exact E.
    + cbn [tokens]. rewrite E.
      destruct r as [|c' r'].
      * reflexivity.
      * change (String c' r' ++ String " "%char b)%string
          with (String c' (r' ++ String " "%char b)) in *.
        destruct (is_space c') eqn:E'.
        -- now rewrite E', IH.
        -- rewrite E', IH.
           destruct (tokens_visible c' r' E') as (w & ws & -> & _). reflexivity.
Qed.

Lemma joined_cons t ts :
  ts <> [] -> joined (t :: ts) = (t ++ String " "%char (joined ts))%string.
Proof. destruct ts; [congruence | reflexivity]. Qed.

Lemma tokens_joined texts : tokens (joined texts) = flat_map tokens texts.
Proof.
  induction texts as [|t ts IH]; [reflexivity|].
  destruct ts as [|t' ts'].
  - cbn. now rewrite app_nil_r.
  - rewrite joined_cons by discriminate.
    rewrite tokens_app_space, IH. reflexivity.
Qed.

(** *** [trimEnd], [trimStart] *)

Lemma trimEnd_visible c r :
  is_space c = false -> trimEnd (String c r) = String c (trimEnd r).
Proof. intros E. cbn [trimEnd]. rewrite E. now destruct (trimEnd r). Qed.

Lemma trimEnd_space c r :
  is_space c = true ->
  trimEnd (String c r) =
    match trimEnd r with
    | EmptyString => EmptyString
    | r' => String c r'
    end.
Proof. intros E. cbn [trimEnd]. now rewrite E. Qed.

Lemma trimEnd_idempotent s : trimEnd (trimEnd s) = trimEnd s.
Proof.
  induction s as [|c r IH]; [reflexivity|].
  cbn [trimEnd].
  destruct (trimEnd r) as [|d r'] eqn:Er.
  - destruct (is_space c) eqn:E; [reflexivity|].
    cbn [trimEnd]. now rewrite E.
  - cbn [trimEnd]. cbn [trimEnd] in IH. now rewrite IH.
Qed.

Lemma trimStart_idempotent s : trimStart (trimStart s) = trimStart s.
Proof.
  induction s as [|c r IH]; [reflexivity|].
  cbn [trimStart]. destruct (is_space c) eqn:E; [exact IH|].
  cbn [trimStart]. now rewrite E.
Qed.

Lemma trimEnd_nil_blank s : trimEnd s = EmptyString <-> blank s = true.
Proof.
  induction s as [|c r IH]; [now split|].
  cbn [trimEnd blank].
  destruct (trimEnd r) as [|d r'] eqn:Er.
  - destruct (is_space c); cbn [andb].
    + split; [intros _; now apply IH | reflexivity].
    + split; discriminate.
  - split; [discriminate|]. intros Hb. apply andb_prop in Hb.
    destruct Hb as [_ Hb]. apply IH in Hb. discriminate.
Qed.

(** Trimming the start keeps a text that has no white space at its end. *)
Lemma trimEnd_trimStart s : trimEnd s = s -> trimEnd (trimStart s) = trimStart s.
Proof.
  induction s as [|c r IH]; [reflexivity|].
  intros Hfix. cbn [trimStart]. destruct (is_space c) eqn:E; [|exact Hfix].
  apply IH. rewrite (trimEnd_space c r E) in Hfix.
  destruct (trimEnd r); [discriminate | now injection Hfix].
Qed.

Lemma trim_idempotent s : trim (trim s) = trim s.
Proof.
  unfold trim.
  rewrite (trimEnd_trimStart (trimEnd s) (trimEnd_idempotent s)).
  apply trimStart_idempotent.
Qed.

Lemma tokens_trimStart s : tokens (trimStart s) = tokens s.
Proof.
  induction s as [|c r IH]; [reflexivity|].
  cbn [trimStart]. destruct (is_space c) eqn:E; [|reflexivity].
  now rewrite (tokens_space c r E).
Qed.

Lemma tokens_trimEnd s : tokens (trimEnd s) = tokens s.
Proof.
  induction s as [|c r IH]; [reflexivity|].
  destruct (is_space c) eqn:E.
  - rewrite (trimEnd_space c r E), (tokens_space c r E), <- IH.
    destruct (trimEnd r); [reflexivity | now apply tokens_space].
  - rewrite (trimEnd_visible c r E).
    cbn [tokens]. rewrite E, IH.
    destruct r as [|c' r']; [reflexivity|].
    destruct (is_space c') eqn:E'.
    + rewrite (trimEnd_space c' r' E').
      destruct (trimEnd r') as [|d r''] eqn:Er.
      * apply trimEnd_nil_blank in Er.
        assert (Hb : blank (String c' r') = true) by (cbn [blank]; now rewrite E', Er).
        apply tokens_nil_blank in Hb. now rewrite Hb.
      * now rewrite E'.
    + rewrite (trimEnd_visible c' r' E'). now rewrite E'.
Qed.

Lemma tokens_trim s : tokens (trim s) = tokens s.
Proof. unfold trim. now rewrite tokens_trimStart, tokens_trimEnd. Qed.

(** *** Normalising is joining the tokens *)

Lemma joined_nil_iff l : Forall (fun w => w <> EmptyString) l ->
  joined l = EmptyString -> l = [].
Proof.
  intros Hall. destruct Hall as [|w ws Hw _]; [reflexivity|].
  destruct ws; cbn.
  - intros E. contradiction.
  - destruct w; [contradiction | discriminate].
Qed.

Lemma tokens_nonempty s : Forall (fun w => w <> EmptyString) (tokens s).
Proof.
  induction s as [|c r IH]; [constructor|].
  destruct (is_space c) eqn:E.
  - now rewrite (tokens_space c r E).
  - destruct (tokens_visible c r E) as (w & ws & -> & [(<- & _) | (Er & _)]).
    + constructor; [discriminate | exact IH].
    + rewrite Er in IH. inversion IH; subst. constructor; [discriminate | assumption].
Qed.

Lemma collapse_visible b c r :
  is_space c = false -> collapse_from b (String c r) = String c (collapse_from false r).
Proof. intros E. cbn [collapse_from]. now rewrite E. Qed.

Lemma trimEnd_collapse s :
  trimEnd (collapse_from true s) = joined (tokens s).
Proof.
  induction s as [|c r IH]; [reflexivity|].
  destruct (is_space c) eqn:E.
  - rewrite (tokens_space c r E). cbn [collapse_from]. now rewrite E.
  - rewrite (collapse_visible true c r E).
    assert (Hsp : is_space " "%char = true) by reflexivity.
    rewrite (trimEnd_visible c _ E).
    destruct (tokens_visible c r E)
      as (w & ws & -> & [(Er & -> & Hr) | (Er & c' & r' & -> & E')]).
    + (* the token ends here *)
      destruct Hr as [-> | (c' & r' & -> & E')]; [cbn in Er; subst ws; reflexivity|].
      cbn [collapse_from]. rewrite E'.
      rewrite (trimEnd_space " "%char _ Hsp).
      cbn [collapse_from] in IH. rewrite E' in IH. rewrite IH, Er.
      pose proof (tokens_nonempty (String c' r')) as Hne. rewrite Er in Hne.
      destruct ws as [|w' ws']; [reflexivity|].
      rewrite (joined_cons (String c EmptyString) (w' :: ws')) by discriminate.
      destruct (joined (w' :: ws')) eqn:Ej; [|reflexivity].
      apply (joined_nil_iff _ Hne) in Ej. discriminate.
    + (* the token goes on *)
      rewrite (collapse_visible false c' r' E').
      rewrite (collapse_visible true c' r' E') in IH.
      rewrite IH, Er. destruct ws; reflexivity.
Qed.

Lemma trimStart_joined_tokens s : trimStart (joined (tokens s)) = joined (tokens s).
Proof.
  destruct s as [|c r]; [reflexivity|].
  induction (String c r) as [|d s' IH]; [reflexivity|].
  destruct (is_space d) eqn:E.
  - now rewrite (tokens_space d s' E).
  - destruct (tokens_visible d s' E) as (w & ws & -> & _).
    destruct ws; cbn [joined String.concat append trimStart]; now rewrite E.
Qed.

Lemma normalize_tokens s : normalize s = joined (tokens s).
Proof.
  unfold normalize, trim, collapse_spaces.
  assert (E : trimStart (trimEnd (collapse_from false s))
              = trimStart (trimEnd (collapse_from true s))).
  { destruct s as [|c r]; [reflexivity|].
    cbn [collapse_from]. destruct (is_space c) eqn:Ec; [|reflexivity].
    rewrite (trimEnd_space " "%char _ eq_refl).
    destruct (trimEnd (collapse_from true r)); reflexivity. }
  rewrite E, trimEnd_collapse. apply trimStart_joined_tokens.
Qed.

Lemma tokens_words s : Forall word (tokens s).
Proof.
  induction s as [|c r IH]; [constructor|].
  destruct (is_space c) eqn:E.
  - now rewrite (tokens_space c r E).
  - destruct (tokens_visible c r E)
      as (w & ws & -> & [(Er & -> & _) | (Er & c' & r' & -> & E')]).
    + constructor; [|now rewrite <- Er].
      unfold word. cbn [tokens]. now rewrite E.
    + rewrite Er in IH. inversion IH as [|? ? Hw Hws]; subst.
      constructor; [|exact Hws].
      unfold word in *. cbn [tokens]. rewrite E.
      destruct w as [|d w'].
      * reflexivity.
      * destruct (is_space d) eqn:Ed.
        -- rewrite (tokens_space d w' Ed) in Hw.
           exfalso. clear - Hw Ed.
           assert (Hlen : forall s, Forall (fun t => String.length t <= String.length s)%nat (tokens s)).
           { clear. induction s as [|c r IH]; [constructor|].
             destruct (is_space c) eqn:E.
             - rewrite (tokens_space c r E).
               eapply Forall_impl; [|exact IH]. cbn. intros; lia.
             - destruct (tokens_visible c r E) as (w & ws & -> & [(<- & -> & _) | (Er & _)]).
               + constructor; [cbn; lia|].
                 eapply Forall_impl; [|exact IH]. cbn. intros; lia.
               + rewrite Er in IH. inversion IH; subst.
                 constructor; [cbn; lia|].
                 eapply Forall_impl; [|eassumption]. cbn. intros; lia. }
           specialize (Hlen w'). rewrite Hw in Hlen. inversion Hlen; subst.
           cbn in *. lia.
        -- now rewrite Hw.
Qed.

Lemma tokens_joined_words l : Forall word l -> tokens (joined l) = l.
Proof.
  intros Hall. rewrite tokens_joined.
  induction Hall as [|w ws Hw _ IH]; [reflexivity|].
  cbn [flat_map]. rewrite Hw, IH. reflexivity.
Qed.

Lemma tokens_normalize s : tokens (normalize s) = tokens s.
Proof. rewrite normalize_tokens. apply tokens_joined_words, tokens_words. Qed.

Lemma normalize_eq_of_tokens a b : tokens a = tokens b -> normalize a = normalize b.
Proof. intros E. now rewrite !normalize_tokens, E. Qed.

Lemma trim_normalize s : trim (normalize s) = normalize s.
Proof. unfold normalize. apply trim_idempotent. Qed.

End TextFacts.

(* ================================================================== *)
(** ** Accumulating text deltas                                        *)
(* ================================================================== *)

Module StepFacts.

Import Spec TextFacts.

Lemma spaced c t : (c ++ " " ++ t)%string = (c ++ String " "%char t)%string.
Proof. reflexivity. Qed.

Lemma tokens_transcriptStep c t :
  tokens (transcriptStep c t) = tokens c ++ tokens t.
Proof.
  unfold transcriptStep. destruct (c =? "") eqn:E.
  - apply String.eqb_eq in E. now subst c.
  - now rewrite tokens_normalize, spaced, tokens_app_space.
Qed.

Lemma tokens_responseStep c t :
  tokens (responseStep c t) = tokens c ++ tokens t.
Proof.
  unfold responseStep. destruct (c =? "") eqn:E.
  - apply String.eqb_eq in E. now subst c.
  - now rewrite tokens_trim, spaced, tokens_app_space.
Qed.

Lemma tokens_fold (step : string -> string -> string) :
  (forall c t, tokens (step c t) = tokens c ++ tokens t) ->
  forall texts c,
    tokens (fold_left step texts c) = tokens c ++ flat_map tokens texts.
Proof.
  intros Hstep texts. induction texts as [|t ts IH]; intros c; cbn.
  - now rewrite app_nil_r.
  - now rewrite IH, Hstep, app_assoc.
Qed.

Lemma fold_normalize (step : string -> string -> string) texts :
  (forall c t, tokens (step c t) = tokens c ++ tokens t) ->
  normalize (fold_left step texts "") = normalize (joined texts).
Proof.
  intros Hstep. apply normalize_eq_of_tokens.
  now rewrite (tokens_fold step Hstep), tokens_joined.
Qed.

(** After a first text that is not blank, the content is never empty. *)
Lemma fold_visible (step : string -> string -> string) t1 more :
  (forall c t, tokens (step c t) = tokens c ++ tokens t) ->
  blank t1 = false ->
  (fold_left step (t1 :: more) "" =? "") = false.
Proof.
  intros Hstep Hb.
  destruct (fold_left step (t1 :: more) "" =? "") eqn:E; [|reflexivity].
  apply String.eqb_eq in E.
  pose proof (tokens_fold step Hstep (t1 :: more) "") as Ht.
  rewrite E in Ht. cbn in Ht.
  destruct (tokens t1) eqn:E1; [|discriminate].
  apply tokens_nil_blank in E1. congruence.
Qed.

Lemma split_last {A} (x y : A) (rest : list A) :
  exists init last, x :: y :: rest = (x :: init) ++ [last].
Proof.
  destruct (exists_last (l := y :: rest)) as (init & last & E); [discriminate|].
  exists init, last. now rewrite E.
Qed.

Lemma transcript_fold_normalized t1 t2 rest :
  blank t1 = false ->
  fold_left transcriptStep (t1 :: t2 :: rest) "" = normalize (joined (t1 :: t2 :: rest)).
Proof.
  intros Hb. destruct (split_last t1 t2 rest) as (init & last & E).
  rewrite E, fold_left_app. cbn [fold_left].
  set (c := fold_left transcriptStep init (transcriptStep "" t1)).
  assert (Hc : (c =? "") = false)
    by exact (fold_visible transcriptStep t1 init tokens_transcriptStep Hb).
  unfold transcriptStep. rewrite Hc.
  apply normalize_eq_of_tokens.
  rewrite spaced, tokens_app_space, tokens_joined, flat_map_app. cbn [flat_map].
  rewrite app_nil_r. f_equal.
  exact (tokens_fold transcriptStep tokens_transcriptStep (t1 :: init) "").
Qed.

Lemma response_fold_trimmed t1 t2 rest :
  blank t1 = false ->
  trim (fold_left responseStep (t1 :: t2 :: rest) "")
  = fold_left responseStep (t1 :: t2 :: rest) "".
Proof.
  intros Hb. destruct (split_last t1 t2 rest) as (init & last & E).
  rewrite E, fold_left_app. cbn [fold_left].
  set (c := fold_left responseStep init (responseStep "" t1)).
  assert (Hc : (c =? "") = false)
    by exact (fold_visible responseStep t1 init tokens_responseStep Hb).
  unfold responseStep. rewrite Hc. apply trim_idempotent.
Qed.

End StepFacts.

Section TextDeltas.
Context `{Host}.

Import Spec.

Lemma open_with_appending st c : open_with st c -> appending_to st c.
Proof. intros (m & Hm & Hc). unfold appending_to. now rewrite Hm. Qed.

Ltac run_step :=
  cbn;
  repeat match goal with
         | |- context [(?c =? "")%string] => destruct (c =? "")%string; cbn
         end;
  (split; [reflexivity | eexists; split; reflexivity]).

Lemma appendTranscriptText_step st c t :
  appending_to st c ->
  fst (appendTranscriptText (VStr t) st) = Returned tt
  /\ open_with (exec (appendTranscriptText (VStr t)) st) (transcriptStep c t).
Proof.
  intros Hc. destruct st as [cn vo sp mic cm ctx sched start inc ids clk stp].
  unfold appending_to in Hc. cbn in Hc.
  unfold open_with, exec, appendTranscriptText, ensureIncomingMessage,
    updateIncomingMessage, bind, gets, modify, ret, transcriptStep, normalize.
  destruct inc as [[i r ct a v]|]; cbn in Hc; subst; run_step.
Qed.

Lemma appendResponseText_step st c t :
  appending_to st c ->
  fst (appendResponseText t st) = Returned tt
  /\ open_with (exec (appendResponseText t) st) (responseStep c t).
Proof.
  intros Hc. destruct st as [cn vo sp mic cm ctx sched start inc ids clk stp].
  unfold appending_to in Hc. cbn in Hc.
  unfold open_with, exec, appendResponseText, ensureIncomingMessage,
    updateIncomingMessage, bind, gets, modify, ret, responseStep.
  destruct inc as [[i r ct a v]|]; cbn in Hc; subst; run_step.
Qed.

Lemma handleTranscriptMessage_model payload t :
  modelTranscript payload t ->
  handleTranscriptMessage payload = appendTranscriptText (VStr t).
Proof.
  intros (Htext & Hne & Hspeaker & final & Hfinal). unfold handleTranscriptMessage.
  rewrite Htext, Hspeaker, Hfinal. unfold bind, lift. cbn [truthy negb].
  apply String.eqb_neq in Hne. now rewrite Hne.
Qed.

Lemma handleResponse_text response t st :
  textResponse response t ->
  handleResponse response st = appendResponseText t st.
Proof.
  intros (Htruthy & Htext & Haudio & Hdone).
  unfold handleResponse, textActions in *.
  rewrite Htruthy, Haudio, Hdone. cbn [negb]. unfold bind, lift.
  destruct (ToString _) as [typeText|]; [|discriminate].
  cbv beta iota zeta.
  destruct (_ || _); [|discriminate].
  destruct (textFromResponse response) as [[text|]|]; try discriminate.
  destruct (negb (text =? "")); [|discriminate].
  injection Htext as ->.
  destruct (appendResponseText t st) as [[[]|] st1]; reflexivity.
Qed.

Lemma handleTranscriptMessage_step payload t st c :
  modelTranscript payload t ->
  appending_to st c ->
  fst (handleTranscriptMessage payload st) = Returned tt
  /\ open_with (exec (handleTranscriptMessage payload) st) (transcriptStep c t).
Proof.
  intros Hrel Hc. rewrite (handleTranscriptMessage_model payload t Hrel).
  now apply appendTranscriptText_step.
Qed.

Lemma handleResponse_step response t st c :
  textResponse response t ->
  appending_to st c ->
  fst (handleResponse response st) = Returned tt
  /\ open_with (exec (handleResponse response) st) (responseStep c t).
Proof.
  intros Hrel Hc. unfold exec. rewrite (handleResponse_text response t st Hrel).
  now apply appendResponseText_step.
Qed.

(** A sequence of handlers that each append one text. *)
Lemma forEach_steps {A} (handler : A -> M unit) (step : string -> string -> string)
    (related : A -> string -> Prop) :
  (forall a t st c, related a t -> appending_to st c ->
     fst (handler a st) = Returned tt
     /\ open_with (exec (handler a) st) (step c t)) ->
  forall inputs texts, Forall2 related inputs texts ->
  forall st c, open_with st c ->
    open_with (exec (forEach handler inputs) st) (fold_left step texts c).
Proof.
  intros Hstep inputs texts Hall.
  induction Hall as [|a t inputs texts Hrel _ IH]; intros st c Hc.
  - exact Hc.
  - cbn [forEach fold_left]. unfold exec, bind.
    destruct (Hstep a t st c Hrel (open_with_appending st c Hc)) as (Hret & Hopen).
    unfold exec in Hopen.
    destruct (handler a st) as [[[]|] st1]; cbn [fst snd] in *; [|discriminate].
    now apply IH.
Qed.

Lemma forEach_steps_from_closed {A} (handler : A -> M unit)
    (step : string -> string -> string) (related : A -> string -> Prop) :
  (forall a t st c, related a t -> appending_to st c ->
     fst (handler a st) = Returned tt
     /\ open_with (exec (handler a) st) (step c t)) ->
  forall inputs texts, Forall2 related inputs texts -> texts <> [] ->
  forall st, incomingMessageRef st = None ->
    openContent (exec (forEach handler inputs) st)
    = Some (VStr (fold_left step texts "")).
Proof.
  intros Hstep inputs texts Hall Hne st Hclosed.
  destruct Hall as [|a t inputs texts Hrel Hall]; [congruence|].
  assert (Hstart : appending_to st "") by (unfold appending_to; now rewrite Hclosed).
  destruct (Hstep a t st "" Hrel Hstart) as (Hret & Hopen).
  cbn [forEach fold_left]. unfold exec, bind in *.
  destruct (handler a st) as [[[]|] st1]; cbn [fst snd] in *; [|discriminate].
  destruct (forEach_steps handler step related Hstep inputs texts Hall st1 _ Hopen)
    as (m & Hm & Hc).
  unfold exec in Hm. unfold openContent. rewrite Hm. cbn. now rewrite Hc.
Qed.

(** C7, amended: texts appended to one model message, opened by the first
    of them.  On either path the content, once normalised, is the normalised
    join of the texts with single spaces; a single text is stored as it
    came.  After two or more texts, the first not blank: on the transcript
    path the content is exactly that normalised join; on the response path
    it has no white space at either end. *)
Theorem text_deltas_accumulate (texts : list string) (st : State) :
  incomingMessageRef st = None ->
  texts <> [] ->
  (forall payloads,
     Forall2 modelTranscript payloads texts ->
     exists c,
       openContent (exec (forEach handleTranscriptMessage payloads) st) = Some (VStr c)
       /\ normalize c = normalize (joined texts)
       /\ (forall t, texts = [t] -> c = t)
       /\ (forall t1 t2 rest, texts = t1 :: t2 :: rest -> blank t1 = false ->
             c = normalize (joined texts)))
  /\ (forall responses,
        Forall2 textResponse responses texts ->
        exists c,
          openContent (exec (forEach handleResponse responses) st) = Some (VStr c)
          /\ normalize c = normalize (joined texts)
          /\ (forall t, texts = [t] -> c = t)
          /\ (forall t1 t2 rest, texts = t1 :: t2 :: rest -> blank t1 = false ->
                trim c = c)).
Proof.
  intros Hclosed Hne.
  split.
  - intros payloads Hpayloads.
    exists (fold_left transcriptStep texts "").
    split.
    { apply (forEach_steps_from_closed handleTranscriptMessage transcriptStep
               modelTranscript handleTranscriptMessage_step); assumption. }
    split; [apply StepFacts.fold_normalize, StepFacts.tokens_transcriptStep|].
    split; [intros t ->; reflexivity|].
    intros t1 t2 rest -> Hb. now apply StepFacts.transcript_fold_normalized.
  - intros responses Hresponses.
    exists (fold_left responseStep texts "").
    split.
    { apply (forEach_steps_from_closed handleResponse responseStep
               textResponse handleResponse_step); assumption. }
    split; [apply StepFacts.fold_normalize, StepFacts.tokens_responseStep|].
    split; [intros t ->; reflexivity|].
    intros t1 t2 rest -> Hb. now apply StepFacts.response_fold_trimmed.
Qed.

End TextDeltas.

(* ================================================================== *)
(** ** The order of the events of one payload                          *)
(* ================================================================== *)

Section EventOrder.
Context `{Host}.

Import Spec.

Lemma bind_ext {A B} (m m' : M A) (k k' : A -> M B) st :
  (forall s, m s = m' s) -> (forall a s, k a s = k' a s) ->
  bind m k st = bind m' k' st.
Proof.
  intros Hm Hk. unfold bind. rewrite Hm.
  destruct (m' st) as [[a|] s]; [apply Hk | reflexivity].
Qed.

Lemma bind_ret_tt (m : M unit) st : bind m (fun _ => ret tt) st = m st.
Proof. unfold bind, ret. now destruct (m st) as [[[]|] s]. Qed.

Lemma bind_assoc {A B C} (m : M A) (k : A -> M B) (k' : B -> M C) st :
  bind (bind m k) k' st = bind m (fun a => bind (k a) k') st.
Proof. unfold bind. now destruct (m st) as [[a|] s]. Qed.

Lemma forEach_app {A} (f : A -> M unit) (l1 l2 : list A) st :
  forEach f (l1 ++ l2) st = bind (forEach f l1) (fun _ => forEach f l2) st.
Proof.
  revert st. induction l1 as [|x rest IH]; intros st.
  - reflexivity.
  - cbn [app forEach]. rewrite bind_assoc.
    apply bind_ext; [reflexivity | intros _ s; apply IH].
Qed.

Lemma perform_textActions response (k : unit -> M unit) st :
  bind (forEach perform (textActions response)) k st =
  bind (lift (ToString (coalesce (getProp response "type")
                          (coalesce (getProp response "kind") (VStr "")))))
    (fun typeText =>
       bind (if includes "text" (toLowerCase typeText)
                || (toLowerCase typeText =? "message")
             then bind (lift (textFromResponse response))
                    (fun found =>
                       match found with
                       | Some text =>
                           if negb (text =? "") then appendResponseText text
                           else ret tt
                       | None => ret tt
                       end)
             else ret tt) k) st.
Proof.
  unfold textActions.
  destruct (ToString _) as [typeText|]; [|reflexivity].
  destruct (includes "text" (toLowerCase typeText)
            || (toLowerCase typeText =? "message")) eqn:E.
  - destruct (textFromResponse response) as [[text|]|] eqn:Et.
    + destruct (negb (text =? "")) eqn:En.
      * cbn [forEach perform]. unfold bind, lift, ret. rewrite E, En.
        now destruct (appendResponseText text st) as [[[]|] s].
      * unfold bind, lift. rewrite E, En. reflexivity.
    + unfold bind, lift. rewrite E. reflexivity.
    + unfold bind, lift. rewrite E. reflexivity.
  - unfold bind, lift. rewrite E. reflexivity.
Qed.

Lemma perform_audioActions response (k : unit -> M unit) st :
  bind (forEach perform (audioActions response)) k st =
  bind (lift (audioFromResponse response))
    (fun audioBuffer =>
       bind (match audioBuffer with
             | Some bytes => processAudio bytes
             | None => ret tt
             end) k) st.
Proof.
  unfold audioActions.
  destruct (audioFromResponse response) as [[bytes|]|]; try reflexivity.
  cbn [forEach perform]. unfold bind, lift, ret.
  now destruct (processAudio bytes st) as [[[]|] s].
Qed.

Lemma perform_completionActions v st :
  forEach perform (completionActions v) st =
  bind (lift (responseIsComplete v))
    (fun complete => if complete then finalizeIncomingMessage else ret tt) st.
Proof.
  unfold completionActions.
  destruct (responseIsComplete v) as [[|]|]; try reflexivity.
  cbn [forEach perform]. unfold bind, lift, ret.
  now destruct (finalizeIncomingMessage st) as [[[]|] s].
Qed.

(** The callback of [forEach] makes the updates of [responseActions], in
    that order, up to the first that throws. *)
Lemma handleResponse_performs response st :
  handleResponse response st = forEach perform (responseActions response) st.
Proof.
  unfold handleResponse, responseActions.
  destruct (negb (truthy response)); [reflexivity|].
  rewrite forEach_app, perform_textActions.
  apply bind_ext; [reflexivity|]. intros typeText s.
  apply bind_ext; [reflexivity|]. intros _ s'.
  rewrite forEach_app, perform_audioActions.
  apply bind_ext; [reflexivity|]. intros audioBuffer s''.
  apply bind_ext; [reflexivity|]. intros _ s3.
  symmetry. apply perform_completionActions.
Qed.

Lemma forEach_flat_map (responses : list value) st :
  forEach handleResponse responses st
  = forEach perform (flat_map responseActions responses) st.
Proof.
  revert st. induction responses as [|r rest IH]; intros st; [reflexivity|].
  cbn [forEach flat_map]. rewrite forEach_app.
  apply bind_ext; [apply handleResponse_performs | intros _ s; apply IH].
Qed.

(** [handleAgentResponse] makes the updates of [agentResponseActions], in
    that order, up to the first that throws. *)
Lemma handleAgentResponse_performs payload st :
  handleAgentResponse payload st = forEach perform (agentResponseActions payload) st.
Proof.
  unfold handleAgentResponse, agentResponseActions.
  destruct (extractResponses payload) as [|r rest]; [reflexivity|].
  rewrite forEach_app.
  apply bind_ext; [apply forEach_flat_map|]. intros _ s.
  symmetry. apply perform_completionActions.
Qed.

Lemma responseActions_split response :
  responseActions response = deltaActions response ++ completionActions response.
Proof.
  unfold responseActions, deltaActions.
  destruct (negb (truthy response)) eqn:E.
  - unfold completionActions, responseIsComplete. now rewrite E.
  - now rewrite app_assoc.
Qed.

Lemma responseActions_incomplete response :
  responseIsComplete response = Ok false ->
  responseActions response = deltaActions response.
Proof.
  intros E. rewrite responseActions_split. unfold completionActions.
  now rewrite E, app_nil_r.
Qed.

Lemma deltaActions_are_deltas response :
  Forall (fun a => is_delta a \/ a = Abort) (deltaActions response).
Proof.
  unfold deltaActions. destruct (negb _); [constructor|].
  apply Forall_app. split.
  - unfold textActions.
    destruct (ToString _); [|apply Forall_cons; [now right | constructor]].
    destruct (_ || _); [|constructor].
    destruct (textFromResponse response) as [[text|]|];
      [|constructor|apply Forall_cons; [now right | constructor]].
    destruct (negb _); [|constructor].
    apply Forall_cons; [left; exact I | constructor].
  - unfold audioActions.
    destruct (audioFromResponse response) as [[bytes|]|].
    + apply Forall_cons; [left; exact I | constructor].
    + constructor.
    + apply Forall_cons; [now right | constructor].
Qed.

Lemma completionActions_are_completions v :
  Forall (fun a => a = TurnComplete \/ a = Abort) (completionActions v).
Proof.
  unfold completionActions.
  destruct (responseIsComplete v) as [[|]|].
  - apply Forall_cons; [now left | constructor].
  - constructor.
  - apply Forall_cons; [now right | constructor].
Qed.

(** C4, amended: the handler makes the updates of [agentResponseActions],
    in that order and up to the first that throws: the events of the
    sub-objects in the order of the sub-objects, for each its text, then its
    audio, then its own completion, and the completion of the payload last;
    [Abort] stands where the handler throws on a field it cannot convert.
    The completion of a sub-object so comes before the data events of the
    sub-objects after it.  When no sub-object but the last is complete, all
    data events of the payload come first, followed only by completions. *)
Theorem agent_response_events (payload : value) :
  (forall st,
     handleAgentResponse payload st = forEach perform (agentResponseActions payload) st)
  /\ (extractResponses payload <> [] ->
      agentResponseActions payload
      = flat_map responseActions (extractResponses payload) ++ completionActions payload)
  /\ (forall r,
        responseActions r = deltaActions r ++ completionActions r
        /\ Forall (fun a => is_delta a \/ a = Abort) (deltaActions r)
        /\ Forall (fun a => a = TurnComplete \/ a = Abort) (completionActions r))
  /\ (forall earlier final,
        extractResponses payload = earlier ++ [final] ->
        Forall (fun r => responseIsComplete r = Ok false) earlier ->
        agentResponseActions payload
        = flat_map deltaActions (extractResponses payload)
          ++ completionActions final ++ completionActions payload).
Proof.
  split; [intros st; apply handleAgentResponse_performs|].
  split.
  { unfold agentResponseActions. now destruct (extractResponses payload). }
  split.
  { intros r. split; [apply responseActions_split|].
    split; [apply deltaActions_are_deltas | apply completionActions_are_completions]. }
  intros earlier final Hsplit Hearlier.
  unfold agentResponseActions. rewrite Hsplit.
  destruct (earlier ++ [final]) eqn:E; [now destruct earlier|]. rewrite <- E.
  rewrite !flat_map_app. cbn [flat_map]. rewrite !app_nil_r.
  rewrite responseActions_split, <- !app_assoc. f_equal.
  clear - Hearlier. induction Hearlier as [|r rest Hr _ IH]; [reflexivity|].
  cbn [flat_map]. now rewrite IH, responseActions_incomplete.
Qed.

End EventOrder.

(* ================================================================== *)
(** ** The properties at concrete inputs                               *)
(* ================================================================== *)

Lemma tally_injective (i j : nat) : Examples.tally i = Examples.tally j -> i = j.
Proof.
  revert j. induction i as [|i IH]; intros [|j]; cbn; try discriminate.
  - reflexivity.
  - intros E. injection E as E. f_equal. now apply IH.
Qed.

Lemma talking_well_formed : @Spec.well_formed Examples.plain_host Examples.talking.
Proof.
  split; [|split]; cbn.
  - repeat constructor. intros [].
  - intros m [<- | []]. exists 0%nat. split; [lia | reflexivity].
  - split; [reflexivity | now exists []].
Qed.

(** C8 at the final transcript "hello" of the user, while the model speaks. *)
Lemma final_user_transcript_barges_in_witness :
  incomingMessageRef
    (exec (@handleTranscriptMessage Examples.plain_host Examples.user_hello)
       Examples.talking) = None
  /\ scheduledAudioSourcesRef
       (exec (@handleTranscriptMessage Examples.plain_host Examples.user_hello)
          Examples.talking) = []
  /\ scheduledStartRef
       (exec (@handleTranscriptMessage Examples.plain_host Examples.user_hello)
          Examples.talking) = 0%Q
  /\ chatMessages
       (exec (@handleTranscriptMessage Examples.plain_host Examples.user_hello)
          Examples.talking)
     = [Examples.greeting; mkMessage "im" user (VStr "hello") None None].
Proof.
  destruct (@final_user_transcript_barges_in Examples.plain_host Examples.user_hello
              Examples.talking Examples.greeting (VStr "hello") (Some user) eq_refl
              ltac:(discriminate) eq_refl eq_refl eq_refl ltac:(discriminate) eq_refl)
    as (_ & Hopen & Hqueue & Hcursor & _ & Hchat & _).
  repeat split; assumption.
Defined.


(** C7 at the texts "Hi" and "there". *)
Lemma text_deltas_accumulate_witness :
  Spec.openContent
    (exec (forEach (@handleTranscriptMessage Examples.plain_host)
             [Examples.said "Hi"; Examples.said "there"]) Examples.start)
    = Some (VStr "Hi there")
  /\ exists c,
       Spec.openContent
         (exec (forEach (@handleResponse Examples.plain_host)
                  [Examples.text_response "Hi"; Examples.text_response "there"])
            Examples.start)
       = Some (VStr c)
       /\ Spec.normalize c = "Hi there"
       /\ trim c = c.
Proof.
  destruct (@text_deltas_accumulate Examples.plain_host ["Hi"; "there"]
              Examples.start eq_refl ltac:(discriminate))
    as (Htranscripts & Hresponses).
  destruct (Htranscripts [Examples.said "Hi"; Examples.said "there"])
    as (c & Hc & _ & _ & Hexact).
  { repeat (apply Forall2_cons;
            [split; [reflexivity|];
             split; [discriminate|];
             split; [reflexivity | exists false; reflexivity]|]).
    apply Forall2_nil. }
  destruct (Hresponses [Examples.text_response "Hi"; Examples.text_response "there"])
    as (c' & Hc' & Hnorm & _ & Htrim).
  { repeat (apply Forall2_cons; [repeat split|]). apply Forall2_nil. }
  split.
  - rewrite Hc, (Hexact "Hi" "there" [] eq_refl eq_refl). reflexivity.
  - exists c'. split; [exact Hc'|]. split; [exact Hnorm|].
    exact (Htrim "Hi" "there" [] eq_refl eq_refl).
Defined.

(** C7, as stated, fails: a first text is stored as it came, and the
    response path keeps the white space inside the texts. *)
Lemma text_delta_kept_verbatim :
  (forall host : Host,
     Spec.openContent (exec (@handleTranscriptMessage host (Examples.said "a  b"))
                    Examples.start) = Some (VStr "a  b"))
  /\ Spec.normalize "a  b" = "a b"
  /\ (forall host : Host,
        Spec.openContent
          (exec (forEach (@handleResponse host)
                   [Examples.text_response "a  b"; Examples.text_response "c"])
             Examples.start) = Some (VStr "a  b c")).
Proof.
  split; [intros host; reflexivity|].
  split; [reflexivity|].
  intros host. reflexivity.
Qed.

(** C4 at a payload with a text, then an audio sub-object, complete as a
    whole. *)
Lemma agent_response_events_witness :
  @agentResponseActions Examples.plain_host Examples.text_then_audio
  = [TextDelta "Hi"; AudioDelta [x48; x69]; TurnComplete].
Proof.
  destruct (@agent_response_events Examples.plain_host Examples.text_then_audio)
    as (_ & _ & _ & Hordered).
  rewrite (Hordered [Examples.text_response "Hi"]
             (VObj [("type", VStr "audio"); ("audio", VStr "SGk=")])
             eq_refl ltac:(repeat constructor)).
  reflexivity.
Defined.

(** C4, as stated, fails: the completion of the first sub-object comes
    before the text of the second, which is left in an open message. *)
Lemma completion_precedes_later_text :
  (forall host : Host,
     @agentResponseActions host Examples.done_then_text
     = [TextDelta "a"; TurnComplete; TextDelta "b"])
  /\ (forall host : Host,
        Spec.openContent (exec (@handleAgentResponse host Examples.done_then_text)
                       Examples.start) = Some (VStr "b")).
Proof.
  split; intros host; reflexivity.
Qed.

(* ================================================================== *)
(** ** Further properties                                              *)
(* ================================================================== *)

Section Further.
Context `{Host}.

(** [decodeBase64] gives back the bytes of a base64 text. *)
Theorem decodeBase64_inverts_encode (bytes : list byte) :
  decodeBase64 (Base64.encode bytes) = Some bytes.
Proof. apply Base64Facts.decodeBase64_encode. Qed.

(** While the upstream socket is open every client frame is sent upstream
    exactly once, a binary frame as it is; in any other ready state the
    frame is dropped. *)
Theorem onClientMessage_forwards_once (cfg : config.t) (data : Frame) :
  (exists sent, onClientMessage cfg OPEN data = [SendUpstream sent]
                /\ match data with
                   | Binary _ => sent = data
                   | Text _ => exists s, sent = Text s
                   end)
  /\ onClientMessage cfg CONNECTING data = []
  /\ onClientMessage cfg CLOSING data = []
  /\ onClientMessage cfg CLOSED data = [].
Proof.
  split; [|repeat split].
  destruct data as [s|b]; cbn [onClientMessage].
  - destruct (shouldInjectExternalLlm cfg).
    + destruct (injectExternalThinkSettings cfg s) as [mutated|].
      * destruct (negb (mutated =? "")); eexists; split; eauto.
      * eexists; split; eauto.
    + eexists; split; eauto.
  - eexists; split; reflexivity.
Qed.

End Further.

(** The invariant after the first event of a conversation. *)
Lemma reachable_well_formed_witness :
  @Spec.well_formed Examples.plain_host
    (exec (@Spec.run Examples.plain_host (Spec.agent_response Examples.says_hi))
       Examples.start).
Proof.
  apply (@reachable_well_formed Examples.plain_host tally_injective).
  apply (@Spec.reachable_step Examples.plain_host).
  apply (@Spec.reachable_start Examples.plain_host).
Defined.

(* ================================================================== *)
(** ** Properties of the audio samples                                 *)
(* ================================================================== *)

Module SampleFacts.

Import Samples.

Ltac quot_lia := zify; Z.to_euclidean_division_equations; nia.

Lemma ToInt16_in_range (q : Q) :
  (-32768 <= truncate q <= 32767)%Z -> ToInt16 (Finite q) = truncate q.
Proof.
  intros R. unfold ToInt16.
  rewrite Z.mod_small by lia. lia.
Qed.

(** The four stretches of the input and what [pcmSample] is on each. *)
Lemma pcmSample_cases (q : Q) :
  (Qle 1 q /\ pcmSample (Finite q) = 32767%Z)
  \/ (Qlt q (-1) /\ pcmSample (Finite q) = (-32768)%Z)
  \/ (Qle (-1) q /\ Qlt q 1 /\ (Qnum q < 0)%Z
      /\ pcmSample (Finite q) = Z.quot (Qnum q * 32768) (Zpos (Qden q)))
  \/ (Qlt q 1 /\ (0 <= Qnum q)%Z
      /\ pcmSample (Finite q) = Z.quot (Qnum q * 32767) (Zpos (Qden q))).
Proof.
  unfold pcmSample, Math_min, Math_max.
  destruct (Qle_bool 1 q) eqn:E1.
  - left. split; [now apply Qle_bool_iff|]. reflexivity.
  - assert (L1 : Qlt q 1).
    { apply Qnot_le_lt. intros C. apply Qle_bool_iff in C. congruence. }
    destruct (Qle_bool (-1) q) eqn:E2.
    + apply Qle_bool_iff in E2.
      unfold num_negative. destruct (Qnum q <? 0)%Z eqn:En.
      * right; right; left. apply Z.ltb_lt in En.
        repeat split; trivial.
        unfold times. rewrite ToInt16_in_range.
        -- unfold truncate. cbn [Qmult Qnum Qden inject_Z].
           now rewrite Pos.mul_1_r.
        -- unfold truncate. cbn [Qmult Qnum Qden inject_Z].
           rewrite Pos.mul_1_r. unfold Qle in E2. cbn in E2.
           quot_lia.
      * right; right; right. apply Z.ltb_ge in En.
        repeat split; trivial.
        unfold times. rewrite ToInt16_in_range.
        -- unfold truncate. cbn [Qmult Qnum Qden inject_Z].
           now rewrite Pos.mul_1_r.
        -- unfold truncate. cbn [Qmult Qnum Qden inject_Z].
           rewrite Pos.mul_1_r. unfold Qlt in L1. cbn in L1.
           quot_lia.
    + right; left. split; [|reflexivity].
      apply Qnot_le_lt. intros C. apply Qle_bool_iff in C. congruence.
Qed.

Lemma scaled_quot_le (n1 n2 k : Z) (d1 d2 : positive) :
  (0 <= k)%Z -> (n1 * Zpos d2 <= n2 * Zpos d1)%Z ->
  (Z.quot (n1 * k) (Zpos d1) <= Z.quot (n2 * k) (Zpos d2))%Z.
Proof.
  intros K L.
  rewrite <- (Z.quot_mul_cancel_r (n1 * k) (Zpos d1) (Zpos d2)) by lia.
  rewrite <- (Z.quot_mul_cancel_r (n2 * k) (Zpos d2) (Zpos d1)) by lia.
  replace (Zpos d2 * Zpos d1)%Z with (Zpos d1 * Zpos d2)%Z by lia.
  apply Z.quot_le_mono; [lia|]. nia.
Qed.

Lemma pcmSample_bounds (q : Q) :
  (-32768 <= pcmSample (Finite q) <= 32767)%Z.
Proof.
  unfold pcmSample. generalize (Math_max (Finite (-1)) (Math_min (Finite 1) (Finite q))).
  intros s. destruct (if num_negative s then _ else _); unfold ToInt16; try lia.
  pose proof (Z.mod_pos_bound (truncate q0 + 32768) 65536). lia.
Qed.

Lemma int16_bounds (low high : byte) : (-32768 <= int16 low high < 32768)%Z.
Proof.
  unfold int16.
  pose proof (Byte.to_N_bounded low). pose proof (Byte.to_N_bounded high).
  destruct (_ <? _)%Z eqn:E; [apply Z.ltb_lt in E | apply Z.ltb_ge in E]; lia.
Qed.

(** Lists two elements at a time. *)
Lemma list_ind2 {A} (P : list A -> Prop) :
  P [] ->
  (forall x, P [x]) ->
  (forall x y rest, P rest -> P (x :: y :: rest)) ->
  forall l, P l.
Proof.
  intros H0 H1 H2.
  fix IH 1. intros [|x [|y rest]].
  - exact H0.
  - apply H1.
  - apply H2, IH.
Qed.

Lemma int16_pairs_length (b : list byte) :
  List.length (int16_pairs b) = Nat.div2 (List.length b).
Proof.
  induction b as [|x|x y b IH] using list_ind2; cbn [int16_pairs List.length Nat.div2];
    auto.
Qed.

End SampleFacts.

(** A louder input never gives a smaller sample: the conversion of the
    microphone samples to 16-bit PCM is monotone, so it never wraps
    around. *)
Theorem pcmSample_monotone (p q : Q) :
  Qle p q -> (Samples.pcmSample (Finite p) <= Samples.pcmSample (Finite q))%Z.
Proof.
  intros L. unfold Qle in L.
  pose proof (SampleFacts.pcmSample_bounds p) as Bp.
  pose proof (SampleFacts.pcmSample_bounds q) as Bq.
  destruct (SampleFacts.pcmSample_cases p)
    as [[P1 Ep]|[[P1 Ep]|[(P1 & P2 & P3 & Ep)|(P1 & P2 & Ep)]]];
  destruct (SampleFacts.pcmSample_cases q)
    as [[Q1 Eq]|[[Q1 Eq]|[(Q1 & Q2 & Q3 & Eq)|(Q1 & Q2 & Eq)]]];
  unfold Qle, Qlt in *; cbn [Qnum Qden] in *;
  try lia; try (exfalso; nia).
  - rewrite Ep, Eq. apply SampleFacts.scaled_quot_le; lia.
  - rewrite Ep, Eq.
    transitivity 0%Z; [|apply Z.quot_pos; lia].
    SampleFacts.quot_lia.
  - rewrite Ep, Eq. apply SampleFacts.scaled_quot_le; lia.
Qed.

(** A quiet negative input and a quiet positive one. *)
Lemma pcmSample_monotone_witness :
  (Samples.pcmSample (Finite (-3 # 4)) <= Samples.pcmSample (Finite (1 # 3)))%Z.
Proof.
  apply pcmSample_monotone. unfold Qle. cbn. lia.
Defined.

(** The conversion saturates: an input of 1 or more gives 32767, an
    input of -1 or less gives -32768, silence gives 0, and what is no number
    gives 0. *)
Theorem pcmSample_saturates :
  (forall q, Qle 1 q -> Samples.pcmSample (Finite q) = 32767%Z)
  /\ (forall q, Qle q (-1) -> Samples.pcmSample (Finite q) = (-32768)%Z)
  /\ Samples.pcmSample (Infinity false) = 32767%Z
  /\ Samples.pcmSample (Infinity true) = (-32768)%Z
  /\ Samples.pcmSample (Finite 0) = 0%Z
  /\ Samples.pcmSample NaN = 0%Z.
Proof.
  repeat split; try reflexivity.
  - intros q L.
    destruct (SampleFacts.pcmSample_cases q)
      as [[P1 Ep]|[[P1 Ep]|[(P1 & P2 & P3 & Ep)|(P1 & P2 & Ep)]]]; trivial;
    unfold Qle, Qlt in *; cbn [Qnum Qden] in *; exfalso; lia.
  - intros q L.
    destruct (SampleFacts.pcmSample_cases q)
      as [[P1 Ep]|[[P1 Ep]|[(P1 & P2 & P3 & Ep)|(P1 & P2 & Ep)]]]; trivial;
    unfold Qle, Qlt in *; cbn [Qnum Qden] in *; try (exfalso; lia).
    rewrite Ep. replace (Qnum q) with (- Zpos (Qden q))%Z by lia.
    SampleFacts.quot_lia.
Qed.

(** The samples played back: a chunk of an even number of bytes gives
    half as many samples, each in the range from -1 (included) to 1
    (excluded); a chunk of an odd number of bytes gives no sample array. *)
Theorem playback_samples (audioData : list byte) :
  match Samples.Int16Array_of audioData with
  | Some view =>
      Nat.odd (List.length audioData) = false
      /\ List.length (Samples.channelData view) = Nat.div2 (List.length audioData)
      /\ Forall (fun x => Qle (-1) x /\ Qlt x 1) (Samples.channelData view)
  | None => Nat.odd (List.length audioData) = true
  end.
Proof.
  unfold Samples.Int16Array_of.
  destruct (Nat.odd (List.length audioData)); [reflexivity|].
  split; [reflexivity|]. split.
  - unfold Samples.channelData. rewrite length_map.
    apply SampleFacts.int16_pairs_length.
  - clear. induction audioData as [|x|x y b IH] using SampleFacts.list_ind2;
      cbn [Samples.int16_pairs Samples.channelData map]; try constructor.
    + pose proof (SampleFacts.int16_bounds x y).
      unfold Qle, Qlt. cbn [Qnum Qden]. lia.
    + exact IH.
Qed.

(* ================================================================== *)
(** ** Properties kept by every handler                                *)
(* ================================================================== *)

Module HandlerFacts.

Import Spec Notions Notions.

Section Keeps.
Context `{Host}.
Variable I : State -> Prop.

Lemma keeps_ret {A} (a : A) : keeps I (ret a).
Proof. intros st Hst. exact Hst. Qed.

Lemma keeps_throw {A} : keeps I (@throw A).
Proof. intros st Hst. exact Hst. Qed.

Lemma keeps_gets {A} (f : State -> A) : keeps I (gets f).
Proof. intros st Hst. exact Hst. Qed.

Lemma keeps_lift {A} (r : result A) : keeps I (lift r).
Proof. intros st Hst. unfold lift. now destruct r. Qed.

Lemma keeps_bind {A B} (m : M A) (k : A -> M B) :
  keeps I m -> (forall a, keeps I (k a)) -> keeps I (bind m k).
Proof.
  intros Hm Hk st Hst. specialize (Hm st Hst). unfold bind.
  destruct (m st) as [[a|] s]; cbn [snd] in *; [now apply Hk | exact Hm].
Qed.

Lemma keeps_try_catch (m : M unit) : keeps I m -> keeps I (try_catch m).
Proof. intros Hm st Hst. exact (Hm st Hst). Qed.

Lemma keeps_forEach {A} (f : A -> M unit) (l : list A) :
  (forall a, keeps I (f a)) -> keeps I (forEach f l).
Proof.
  intros Hf. induction l as [|x rest IH]; cbn [forEach].
  - apply keeps_ret.
  - apply keeps_bind; [apply Hf | intros _; exact IH].
Qed.

Hypothesis keeps_update : forall f, plain_update f -> keeps I (modify f).
Hypothesis keeps_playAudio : forall b, keeps I (playAudio b).
Hypothesis keeps_clearScheduledAudio : keeps I clearScheduledAudio.

Ltac keeps_step :=
  cbv zeta;
  lazymatch goal with
  | |- keeps _ (playAudio _) => apply keeps_playAudio
  | |- keeps _ clearScheduledAudio => apply keeps_clearScheduledAudio
  | |- keeps _ (ret _) => apply keeps_ret
  | |- keeps _ (@throw _) => apply keeps_throw
  | |- keeps _ (gets _) => apply keeps_gets
  | |- keeps _ (lift _) => apply keeps_lift
  | |- keeps _ (try_catch _) => apply keeps_try_catch
  | |- keeps _ (forEach _ _) => apply keeps_forEach; intros ?
  | |- keeps _ (modify _) => apply keeps_update; constructor
  | |- keeps _ (bind _ _) => apply keeps_bind; [|intros ?]
  | |- keeps _ (match ?x with _ => _ end) => destruct x
  | |- keeps _ _ => solve [auto]
  end.

Lemma keeps_ensureIncomingMessage : keeps I ensureIncomingMessage.
Proof. unfold ensureIncomingMessage. repeat keeps_step. Qed.

Lemma keeps_updateIncomingMessage u : keeps I (updateIncomingMessage u).
Proof.
  pose proof keeps_ensureIncomingMessage.
  unfold updateIncomingMessage. repeat keeps_step.
Qed.

Lemma keeps_finalizeIncomingMessage : keeps I finalizeIncomingMessage.
Proof. unfold finalizeIncomingMessage. repeat keeps_step. Qed.

Lemma keeps_processAudio b : keeps I (processAudio b).
Proof.
  pose proof keeps_ensureIncomingMessage. pose proof keeps_updateIncomingMessage.
  unfold processAudio. repeat keeps_step.
Qed.

Lemma keeps_appendResponseText t : keeps I (appendResponseText t).
Proof.
  pose proof keeps_ensureIncomingMessage. pose proof keeps_updateIncomingMessage.
  unfold appendResponseText. repeat keeps_step.
Qed.

Lemma keeps_handleTranscriptMessage payload : keeps I (handleTranscriptMessage payload).
Proof.
  pose proof keeps_ensureIncomingMessage. pose proof keeps_updateIncomingMessage.
  unfold handleTranscriptMessage, appendTranscriptText. repeat keeps_step.
Qed.

Lemma keeps_perform a : keeps I (perform a).
Proof.
  destruct a; cbn [perform];
    [apply keeps_appendResponseText | apply keeps_processAudio
    | apply keeps_finalizeIncomingMessage | apply keeps_throw].
Qed.

Lemma keeps_handleAgentResponse payload : keeps I (handleAgentResponse payload).
Proof.
  intros st Hst. rewrite handleAgentResponse_performs.
  apply keeps_forEach; [apply keeps_perform | exact Hst].
Qed.

Lemma keeps_dispatchPayload data : keeps I (dispatchPayload data).
Proof.
  pose proof keeps_handleTranscriptMessage. pose proof keeps_handleAgentResponse.
  pose proof keeps_finalizeIncomingMessage.
  unfold dispatchPayload. repeat keeps_step.
Qed.

Lemma keeps_handleUpstreamMessage data : keeps I (handleUpstreamMessage data).
Proof.
  pose proof keeps_dispatchPayload. pose proof keeps_processAudio.
  unfold handleUpstreamMessage. repeat keeps_step.
Qed.

Lemma keeps_handleSocketClose : keeps I handleSocketClose.
Proof. unfold handleSocketClose. repeat keeps_step. Qed.

Lemma keeps_updateVoice v : keeps I (updateVoice v).
Proof. unfold updateVoice. repeat keeps_step. Qed.

(** Every handler keeps a property of the playback fields that [playAudio]
    and [clearScheduledAudio] keep. *)
Lemma keeps_run (op : Operation) : keeps I (run op).
Proof.
  destruct op; cbn [run].
  - apply keeps_bind; [apply keeps_ensureIncomingMessage | intros ?; apply keeps_ret].
  - apply keeps_updateIncomingMessage.
  - apply keeps_finalizeIncomingMessage.
  - apply keeps_handleTranscriptMessage.
  - apply keeps_handleAgentResponse.
  - apply keeps_handleUpstreamMessage.
  - apply keeps_handleSocketClose.
  - apply keeps_handleSocketClose.
  - apply keeps_updateVoice.
Qed.

End Keeps.

(** A property of the playback fields is kept by the other updates. *)
Lemma audio_only_update (I : State -> Prop) :
  (forall s s',
     audioContextRef s' = audioContextRef s ->
     scheduledAudioSourcesRef s' = scheduledAudioSourcesRef s ->
     scheduledStartRef s' = scheduledStartRef s ->
     stopped s' = stopped s ->
     I s -> I s') ->
  forall f, plain_update f -> keeps I (modify f).
Proof.
  intros audio_only f U st Hst. cbn.
  destruct U; (eapply audio_only; [| | | |exact Hst]; reflexivity).
Qed.

End HandlerFacts.

(* ================================================================== *)
(** ** Properties of the playback queue                                *)
(* ================================================================== *)

Module ScheduleFacts.

Import Spec Notions HandlerFacts.

Lemma duration_nonneg (n : nat) : Qle 0 (duration n).
Proof. unfold duration, Qle. cbn. lia. Qed.

Section WithHost.
Context `{Host}.
Hypothesis rounding : rounds_like_doubles.

Lemma in_sequence_snoc (l : list AudioSource) (s : AudioSource) :
  in_sequence l -> Forall (fun a => Qle (finish a) (startTime s)) l ->
  in_sequence (l ++ [s]).
Proof.
  unfold in_sequence. induction 1 as [|a l Ha Hl IH]; intros Hs; cbn [app].
  - repeat constructor.
  - inversion Hs as [|? ? Has Hls]; subst. constructor.
    + apply Forall_app. split; [exact Ha | now constructor].
    + now apply IH.
Qed.

Lemma rounded_duration_nonneg (n : nat) : Qle 0 (round_to_double (duration n)).
Proof.
  destruct rounding as (mono & _ & zero & _).
  rewrite <- zero. apply mono, duration_nonneg.
Qed.

(** A source that starts at a double is over no sooner than it starts. *)
Lemma start_le_finish (q : Q) (n : nat) :
  Qeq (round_to_double q) q ->
  Qle q (round_to_double (Qplus q (round_to_double (duration n)))).
Proof.
  intros Hq. destruct rounding as (mono & _ & _ & _).
  rewrite <- Hq at 1. apply mono.
  rewrite <- (Qplus_0_r q) at 1.
  apply Qplus_le_compat; [apply Qle_refl | apply rounded_duration_nonneg].
Qed.

Lemma cursor_le_start (now cursor : Q) :
  Qle cursor (if Qle_bool now cursor then cursor else now).
Proof.
  destruct (Qle_bool now cursor) eqn:E; [apply Qle_refl|].
  apply Qlt_le_weak, Qnot_le_lt. intros C. apply Qle_bool_iff in C. congruence.
Qed.

Lemma schedule_ok_audio_only (s s' : State) :
  audioContextRef s' = audioContextRef s ->
  scheduledAudioSourcesRef s' = scheduledAudioSourcesRef s ->
  scheduledStartRef s' = scheduledStartRef s ->
  stopped s' = stopped s ->
  schedule_ok s -> schedule_ok s'.
Proof. unfold schedule_ok. intros _ -> -> _. trivial. Qed.

Lemma playAudio_schedule_ok b : keeps schedule_ok (playAudio b).
Proof.
  intros st (Hseq & Hall & Hcur). unfold playAudio, bind, gets, modify, ret, throw.
  destruct (negb (audioContextRef st)); [now repeat split|].
  destruct (Nat.odd _); [now repeat split|].
  destruct (_ =? _)%nat; [now repeat split|].
  cbn [fst snd]. unfold schedule_ok.
  destruct st as [cn vo sp mi ch ctx sources cursor inc ids reads stp].
  cbn in *.
  set (start := if Qle_bool (currentTime reads) cursor then cursor
                else currentTime reads).
  assert (L : Qle cursor start) by apply cursor_le_start.
  assert (D : Qeq (round_to_double start) start).
  { subst start. destruct (Qle_bool _ _); [exact Hcur|].
    destruct rounding as (_ & _ & _ & clock). apply clock. }
  split; [|split].
  - apply in_sequence_snoc; [exact Hseq|].
    eapply Forall_impl; [|exact Hall]. cbn. intros a Ha.
    eapply Qle_trans; eauto.
  - apply Forall_app. split.
    + eapply Forall_impl; [|exact Hall]. cbn. intros a Ha.
      eapply Qle_trans; [exact Ha|]. eapply Qle_trans; [exact L|].
      now apply start_le_finish.
    + constructor; [|constructor]. unfold finish. cbn. apply Qle_refl.
  - destruct rounding as (_ & idem & _ & _). apply idem.
Qed.

Lemma clearScheduledAudio_schedule_ok : keeps schedule_ok clearScheduledAudio.
Proof.
  intros st _. cbn. destruct rounding as (_ & _ & zero & _).
  split; [constructor|split; [constructor|exact zero]].
Qed.

Lemma accounted_audio_only l (s s' : State) :
  audioContextRef s' = audioContextRef s ->
  scheduledAudioSourcesRef s' = scheduledAudioSourcesRef s ->
  scheduledStartRef s' = scheduledStartRef s ->
  stopped s' = stopped s ->
  accounted l s -> accounted l s'.
Proof. unfold accounted. intros _ -> _ ->. trivial. Qed.

Lemma playAudio_accounted l b : keeps (accounted l) (playAudio b).
Proof.
  intros st Hst. unfold playAudio, bind, gets, modify, ret, throw.
  destruct (negb (audioContextRef st)); [exact Hst|].
  destruct (Nat.odd _); [exact Hst|].
  destruct (_ =? _)%nat; [exact Hst|].
  cbn [fst snd]. unfold accounted in *.
  destruct st as [cn vo sp mi ch ctx sources cursor inc ids reads stp].
  cbn in *. intros a Ha. specialize (Hst a Ha).
  rewrite !in_app_iff in *. tauto.
Qed.

Lemma clearScheduledAudio_accounted l : keeps (accounted l) clearScheduledAudio.
Proof.
  intros st Hst. unfold accounted in *.
  destruct st as [cn vo sp mi ch ctx sources cursor inc ids reads stp].
  cbn in *. intros a Ha. specialize (Hst a Ha).
  rewrite !in_app_iff in *. tauto.
Qed.

Variable systemContent : string.

Lemma advance_playback (e : Session.Step) (cs : Session.Capture * State) :
  match e with
  | Session.handle _ => True
  | _ =>
      scheduledAudioSourcesRef (snd (Session.advance systemContent e cs))
      = scheduledAudioSourcesRef (snd cs)
      /\ scheduledStartRef (snd (Session.advance systemContent e cs))
         = scheduledStartRef (snd cs)
      /\ stopped (snd (Session.advance systemContent e cs)) = stopped (snd cs)
  end.
Proof.
  destruct cs as [c st]. destruct e as [op| |step|readyState]; trivial.
  - cbn. auto.
  - destruct step as [| | | |[]]; cbn; unfold Session.startFailed; cbn;
      try destruct (audioContextRef st); cbn; auto.
  - cbn. auto.
Qed.

Lemma advance_schedule_ok e cs :
  schedule_ok (snd cs) -> schedule_ok (snd (Session.advance systemContent e cs)).
Proof.
  intros Hcs. pose proof (advance_playback e cs) as A.
  destruct e as [op| |step|readyState].
  - cbn [Session.advance snd].
    apply (keeps_run schedule_ok (audio_only_update _ schedule_ok_audio_only)
             playAudio_schedule_ok clearScheduledAudio_schedule_ok op); exact Hcs.
  - destruct A as (A1 & A2 & A3). unfold schedule_ok. now rewrite A1, A2.
  - destruct A as (A1 & A2 & A3). unfold schedule_ok. now rewrite A1, A2.
  - destruct A as (A1 & A2 & A3). unfold schedule_ok. now rewrite A1, A2.
Qed.

Lemma advance_accounted l e cs :
  accounted l (snd cs) -> accounted l (snd (Session.advance systemContent e cs)).
Proof.
  intros Hcs. pose proof (advance_playback e cs) as A.
  destruct e as [op| |step|readyState].
  - cbn [Session.advance snd].
    apply (keeps_run (accounted l) (audio_only_update _ (accounted_audio_only l))
             (playAudio_accounted l) (clearScheduledAudio_accounted l) op);
      exact Hcs.
  - destruct A as (A1 & A2 & A3). unfold accounted. now rewrite A1, A3.
  - destruct A as (A1 & A2 & A3). unfold accounted. now rewrite A1, A3.
  - destruct A as (A1 & A2 & A3). unfold accounted. now rewrite A1, A3.
Qed.

End WithHost.

End ScheduleFacts.

Section Playback.
Context `{Host}.
Variable systemContent : string.


(** No source is forgotten.  Whatever happens to the provider, a source
    that was queued or stopped before is queued or stopped afterwards: a
    source leaves the queue only by being stopped. *)
Theorem playback_sources_accounted (events : list Session.Step)
    (cs : Session.Capture * State) :
  incl (scheduledAudioSourcesRef (snd cs) ++ stopped (snd cs))
    (scheduledAudioSourcesRef
       (snd (fold_left (fun c e => Session.advance systemContent e c) events cs))
     ++ stopped
          (snd (fold_left (fun c e => Session.advance systemContent e c) events cs))).
Proof.
  set (l := scheduledAudioSourcesRef (snd cs) ++ stopped (snd cs)).
  assert (G : forall c, Notions.accounted l (snd c) ->
                Notions.accounted l
                  (snd (fold_left (fun c e => Session.advance systemContent e c)
                          events c))).
  { induction events as [|e rest IH]; intros c Hc; cbn [fold_left]; [exact Hc|].
    apply IH. now apply ScheduleFacts.advance_accounted. }
  apply (G cs). apply incl_refl.
Qed.

End Playback.

(* ================================================================== *)
(** ** When a handler throws                                           *)
(* ================================================================== *)

Module ThrowFacts.

Import Spec Notions HandlerFacts.

Section Safe.
Context `{Host}.
Variable P : State -> Prop.

Lemma safe_ret {A} (a : A) : safe P (ret a).
Proof. intros st Hst. split; [now exists a | exact Hst]. Qed.

Lemma safe_gets {A} (f : State -> A) : safe P (gets f).
Proof. intros st Hst. split; [now exists (f st) | exact Hst]. Qed.

Lemma safe_bind {A B} (m : M A) (k : A -> M B) :
  safe P m -> (forall a, safe P (k a)) -> safe P (bind m k).
Proof.
  intros Hm Hk st Hst. destruct (Hm st Hst) as [[a Ea] Pa]. unfold bind.
  destruct (m st) as [[a'|] s]; cbn [fst snd] in *; [|discriminate].
  now apply Hk.
Qed.

Lemma safe_forEach {A} (f : A -> M unit) (l : list A) :
  Forall (fun a => safe P (f a)) l -> safe P (forEach f l).
Proof.
  induction 1 as [|x rest Hx Hrest IH]; cbn [forEach].
  - apply safe_ret.
  - apply safe_bind; [exact Hx | intros _; exact IH].
Qed.

(** After a safe handler, what follows decides whether the whole throws. *)
Lemma bind_safe_throws {A B} (m : M A) (k : A -> M B) st :
  safe P m -> P st ->
  (forall a s, P s -> fst (k a s) = Thrown) ->
  fst (bind m k st) = Thrown.
Proof.
  intros Hm Hst Hk. destruct (Hm st Hst) as [[a Ea] Pa]. unfold bind.
  destruct (m st) as [[a'|] s]; cbn [fst snd] in *; [|discriminate].
  now apply Hk.
Qed.

Hypothesis audio_only : forall s s',
  audioContextRef s' = audioContextRef s ->
  scheduledAudioSourcesRef s' = scheduledAudioSourcesRef s ->
  scheduledStartRef s' = scheduledStartRef s ->
  stopped s' = stopped s ->
  P s -> P s'.

Lemma safe_frame (f : State -> State) :
  (forall s, audioContextRef (f s) = audioContextRef s) ->
  (forall s, scheduledAudioSourcesRef (f s) = scheduledAudioSourcesRef s) ->
  (forall s, scheduledStartRef (f s) = scheduledStartRef s) ->
  (forall s, stopped (f s) = stopped s) ->
  safe P (modify f).
Proof.
  intros H1 H2 H3 H4 st Hst. split; [now exists tt|].
  cbn. eapply audio_only; eauto.
Qed.

Ltac safe_step :=
  cbv zeta;
  lazymatch goal with
  | |- safe _ (ret _) => apply safe_ret
  | |- safe _ (gets _) => apply safe_gets
  | |- safe _ (modify _) => apply safe_frame; intros ?; reflexivity
  | |- safe _ (bind _ _) => apply safe_bind; [|intros ?]
  | |- safe _ (match ?x with _ => _ end) => destruct x
  | |- safe _ _ => solve [auto]
  end.

Lemma safe_ensureIncomingMessage : safe P ensureIncomingMessage.
Proof. unfold ensureIncomingMessage. repeat safe_step. Qed.

Lemma safe_updateIncomingMessage u : safe P (updateIncomingMessage u).
Proof.
  pose proof safe_ensureIncomingMessage.
  unfold updateIncomingMessage. repeat safe_step.
Qed.

Lemma safe_finalizeIncomingMessage : safe P finalizeIncomingMessage.
Proof. unfold finalizeIncomingMessage. repeat safe_step. Qed.

Lemma safe_processAudio b : safe P (playAudio b) -> safe P (processAudio b).
Proof.
  intros Hb.
  pose proof safe_ensureIncomingMessage. pose proof safe_updateIncomingMessage.
  unfold processAudio. repeat safe_step.
Qed.

(** What [processAudio] does before it calls [playAudio] is safe. *)
Lemma processAudio_throws b st :
  P st -> (forall s, P s -> fst (playAudio b s) = Thrown) ->
  fst (processAudio b st) = Thrown.
Proof.
  intros Hst Hb.
  pose proof safe_ensureIncomingMessage. pose proof safe_updateIncomingMessage.
  unfold processAudio.
  apply bind_safe_throws; [safe_step | exact Hst|]. intros _ s1 P1.
  apply bind_safe_throws; [safe_step | exact P1|]. intros _ s2 P2.
  apply bind_safe_throws; [safe_step | exact P2|]. intros current s3 P3.
  apply bind_safe_throws; [safe_step | exact P3|]. intros _ s4 P4.
  now apply Hb.
Qed.

End Safe.

Section WithHost.
Context `{Host}.

Lemma context_is_audio_only c (s s' : State) :
  audioContextRef s' = audioContextRef s ->
  scheduledAudioSourcesRef s' = scheduledAudioSourcesRef s ->
  scheduledStartRef s' = scheduledStartRef s ->
  stopped s' = stopped s ->
  context_is c s -> context_is c s'.
Proof. unfold context_is. intros -> _ _ _. trivial. Qed.

Lemma playAudio_context c b : keeps (context_is c) (playAudio b).
Proof.
  intros st Hst. unfold playAudio, bind, gets, modify, ret, throw.
  destruct (negb (audioContextRef st)); [exact Hst|].
  destruct (Nat.odd _); [exact Hst|].
  destruct (_ =? _)%nat; exact Hst.
Qed.

Lemma clearScheduledAudio_context c : keeps (context_is c) clearScheduledAudio.
Proof. intros st Hst. exact Hst. Qed.

(** [playAudio] returns unless a context exists and the length is odd. *)
Lemma safe_playAudio c b :
  c && Nat.odd (List.length b) = false -> safe (context_is c) (playAudio b).
Proof.
  intros E st Hst. split; [|now apply playAudio_context].
  unfold context_is in Hst. unfold playAudio, bind, gets, modify, ret, throw.
  rewrite Hst. destruct c; cbn [negb]; [|now exists tt].
  cbn in E. rewrite E.
  destruct (_ =? _)%nat; now exists tt.
Qed.

Lemma playAudio_throws b st :
  context_is true st -> Nat.odd (List.length b) = true ->
  fst (playAudio b st) = Thrown.
Proof.
  unfold context_is. intros Hst E.
  unfold playAudio, bind, gets, modify, ret, throw. now rewrite Hst, E.
Qed.

Lemma processAudio_outcome b st :
  fst (processAudio b st)
  = if audioContextRef st && Nat.odd (List.length b) then Thrown else Returned tt.
Proof.
  destruct (audioContextRef st && Nat.odd (List.length b)) eqn:E.
  - apply andb_prop in E. destruct E as [E1 E2].
    apply (processAudio_throws (context_is true) (context_is_audio_only true));
      [exact E1|].
    intros s Hs. now apply playAudio_throws.
  - destruct (safe_processAudio (context_is (audioContextRef st))
                (context_is_audio_only _) b (safe_playAudio _ b E) st eq_refl)
      as [[[] Ea] _].
    exact Ea.
Qed.

Lemma playAudio_incoming b s :
  incomingMessageRef (snd (playAudio b s)) = incomingMessageRef s.
Proof.
  unfold playAudio, bind, gets, modify, ret, throw.
  destruct (negb (audioContextRef s)); [reflexivity|].
  destruct (Nat.odd _); [reflexivity|].
  destruct (_ =? _)%nat; reflexivity.
Qed.

Lemma appendResponseText_ready t : safe ready (appendResponseText t).
Proof.
  intros st [Hc Hr]. unfold ready, context_is, readable in *.
  destruct st as [cn vo sp mi ch ctx sources cursor inc ids reads stp].
  cbn in Hc, Hr. subst ctx.
  destruct inc as [m|].
  - destruct Hr as [s Es].
    unfold appendResponseText, bind, lift. cbn. rewrite Es.
    destruct (truthy (content m)); cbn; (split; [now exists tt|]); split; eauto.
  - cbn. split; [now exists tt|]. split; eauto.
Qed.

Lemma processAudio_readable b : keeps readable (processAudio b).
Proof.
  intros st Hr. unfold readable in *.
  destruct st as [cn vo sp mi ch ctx sources cursor inc ids reads stp].
  destruct inc as [m|]; cbn -[playAudio] in *; rewrite playAudio_incoming; cbn.
  - exact Hr.
  - now exists ""%string.
Qed.

Lemma processAudio_ready b :
  Nat.odd (List.length b) = false -> safe ready (processAudio b).
Proof.
  intros E st [Hc Hr].
  destruct (safe_processAudio (context_is true) (context_is_audio_only true) b
              (safe_playAudio true b E) st Hc) as [Ret Ctx].
  split; [exact Ret|]. split; [exact Ctx|]. now apply processAudio_readable.
Qed.

Lemma finalizeIncomingMessage_ready : safe ready finalizeIncomingMessage.
Proof.
  intros st [Hc Hr]. unfold ready, context_is, readable in *.
  destruct st as [cn vo sp mi ch ctx sources cursor inc ids reads stp].
  cbn in Hc. subst ctx.
  destruct inc as [m|]; cbn; (split; [now exists tt|]); split; eauto.
Qed.

(** An update that is not refused returns, and leaves the state ready. *)
Lemma perform_ready a : refused a = false -> safe ready (perform a).
Proof.
  destruct a as [t|b| |]; cbn [perform refused]; intros E.
  - apply appendResponseText_ready.
  - now apply processAudio_ready.
  - apply finalizeIncomingMessage_ready.
  - discriminate.
Qed.

End WithHost.

End ThrowFacts.

Section Throwing.
Context `{Host}.

(** When the handler of upstream messages throws.  It throws for a
    binary frame of an odd number of bytes that arrives while an audio
    context exists, and for nothing else: what goes wrong in a text frame is
    caught. *)
Theorem handleUpstreamMessage_throws_iff (data : EventData) (st : State) :
  fst (handleUpstreamMessage data st) = Thrown
  <-> exists b, data = DataArrayBuffer b
                /\ audioContextRef st = true
                /\ Samples.Int16Array_of b = None.
Proof.
  unfold Samples.Int16Array_of. split.
  - destruct data as [s|b|b]; cbn [handleUpstreamMessage]; try discriminate.
    rewrite ThrowFacts.processAudio_outcome.
    destruct (audioContextRef st); cbn [andb]; [|discriminate].
    destruct (Nat.odd (List.length b)) eqn:E; [|discriminate].
    intros _. exists b. now rewrite E.
  - intros (b & -> & Hc & Hb). cbn [handleUpstreamMessage].
    rewrite ThrowFacts.processAudio_outcome, Hc.
    destruct (Nat.odd (List.length b)); [reflexivity | discriminate].
Qed.

(** An audio chunk of odd length ends the handling of an agent response.
    Take a state where an audio context exists and the content of the open
    message, if one is open, converts to a string.  When the updates of a
    payload come to an audio chunk of an odd number of bytes, and before it
    no chunk was such and no sub-object made the classifier throw, the
    handler throws there: the updates up to this chunk are made, the chunk
    is stored, and nothing after it is handled, neither the later
    sub-objects nor the completion. *)
Theorem odd_chunk_ends_agent_response (payload : value) (st : State)
    (before after : list Action) (b : list byte) :
  agentResponseActions payload = before ++ AudioDelta b :: after ->
  forallb (fun a => negb (Notions.refused a)) before = true ->
  Nat.odd (List.length b) = true ->
  audioContextRef st = true ->
  Notions.readable st ->
  handleAgentResponse payload st
  = (Thrown, exec (forEach perform (before ++ [AudioDelta b])) st).
Proof.
  intros Ea Hbefore Hb Hst Hr.
  rewrite handleAgentResponse_performs, Ea.
  change (before ++ AudioDelta b :: after)
    with (before ++ [AudioDelta b] ++ after).
  rewrite app_assoc, forEach_app.
  assert (T : fst (forEach perform (before ++ [AudioDelta b]) st) = Thrown).
  { rewrite forEach_app.
    apply (ThrowFacts.bind_safe_throws Notions.ready);
      [|split; [exact Hst | exact Hr]|].
    - apply ThrowFacts.safe_forEach. apply Forall_forall. intros a Ia.
      rewrite forallb_forall in Hbefore. specialize (Hbefore a Ia).
      apply ThrowFacts.perform_ready. now destruct (Notions.refused a).
    - intros _ s [Hs _]. cbn [forEach perform]. unfold bind.
      pose proof (ThrowFacts.processAudio_outcome b s) as O.
      rewrite Hs, Hb in O. change (fst (processAudio b s) = Thrown) in O.
      revert O. destruct (processAudio b s) as [[a|] s']; [discriminate | reflexivity]. }
  unfold bind, exec.
  revert T. destruct (forEach perform (before ++ [AudioDelta b]) st) as [[a|] s'];
    [discriminate | reflexivity].
Qed.

End Throwing.

Section AudioAccumulation.
Context `{Host}.

Lemma processAudio_stores b st :
  exists m,
    incomingMessageRef (exec (processAudio b) st) = Some m
    /\ audio m = Some (Notions.pendingAudio st ++ b).
Proof.
  unfold exec, processAudio, Notions.pendingAudio.
  destruct st as [cn vo sp mi ch ctx sources cursor inc ids reads stp].
  destruct inc as [m|].
  - cbn -[playAudio]. rewrite ThrowFacts.playAudio_incoming. cbn.
    eexists. split; [reflexivity|]. cbn.
    unfold concatArrayBuffers. now destruct (audio m).
  - cbn -[playAudio]. rewrite ThrowFacts.playAudio_incoming. cbn.
    eexists. split; reflexivity.
Qed.

(** Binary frames accumulate.  After one or more binary frames, a
    message is open and its audio is the audio it had before followed by the
    bytes of the frames, in the order of arrival; this holds also when a
    frame cannot be played. *)
Theorem binary_frames_accumulate (first : list byte) (others : list (list byte))
    (st : State) :
  exists m,
    incomingMessageRef
      (fold_left (fun s b => exec (handleUpstreamMessage (DataArrayBuffer b)) s)
         (first :: others) st) = Some m
    /\ audio m = Some (Notions.pendingAudio st ++ List.concat (first :: others)).
Proof.
  revert first st. induction others as [|next rest IH]; intros first st.
  - cbn [fold_left List.concat handleUpstreamMessage]. rewrite app_nil_r.
    apply processAudio_stores.
  - destruct (processAudio_stores first st) as (m & Em & Am).
    destruct (IH next (exec (processAudio first) st)) as (m' & Em' & Am').
    exists m'. split; [exact Em'|].
    rewrite Am'. unfold Notions.pendingAudio at 1. rewrite Em, Am.
    cbn [List.concat]. now rewrite <- app_assoc.
Qed.

End AudioAccumulation.

(* ================================================================== *)
(** ** Properties of the capture session                               *)
(* ================================================================== *)

Module SessionFacts.

Import Spec Notions HandlerFacts.

Section WithHost.
Context `{Host}.

Lemma run_keeps_microphone_closed op :
  keeps (fun st => microphoneOpen st = false) (run op).
Proof.
  apply keeps_run.
  - intros f U st Hst. destruct U; cbn; trivial.
  - intros b st Hst. unfold playAudio, bind, gets, modify, ret, throw.
    destruct (negb (audioContextRef st)); [exact Hst|].
    destruct (Nat.odd _); [exact Hst|].
    destruct (_ =? _)%nat; exact Hst.
  - intros st Hst. exact Hst.
Qed.

Lemma run_keeps_silent l op : keeps (silent l) (run op).
Proof.
  apply keeps_run.
  - apply audio_only_update. unfold silent. intros s s' -> -> _ _. trivial.
  - intros b st [Hc Hl]. unfold playAudio, bind, gets, modify, ret, throw.
    rewrite Hc. cbn. now split.
  - intros st [Hc Hl]. split; [exact Hc|]. cbn. intros a [].
Qed.

End WithHost.

End SessionFacts.

Section Session.
Context `{Host}.
Variable systemContent : string.

(** An open microphone is a live capture chain.  In every state of a
    session in which the microphone is shown as open, a stream is held, the
    processor is connected with its callback set, and the microphone node
    is connected. *)
Theorem microphone_open_means_capturing (cs : Session.Capture * State) :
  Session.reachable systemContent cs ->
  microphoneOpen (snd cs) = true ->
  Notions.capturing (fst cs).
Proof.
  induction 1 as [defaultVoice|e cs R IH]; [discriminate|].
  destruct cs as [c st]. cbn [fst snd] in *.
  destruct e as [op| |step|readyState].
  - cbn [Session.advance fst snd]. intros E. apply IH.
    destruct (microphoneOpen st) eqn:M; [reflexivity|].
    pose proof (SessionFacts.run_keeps_microphone_closed op st M) as K.
    unfold exec in E. congruence.
  - cbn. exact IH.
  - destruct step as [| | | |[]]; cbn; unfold Session.startFailed; cbn;
      try destruct (audioContextRef st); cbn; try discriminate; try exact IH.
    all: intros _; repeat split; now exists (Session.mkNode true false).
  - cbn. discriminate.
Qed.

(** Without capture there is no playback.  From [stopStreaming] on, as
    long as capture is not started again, the handlers schedule no source:
    what is queued was queued before. *)
Theorem stopStreaming_silences (readyState : Session.SocketState)
    (cs : Session.Capture * State) (ops : list Spec.Operation) :
  let st := snd (fst (Session.stopStreaming readyState cs)) in
  let st' := fold_left (fun s op => exec (Spec.run op) s) ops st in
  audioContextRef st' = false
  /\ incl (scheduledAudioSourcesRef st') (scheduledAudioSourcesRef (snd cs)).
Proof.
  intros st st'.
  change (Notions.silent (scheduledAudioSourcesRef (snd cs)) st').
  assert (S0 : Notions.silent (scheduledAudioSourcesRef (snd cs)) st).
  { split; [reflexivity | apply incl_refl]. }
  subst st'. revert S0. generalize st. clear st.
  induction ops as [|op rest IH]; intros st S0; cbn [fold_left]; [exact S0|].
  apply IH. now apply SessionFacts.run_keeps_silent.
Qed.

End Session.

(* ================================================================== *)
(** ** Properties of the bridge                                        *)
(* ================================================================== *)

Module BridgeFacts.

Import Notions.

Lemma length_append (a b : string) :
  String.length (a ++ b) = (String.length a + String.length b)%nat.
Proof. induction a as [|c a IH]; cbn; [reflexivity | now rewrite IH]. Qed.

Lemma substring_prefix (p rest : string) :
  substring 0 (String.length p) (p ++ rest) = p.
Proof.
  induction p as [|c p IH]; cbn.
  - now destruct rest.
  - now rewrite IH.
Qed.

Lemma substring_skip (a s : string) (n : nat) :
  substring (String.length a) n (a ++ s) = substring 0 n s.
Proof. induction a as [|c a IH]; cbn; [reflexivity | exact IH]. Qed.

Lemma substring_suffix (a s : string) :
  substring (String.length (a ++ s) - String.length s) (String.length s) (a ++ s) = s.
Proof.
  rewrite length_append.
  replace (String.length a + String.length s - String.length s)%nat
    with (String.length a) by lia.
  rewrite substring_skip.
  clear. induction s as [|c s IH]; cbn; [reflexivity | now rewrite IH].
Qed.

Lemma has_key_assign_same k v fields : has_key k (assign k v fields) = true.
Proof.
  induction fields as [|[k' v'] rest IH]; cbn.
  - now rewrite String.eqb_refl.
  - destruct (k' =? k) eqn:E; cbn; [now rewrite String.eqb_refl | now rewrite E].
Qed.

Lemma has_key_assign_other k k' v fields :
  has_key k fields = true -> has_key k (assign k' v fields) = true.
Proof.
  induction fields as [|[k0 v0] rest IH]; cbn; [discriminate|].
  destruct (k0 =? k') eqn:E; cbn.
  - apply String.eqb_eq in E. subst k0.
    destruct (k' =? k) eqn:E'; cbn; [reflexivity | trivial].
  - destruct (k0 =? k); cbn; [reflexivity | exact IH].
Qed.

(** Assigning to a property the value it has changes nothing. *)
Lemma assign_same_value k fields :
  has_key k fields = true -> assign k (lookup k fields) fields = fields.
Proof.
  induction fields as [|[k' v'] rest IH]; cbn; [discriminate|].
  destruct (k' =? k) eqn:E; cbn.
  - intros _. apply String.eqb_eq in E. now subst k'.
  - intros Hk. now rewrite IH.
Qed.

End BridgeFacts.

(** The log shows nine characters of the key at most.  Of a key of more
    than ten characters, [maskedKey] is made of the first five and the last
    four: two keys with these in common are logged alike.  A shorter key is
    not shown at all. *)
Theorem maskedKey_hides_the_middle :
  (forall head middle middle' tail : string,
     String.length head = 5%nat -> String.length tail = 4%nat ->
     (2 <= String.length middle)%nat -> (2 <= String.length middle')%nat ->
     Bridge.maskedKey (head ++ middle ++ tail)
     = Bridge.maskedKey (head ++ middle' ++ tail))
  /\ (forall key key' : string,
        (String.length key <= 10)%nat -> (String.length key' <= 10)%nat ->
        Bridge.maskedKey key = Bridge.maskedKey key').
Proof.
  split.
  - assert (G : forall head middle tail : string,
              String.length head = 5%nat -> String.length tail = 4%nat ->
              (2 <= String.length middle)%nat ->
              Bridge.maskedKey (head ++ middle ++ tail)
              = (head ++ "..." ++ tail)%string).
    { intros head middle tail Hh Ht Hm. unfold Bridge.maskedKey.
      assert (L : String.length (head ++ middle ++ tail)
                  = (9 + String.length middle)%nat).
      { rewrite !BridgeFacts.length_append. lia. }
      destruct (10 <? _)%nat eqn:E; [|apply Nat.ltb_ge in E; lia].
      rewrite <- Hh at 1. rewrite BridgeFacts.substring_prefix.
      f_equal. f_equal.
      replace (head ++ middle ++ tail)%string with ((head ++ middle) ++ tail)%string.
      - rewrite <- Ht. apply BridgeFacts.substring_suffix.
      - clear. induction head as [|c h IH]; cbn; [reflexivity | now rewrite IH]. }
    intros head middle middle' tail Hh Ht Hm Hm'.
    now rewrite !G.
  - intros key key' Hk Hk'. unfold Bridge.maskedKey.
    destruct (10 <? String.length key)%nat eqn:E; [apply Nat.ltb_lt in E; lia|].
    destruct (10 <? String.length key')%nat eqn:E'; [apply Nat.ltb_lt in E'; lia|].
    reflexivity.
Qed.

Section BridgeProperties.
Context `{Host}.
Variable cfg : config.t.

(** The listeners respect the state of the sockets.  Whatever event
    arrives and whatever state the two sockets are in, a frame is only sent
    to a socket that is open, and a socket is only closed while it is open or
    connecting. *)
Theorem listeners_respect_ready_state (s : Bridge.Sockets) (e : Bridge.Event) :
  Forall (Notions.allowed s) (Bridge.listener cfg s e).
Proof.
  assert (U : forall code reason,
            Forall (Notions.allowed s) (Bridge.closeUpstream s code reason)).
  { intros code reason. unfold Bridge.closeUpstream.
    destruct (Bridge.deepgramState s) eqn:E; cbn [Bridge.open_or_connecting];
      constructor; cbn; auto. }
  assert (C : forall code reason,
            Forall (Notions.allowed s) (Bridge.closeClient s code reason)).
  { intros code reason. unfold Bridge.closeClient.
    destruct (Bridge.clientState s) eqn:E; cbn [Bridge.open_or_connecting];
      constructor; cbn; auto. }
  destruct e as [|data sendThrows|code reason| |data sendThrows|code reason|];
    cbn [Bridge.listener]; auto.
  - destruct (Bridge.clientState s) eqn:E; cbn [Bridge.is_open]; auto.
    destruct sendThrows; auto.
  - assert (G : Forall (Notions.allowed s)
                  (flat_map (Bridge.wires_of s)
                     (onClientMessage cfg (Bridge.deepgramState s) data))).
    { unfold onClientMessage.
      destruct (Bridge.deepgramState s) eqn:E; cbn; auto.
      destruct data as [text|bytes]; cbn.
      - destruct (shouldInjectExternalLlm cfg); cbn; [|repeat constructor; exact E].
        destruct (injectExternalThinkSettings cfg text) as [mutated|]; cbn;
          [|repeat constructor; exact E].
        destruct (negb (mutated =? "")); cbn; repeat constructor; exact E.
      - repeat constructor; exact E. }
    destruct (onClientMessage cfg (Bridge.deepgramState s) data) as [|w ws]; auto.
    destruct sendThrows; auto.
Qed.

End BridgeProperties.

Section ThinkProperties.
Context `{Host}.
Variable cfg : config.t.

(** The rewriting is idempotent and keeps the agent's other settings.
    Rewriting a rewritten message changes nothing; and in a rewritten
    message whose [agent] is an object, every field of [agent] other than
    [think] is what it was. *)
Theorem withThink_idempotent (parsed : value) :
  withThink cfg (withThink cfg parsed) = withThink cfg parsed
  /\ (forall fields agent k,
        parsed = VObj fields -> lookup "agent" fields = VObj agent -> k <> "think" ->
        getProp (getProp (withThink cfg parsed) "agent") k = lookup k agent).
Proof.
  split.
  - destruct parsed as [| | | | | |fields| | | |]; try reflexivity.
    unfold withThink, setProp.
    cbn [getProp]. rewrite lookup_assign_same.
    set (agent := coalesce (lookup "agent" fields) (VObj [])).
    set (inner := assign "think" (thinkConfig cfg)
                    (assign "instructions" (getProp agent "instructions")
                       (own_properties agent))).
    change (coalesce (VObj inner) (VObj [])) with (VObj inner).
    cbn [getProp own_properties].
    assert (E1 : lookup "instructions" inner = getProp agent "instructions").
    { unfold inner. rewrite lookup_assign_other by discriminate.
      apply lookup_assign_same. }
    assert (E2 : lookup "think" inner = thinkConfig cfg).
    { unfold inner. apply lookup_assign_same. }
    assert (E3 : assign "think" (thinkConfig cfg)
                   (assign "instructions" (lookup "instructions" inner) inner)
                 = inner).
    { rewrite BridgeFacts.assign_same_value.
      - rewrite <- E2 at 1. apply BridgeFacts.assign_same_value.
        unfold inner. apply BridgeFacts.has_key_assign_same.
      - unfold inner. apply BridgeFacts.has_key_assign_other.
        apply BridgeFacts.has_key_assign_same. }
    rewrite E3.
    f_equal.
    rewrite <- (lookup_assign_same "agent" (VObj inner) fields) at 1.
    apply BridgeFacts.assign_same_value. apply BridgeFacts.has_key_assign_same.
  - intros fields agent k -> Ea Hk.
    unfold withThink, setProp. cbn [getProp]. rewrite lookup_assign_same.
    rewrite Ea. change (coalesce (VObj agent) (VObj [])) with (VObj agent).
    cbn [getProp own_properties].
    rewrite lookup_assign_other by congruence.
    destruct (String.eqb_spec "instructions" k) as [<-|Hne].
    + apply lookup_assign_same.
    + now apply lookup_assign_other.
Qed.

End ThinkProperties.

Section OpeningRequest.
Context `{Host}.
Variable cfg : config.t.
Variable systemContent : string.

(** The opening request of the provider through the bridge.  With an
    external model configured, the request the provider sends when its
    socket opens is forwarded upstream rewritten: it still names the selected
    voice, the trimmed system instructions and the audio format, and it
    carries the think settings of the server.  The JSON codec of the host is
    assumed to read back the request it has written. *)
Theorem opening_request_through_bridge (st : State) (clientState : ReadyState) :
  shouldInjectExternalLlm cfg = true ->
  JSON_parse (JSON_stringify
                (Session.buildAgentRequestPayload systemContent (selectedVoice st)))
  = Some (Session.buildAgentRequestPayload systemContent (selectedVoice st)) ->
  (JSON_stringify
     (withThink cfg
        (Session.buildAgentRequestPayload systemContent (selectedVoice st))) =? "")
  = false ->
  exists sent forwarded,
    snd (Session.onOpen systemContent st) = [Session.SendText sent]
    /\ Bridge.listener cfg (Bridge.mkSockets OPEN clientState)
         (Bridge.client_message (Text sent) false)
       = [Bridge.ToDeepgram (Text (JSON_stringify forwarded))]
    /\ getProp forwarded "type" = VStr "agent-request"
    /\ getProp (getProp forwarded "agent") "model" = VStr (selectedVoice st)
    /\ getProp (getProp forwarded "agent") "instructions" = VStr (trim systemContent)
    /\ getProp (getProp forwarded "agent") "think" = thinkConfig cfg
    /\ getProp forwarded "audio"
       = VObj [("format", VStr "linear16");
               ("sample_rate", VNum (Finite (inject_Z 24000)))].
Proof.
  intros Hinject Hcodec Hnonempty.
  set (request := Session.buildAgentRequestPayload systemContent (selectedVoice st)) in *.
  exists (JSON_stringify request), (withThink cfg request).
  split; [reflexivity|].
  split.
  { cbn [Bridge.listener Bridge.deepgramState].
    unfold onClientMessage, injectExternalThinkSettings.
    rewrite Hinject, Hcodec.
    change (getProp request "type") with (VStr "agent-request").
    cbn -[withThink]. rewrite Hnonempty. reflexivity. }
  repeat split.
Qed.

End OpeningRequest.

(* ================================================================== *)
(** ** Properties of the base64 decoding                               *)
(* ================================================================== *)

Module ForgivingFacts.

Import Base64.

Lemma strip_spaces_app (a b : string) :
  strip_spaces (a ++ b) = (strip_spaces a ++ strip_spaces b)%string.
Proof.
  induction a as [|c a IH]; cbn; [reflexivity|].
  destruct (is_space c); cbn; now rewrite IH.
Qed.

Lemma strip_spaces_In (s : string) (c : ascii) :
  In c (list_ascii_of_string (strip_spaces s))
  <-> In c (list_ascii_of_string s) /\ is_space c = false.
Proof.
  induction s as [|x s IH]; cbn; [tauto|].
  destruct (is_space x) eqn:E; cbn; rewrite IH; intuition (subst; congruence).
Qed.

Lemma list_ascii_of_string_app (a b : string) :
  list_ascii_of_string (a ++ b)
  = list_ascii_of_string a ++ list_ascii_of_string b.
Proof. induction a as [|c a IH]; cbn; [reflexivity | now rewrite IH]. Qed.

(** A character of the alphabet is no white space and no padding. *)
Lemma sextet_plain (c : ascii) :
  sextet c <> None ->
  is_space c = false /\ is_ascii_space c = false /\ (c =? "=")%char = false.
Proof.
  destruct c as [[] [] [] [] [] [] [] []]; vm_compute; intros E;
    try (now destruct E); repeat split.
Qed.

Lemma ascii_space_is_space (c : ascii) :
  is_space c = false -> is_ascii_space c = false.
Proof. destruct c as [[] [] [] [] [] [] [] []]; vm_compute; congruence. Qed.

Lemma strip_padding_In (l : list ascii) (c : ascii) :
  In c l -> (c =? "=")%char = false -> In c (strip_padding l).
Proof.
  intros Hc Hne. induction l as [|x l IH]; [destruct Hc|].
  destruct l as [|y l'].
  - destruct Hc as [->|[]]. cbn. rewrite Hne. now left.
  - destruct l' as [|z l''].
    + cbn [strip_padding]. cbn [strip_padding] in IH.
      destruct Hc as [->|[->|[]]].
      * rewrite Hne. cbn [andb]. now left.
      * destruct ((x =? "=")%char && (c =? "=")%char) eqn:E.
        -- apply andb_prop in E. destruct E. congruence.
        -- right. apply IH. now left.
    + change (strip_padding (x :: y :: z :: l''))
        with (x :: strip_padding (y :: z :: l'')).
      destruct Hc as [->|Hc]; [now left | right; now apply IH].
Qed.

Lemma sextets_None (l : list ascii) (c : ascii) :
  In c l -> sextet c = None -> sextets l = None.
Proof.
  intros Hc Hs. induction l as [|x l IH]; [destruct Hc|].
  cbn [sextets]. destruct Hc as [->|Hc].
  - now rewrite Hs.
  - rewrite (IH Hc). now destruct (sextet x).
Qed.

Lemma strip_spaces_alphabet (s : string) :
  Forall (fun c => sextet c <> None) (list_ascii_of_string s) ->
  strip_spaces s = s.
Proof.
  induction s as [|c s IH]; cbn; [reflexivity|].
  intros F. inversion F as [|? ? Hc Hs]; subst.
  destruct (sextet_plain c Hc) as (-> & _ & _). now rewrite IH.
Qed.

Lemma remove_ascii_space_alphabet (l : list ascii) :
  Forall (fun c => sextet c <> None) l -> remove_ascii_space l = l.
Proof.
  induction 1 as [|c l Hc _ IH]; cbn; [reflexivity|].
  destruct (sextet_plain c Hc) as (_ & -> & _). cbn. now f_equal.
Qed.

Lemma strip_padding_one (l : list ascii) :
  Forall (fun c => sextet c <> None) l -> strip_padding (l ++ ["="%char]) = l.
Proof.
  induction 1 as [|c l Hc Hl IH]; [reflexivity|].
  destruct (sextet_plain c Hc) as (_ & _ & Ec).
  destruct l as [|y l'].
  - cbn. now rewrite Ec.
  - change ((c :: y :: l') ++ ["="%char]) with (c :: y :: (l' ++ ["="%char])).
    assert (S : strip_padding (c :: y :: l' ++ ["="%char])
                = c :: strip_padding (y :: l' ++ ["="%char])).
    { now destruct l'. }
    rewrite S. f_equal. exact IH.
Qed.

Lemma strip_padding_two (l : list ascii) :
  strip_padding (l ++ ["="%char; "="%char]) = l.
Proof.
  induction l as [|c l IH]; [reflexivity|].
  change ((c :: l) ++ ["="%char; "="%char]) with (c :: (l ++ ["="%char; "="%char])).
  assert (S : strip_padding (c :: l ++ ["="%char; "="%char])
              = c :: strip_padding (l ++ ["="%char; "="%char])).
  { destruct l as [|y [|z l']]; reflexivity. }
  rewrite S. now f_equal.
Qed.

End ForgivingFacts.

(** The decoding of base64 is forgiving, and strict on the alphabet.
    White space is ignored wherever it stands; the padding may be left out;
    and a character that is not of the alphabet, no padding and no white
    space makes the result null. *)
Theorem decodeBase64_forgiving :
  (forall (a b : string) (c : ascii),
     is_space c = true ->
     decodeBase64 (a ++ String c b) = decodeBase64 (a ++ b))
  /\ (forall s : string,
        Forall (fun c => Base64.sextet c <> None) (list_ascii_of_string s) ->
        ((String.length s mod 4 = 2)%nat -> decodeBase64 (s ++ "==") = decodeBase64 s)
        /\ ((String.length s mod 4 = 3)%nat -> decodeBase64 (s ++ "=") = decodeBase64 s))
  /\ (forall (a b : string) (c : ascii),
        is_space c = false -> c <> "="%char -> Base64.sextet c = None ->
        decodeBase64 (a ++ String c b) = None).
Proof.
  split; [|split].
  - intros a b c Hc. unfold decodeBase64.
    rewrite !ForgivingFacts.strip_spaces_app. cbn [strip_spaces]. now rewrite Hc.
  - intros s Hs.
    assert (Hl : String.length s = List.length (list_ascii_of_string s)).
    { clear. induction s as [|c s IH]; cbn; [reflexivity | now rewrite IH]. }
    assert (Hpad : forall p : string,
              Forall (fun c => c = "="%char) (list_ascii_of_string p) ->
              strip_spaces (s ++ p) = (s ++ p)%string
              /\ Base64.remove_ascii_space (list_ascii_of_string (s ++ p))
                 = list_ascii_of_string s ++ list_ascii_of_string p).
    { intros p Hp. rewrite ForgivingFacts.strip_spaces_app.
      rewrite (ForgivingFacts.strip_spaces_alphabet s Hs).
      assert (Ep : strip_spaces p = p).
      { clear -Hp. induction p as [|c p IH]; cbn; [reflexivity|].
        inversion Hp as [|? ? Hc Hr]; subst. cbn. now rewrite IH. }
      rewrite Ep. split; [reflexivity|].
      rewrite ForgivingFacts.list_ascii_of_string_app.
      unfold Base64.remove_ascii_space. rewrite filter_app.
      fold (Base64.remove_ascii_space (list_ascii_of_string s)).
      rewrite (ForgivingFacts.remove_ascii_space_alphabet _ Hs). f_equal.
      clear -Hp. induction p as [|c p IH]; cbn; [reflexivity|].
      inversion Hp as [|? ? Hc Hr]; subst. cbn. now rewrite IH. }
    assert (Hplain : Base64.atob (strip_spaces s)
                     = if (List.length (list_ascii_of_string s) mod 4 =? 0)%nat
                       then Base64.atob (strip_spaces s)
                       else if (List.length (list_ascii_of_string s) mod 4 =? 1)%nat
                            then None
                            else match Base64.sextets (list_ascii_of_string s) with
                                 | Some ns =>
                                     Some (string_of_list_ascii (Base64.decode_sextets ns))
                                 | None => None
                                 end).
    { destruct (_ mod 4 =? 0)%nat eqn:E0; [reflexivity|].
      unfold Base64.atob.
      rewrite (ForgivingFacts.strip_spaces_alphabet s Hs).
      rewrite (ForgivingFacts.remove_ascii_space_alphabet _ Hs).
      now rewrite E0. }
    split; intros Hm; unfold decodeBase64; rewrite Hplain, <- Hl, Hm; cbn [Nat.eqb].
    + destruct (Hpad "==") as [E1 E2]; [repeat constructor|].
      unfold Base64.atob at 1. rewrite E1, E2. cbn [list_ascii_of_string].
      rewrite length_app, <- Hl. cbn [List.length].
      replace ((String.length s + 2) mod 4)%nat with 0%nat
        by (rewrite Nat.Div0.add_mod, Hm; reflexivity).
      cbn [Nat.eqb]. rewrite ForgivingFacts.strip_padding_two, <- Hl, Hm.
      reflexivity.
    + destruct (Hpad "=") as [E1 E2]; [repeat constructor|].
      unfold Base64.atob at 1. rewrite E1, E2. cbn [list_ascii_of_string].
      rewrite length_app, <- Hl. cbn [List.length].
      replace ((String.length s + 1) mod 4)%nat with 0%nat
        by (rewrite Nat.Div0.add_mod, Hm; reflexivity).
      cbn [Nat.eqb]. rewrite (ForgivingFacts.strip_padding_one _ Hs), <- Hl, Hm.
      reflexivity.
  - intros a b c Hspace Hpad Hsextet. unfold decodeBase64.
    assert (I : In c (Base64.remove_ascii_space
                        (list_ascii_of_string (strip_spaces (a ++ String c b))))).
    { apply filter_In. split.
      - apply ForgivingFacts.strip_spaces_In. split; [|exact Hspace].
        rewrite ForgivingFacts.list_ascii_of_string_app. apply in_or_app.
        right. now left.
      - now rewrite (ForgivingFacts.ascii_space_is_space c Hspace). }
    assert (Ne : (c =? "=")%char = false) by now apply Ascii.eqb_neq.
    unfold Base64.atob.
    set (l := Base64.remove_ascii_space _) in *.
    assert (I' : In c (if (List.length l mod 4 =? 0)%nat
                       then Base64.strip_padding l else l)).
    { destruct (_ =? 0)%nat; [now apply ForgivingFacts.strip_padding_In | exact I]. }
    destruct (_ mod 4 =? 1)%nat; [reflexivity|].
    now rewrite (ForgivingFacts.sextets_None _ c I' Hsextet).
Qed.

Section VoiceChange.
Context `{Host}.
Hypothesis gen_id_injective : forall i j : nat, gen_id i = gen_id j -> i = j.

(** A change of voice starts a new message.  After [updateVoice] with
    another voice, the next text of the model opens a message of its own,
    spoken with the new voice and placed last; the messages that were there,
    the one that was open included, stay as they are. *)
Theorem voice_change_starts_new_message (st : State) (newVoice text : string) :
  Spec.well_formed st ->
  newVoice <> selectedVoice st ->
  let st' := exec (appendResponseText text) (exec (updateVoice newVoice) st) in
  let message :=
    mkMessage (gen_id (idsDrawn st)) model (VStr text) None (Some newVoice) in
  chatMessages st' = chatMessages st ++ [message]
  /\ incomingMessageRef st' = Some message
  /\ selectedVoice st' = newVoice.
Proof.
  intros Hwf Hne st' message.
  pose proof (fresh_id gen_id_injective st Hwf) as Hfresh.
  destruct Hwf as (Hnodup & _ & _).
  subst st'. unfold exec, updateVoice, bind, gets, modify, ret.
  apply String.eqb_neq in Hne. rewrite Hne.
  destruct st as [cn vo sp mi ch ctx sources cursor inc ids reads stp].
  cbn in Hfresh, Hnodup. cbn.
  split; [|split; reflexivity].
  apply (replace_last ch
           (mkMessage (gen_id ids) model (VStr "") None (Some newVoice)) message).
  - now apply NoDup_map_app_fresh.
  - reflexivity.
Qed.

End VoiceChange.

Section AuthenticateProperties.
Variable verifyJWT : Request -> Authenticate.Reply.
Variable DeepgramError : string -> value.

(** The credential endpoint guards the key.  A request that is not
    verified gets the answer of the verification and the token service is
    not asked; and unless the request is verified and the environment is
    [development], the configured key reaches the answer only through what
    the token service does with it: the verification, the request and the
    outcome of the token call decide the answer. *)
Theorem authenticate_guards_the_key (env : option string) (cfg cfg' : config.t)
    (request : Request) (granted : option Authenticate.GrantResult) :
  (Authenticate.status (verifyJWT request) <> 200%Z ->
   Authenticate.GET verifyJWT DeepgramError env cfg request granted
   = (Authenticate.Replied (verifyJWT request), []))
  /\ (Authenticate.status (verifyJWT request) <> 200%Z \/ env <> Some "development" ->
      fst (Authenticate.GET verifyJWT DeepgramError env cfg request granted)
      = fst (Authenticate.GET verifyJWT DeepgramError env cfg' request granted)).
Proof.
  unfold Authenticate.GET.
  destruct (Authenticate.status (verifyJWT request) =? 200)%Z eqn:E; cbn [negb].
  - apply Z.eqb_eq in E. split; [intros C; now destruct C|].
    intros [C|C]; [now destruct C|].
    assert (D : match env with
                | Some e => e =? "development"
                | None => false
                end = false).
    { destruct env as [e|]; [|reflexivity].
      apply String.eqb_neq. congruence. }
    rewrite D.
    destruct granted as [answer|]; [|reflexivity].
    destruct (truthy (Authenticate.error answer)); [reflexivity|].
    destruct (Authenticate.result answer) as [[access_token expires_in]|];
      reflexivity.
  - split; reflexivity.
Qed.

End AuthenticateProperties.

Lemma int16_pairs_app (a b : list byte) :
  Nat.even (List.length a) = true ->
  Samples.int16_pairs (a ++ b) = Samples.int16_pairs a ++ Samples.int16_pairs b.
Proof.
  induction a as [|x|x y a IH] using SampleFacts.list_ind2; cbn [List.length].
  - reflexivity.
  - discriminate.
  - intros E. cbn [app Samples.int16_pairs]. f_equal. now apply IH.
Qed.

(** A replay plays what was received.  The audio of a message is the
    concatenation of the chunks that arrived; when each chunk has an even
    number of bytes, [replayAudio] of the whole does not throw and plays the
    samples of the chunks, in their order, and closes its context at once
    when there is no sample. *)
Theorem replayAudio_plays_the_chunks (chunks : list (list byte)) :
  forallb (fun c => Nat.even (List.length c)) chunks = true ->
  Samples.replayAudio (List.concat chunks)
  = match flat_map Samples.int16_pairs chunks with
    | [] => Samples.replay_nothing
    | view => Samples.replay_plays (Samples.channelData view)
    end.
Proof.
  intros Heven.
  assert (G : Nat.even (List.length (List.concat chunks)) = true
              /\ Samples.int16_pairs (List.concat chunks)
                 = flat_map Samples.int16_pairs chunks).
  { induction chunks as [|c rest IH]; [now split|].
    cbn [forallb] in Heven. apply andb_prop in Heven. destruct Heven as [Hc Hrest].
    destruct (IH Hrest) as [E1 E2]. cbn [List.concat flat_map]. split.
    - rewrite length_app, Nat.even_add, Hc, E1. reflexivity.
    - now rewrite int16_pairs_app, E2. }
  destruct G as [E1 E2].
  unfold Samples.replayAudio, Samples.Int16Array_of.
  rewrite <- Nat.negb_even, E1. cbn [negb]. rewrite E2.
  now destruct (flat_map Samples.int16_pairs chunks).
Qed.

(** Two chunks, of two samples and of one. *)
Lemma replayAudio_plays_the_chunks_witness :
  Samples.replayAudio [x00; x40; x00; xc0; xff; x7f]
  = Samples.replay_plays [(16384 # 32768)%Q; (-16384 # 32768)%Q; (32767 # 32768)%Q].
Proof.
  exact (replayAudio_plays_the_chunks [[x00; x40; x00; xc0]; [xff; x7f]] eq_refl).
Defined.


(** One byte of audio in the second of three sub-objects. *)
Lemma odd_chunk_ends_agent_response_witness :
  @handleAgentResponse Examples.plain_host Scenarios.odd_audio_response
    Examples.talking
  = (Thrown,
     exec (forEach (@perform Examples.plain_host)
             [TextDelta "Hi"; AudioDelta [x41]]) Examples.talking).
Proof.
  exact (@odd_chunk_ends_agent_response Examples.plain_host
           Scenarios.odd_audio_response Examples.talking
           [TextDelta "Hi"] [TextDelta "lost"; TurnComplete] [x41]
           eq_refl eq_refl eq_refl eq_refl (ex_intro _ "Hi"%string eq_refl)).
Defined.

(** The microphone is open once the chain is wired. *)
Lemma microphone_open_means_capturing_witness :
  Notions.capturing (fst Scenarios.streaming).
Proof.
  apply (@microphone_open_means_capturing Examples.plain_host "Be brief.").
  - unfold Scenarios.streaming.
    repeat apply (@Session.reachable_step Examples.plain_host).
    apply (@Session.reachable_start Examples.plain_host).
  - reflexivity.
Defined.

(** The opening request for the voice of [Examples.start], provider
    [OpenAI]. *)
Lemma opening_request_through_bridge_witness :
  exists sent forwarded,
    snd (@Session.onOpen Scenarios.echo_host "  Be brief. " Examples.start)
    = [Session.SendText sent]
    /\ @Bridge.listener Scenarios.echo_host Examples.byo_config
         (Bridge.mkSockets OPEN OPEN) (Bridge.client_message (Text sent) false)
       = [Bridge.ToDeepgram (Text (@JSON_stringify Scenarios.echo_host forwarded))]
    /\ getProp (getProp forwarded "agent") "model" = VStr "aura-asteria-en"
    /\ getProp (getProp forwarded "agent") "instructions" = VStr "Be brief."
    /\ getProp (getProp forwarded "agent") "think" = thinkConfig Examples.byo_config.
Proof.
  destruct (@opening_request_through_bridge Scenarios.echo_host Examples.byo_config
              "  Be brief. " Examples.start OPEN eq_refl eq_refl eq_refl)
    as (sent & forwarded & H1 & H2 & _ & H3 & H4 & H5 & _).
  exists sent, forwarded. repeat split; assumption.
Defined.

(** The voice changes while the greeting is open. *)
Lemma voice_change_starts_new_message_witness :
  chatMessages
    (exec (@appendResponseText Examples.plain_host "Hello")
       (exec (updateVoice "aura-luna-en") Examples.talking))
  = [Examples.greeting;
     mkMessage (Examples.tally 1) model (VStr "Hello") None (Some "aura-luna-en")].
Proof.
  destruct (@voice_change_starts_new_message Examples.plain_host tally_injective
              Examples.talking "aura-luna-en" "Hello" talking_well_formed
              ltac:(discriminate))
    as (H1 & _ & _).
  exact H1.
Defined.
